(** * Tech-news blog generator: selection, deduplication, translation cache

    A shallow embedding of the core of [tech-news-blog/scripts/generate.py]
    and [tech-news-blog/scripts/llm_translate.py]:

    - [categorize]               (generate.py, keyword classifier)
    - [translate_title_and_summary] (llm_translate.py, backend dispatch)
    - [translate_with_llm]       (generate.py, backend call with fallback)
    - [pick_articles_balanced]   (generate.py, balanced selector)
    - the translation loop of [create_blog_post] (generate.py, cache)
    - [dedupe_articles]          (generate.py, deduplication filter)
    - [create_post_content]      (generate.py, publication renderer)
    - the selection and the rendering of [create_blog_post] (generate.py)
    - [main]                     (generate.py, command line)
    - the parsing of the Minimax response (llm_translate.py)

    Python values are modelled as follows.  [int] is [Z]; list slicing and
    indexing follow Python for negative numbers too.  [str] is [string], the
    UTF-8 bytes of the text.  A dict with string keys is a [gmap string _];
    a set of strings is a [gset string].  An article (a dict read from JSON)
    is a record of optional strings, [None] standing for an absent key.
    Exceptions are values of [exn]; effectful code runs in the monad [M]. *)

From Stdlib Require Import ZArith Ascii String List Bool Lia.
From Stdlib Require DecimalString.
From stdpp Require Import base tactics option list gmap strings sorting.

Local Open Scope string_scope.
Local Open Scope list_scope.
Local Open Scope Z_scope.

(** ** Python primitives *)

Module Py.

(** [l[:k]]: the first [k] items, or all but the last [-k] when [k < 0]. *)
Definition slice_to {A} (l : list A) (k : Z) : list A :=
  if 0 <=? k then take (Z.to_nat k) l
  else take (Z.to_nat (Z.of_nat (length l) + k)) l.

(** [l[i]]: counts from the end when [i < 0]; [None] is [IndexError]. *)
Definition index {A} (l : list A) (i : Z) : option A :=
  if 0 <=? i then l !! Z.to_nat i
  else if 0 <=? Z.of_nat (length l) + i
       then l !! Z.to_nat (Z.of_nat (length l) + i)
       else None.

(** [len(l)] as a Python int. *)
Definition len {A} (l : list A) : Z := Z.of_nat (length l).

(** [x or d] on an optional string: [None] and [""] are falsy. *)
Definition or_else (x : option string) (d : string) : string :=
  match x with
  | Some s => if String.eqb s "" then d else s
  | None => d
  end.

(** [x or y] where both sides come from [dict.get]; the result is
    [None] when it is falsy ([None] or [""]). *)
Definition truthy (x : option string) : option string :=
  match x with
  | Some s => if String.eqb s "" then None else Some s
  | None => None
  end.

(** [k in t] on strings: [k] occurs in [t] as a contiguous substring. *)
Fixpoint contains (k t : string) : bool :=
  String.prefix k t ||
  match t with
  | EmptyString => false
  | String _ t' => contains k t'
  end.

Definition lower_ascii (c : ascii) : ascii :=
  let n := nat_of_ascii c in
  if (65 <=? n)%nat && (n <=? 90)%nat then ascii_of_nat (n + 32) else c.

(** [s.lower()] on the UTF-8 bytes of [s].  ASCII capitals are lowered.
    Exactly two other code points have a lower-case form that contains an
    ASCII letter: U+0130 (bytes 196 176) becomes "i" followed by U+0307
    (bytes 204 135), and U+212A (bytes 226 132 170) becomes "k".  Every
    other code point above 127 is left as it is: Python's [lower] maps it to
    code points above 127 again, so the ASCII content of the result, which
    is all that a test against an ASCII keyword reads, is the same. *)
Fixpoint lower (s : string) : string :=
  match s with
  | EmptyString => EmptyString
  | String c s1 =>
      match s1 with
      | String c2 s2 =>
          if Ascii.eqb c "196" && Ascii.eqb c2 "176"
          then String "i" (String "204" (String "135" (lower s2)))
          else
            match s2 with
            | String c3 s3 =>
                if Ascii.eqb c "226" && Ascii.eqb c2 "132" && Ascii.eqb c3 "170"
                then String "k" (lower s3)
                else String (lower_ascii c) (lower s1)
            | EmptyString => String (lower_ascii c) (lower s1)
            end
      | EmptyString => String (lower_ascii c) EmptyString
      end
  end.

(** [any(k in t for k in ks)] *)
Definition any_in (ks : list string) (t : string) : bool :=
  existsb (fun k => contains k t) ks.

End Py.

(** ** Data model *)

(** An article: the dict produced by a source adapter.  [zh_title] and
    [zh_summary] are set by the translation loop. *)
Record article := mkArticle {
  title : option string;
  link : option string;
  description : option string;
  comments : option string;
  pub_date : option string;
  source : option string;
  source_name : option string;
  zh_title : option string;
  zh_summary : option string
}.

Global Instance article_eq_dec : EqDecision article.
Proof. solve_decision. Defined.

(** [a["zh_title"] = t; a["zh_summary"] = s] *)
Definition set_zh (a : article) (t s : option string) : article :=
  {| title := title a; link := link a; description := description a;
     comments := comments a; pub_date := pub_date a; source := source a;
     source_name := source_name a; zh_title := t; zh_summary := s |}.

(** ** Category classifier ([categorize]) *)

Definition CAT_AI : string := "AI 与机器学习".
Definition CAT_GAMES : string := "游戏与怀旧科技".
Definition CAT_DEV : string := "开发工具与开源".
Definition CAT_INFRA : string := "基础设施与行业".
Definition CAT_MISC : string := "趣闻".

Definition CATEGORIES : list string :=
  [CAT_AI; CAT_GAMES; CAT_DEV; CAT_INFRA; CAT_MISC].

Definition KW_AI : list string :=
  ["ai"; "llm"; "model"; "agent"; "gpt"; "claude"; "grok"; "ml "; "neural";
   "deep learning"].
Definition KW_GAMES : list string :=
  ["game"; "gaming"; "retro"; "vintage"; "nostalgia"; "classic"; "emulator";
   "amiga"; "commodore"].
Definition KW_DEV : list string :=
  ["rust"; "python"; "javascript"; "github"; "open source"; "framework";
   "library"; "tool"; "compiler"; "database"; "sql"].
Definition KW_INFRA : list string :=
  ["cloud"; "aws"; "gcp"; "azure"; "server"; "datacenter"; "infrastructure";
   "kubernetes"; "docker"; "devops"; "security"; "privacy"; "encryption"].

Definition categorize (title : string) : string :=
  let t := Py.lower title in
  if Py.any_in KW_AI t then CAT_AI
  else if Py.any_in KW_GAMES t then CAT_GAMES
  else if Py.any_in KW_DEV t then CAT_DEV
  else if Py.any_in KW_INFRA t then CAT_INFRA
  else CAT_MISC.

(** The classifier as the specification words it: an ordered table of
    categories with their keyword sets, the first category with a keyword
    in the lower-cased title wins, a catch-all otherwise. *)
Definition keyword_table : list (string * list string) :=
  [(CAT_AI, KW_AI); (CAT_GAMES, KW_GAMES); (CAT_DEV, KW_DEV);
   (CAT_INFRA, KW_INFRA)].

Fixpoint classify_table (table : list (string * list string))
    (catch_all : string) (t : string) : string :=
  match table with
  | [] => catch_all
  | (c, ks) :: rest =>
      if Py.any_in ks t then c else classify_table rest catch_all t
  end.

(** A title, lower-cased to [t], matches a keyword set. *)
Definition matches (ks : list string) (t : string) : Prop :=
  ∃ k pre post, k ∈ ks ∧ t = pre +:+ k +:+ post.

(** [c] is the category of the first entry of [table] whose keyword set
    matches [t], or the catch-all when no entry matches. *)
Definition first_match (table : list (string * list string))
    (catch_all : string) (t : string) (c : string) : Prop :=
  (∃ (i : nat) ks, table !! i = Some (c, ks) ∧ matches ks t ∧
     ∀ (j : nat) c' ks', (j < i)%nat → table !! j = Some (c', ks') →
       ¬ matches ks' t)
  ∨ (c = catch_all ∧ ∀ c' ks', (c', ks') ∈ table → ¬ matches ks' t).


(** ** Exceptions and control flow *)

(** A raised exception: its class name and its message ([str(e)]). *)
Record exn := Exn { exn_type : string; exn_msg : string }.

Global Instance exn_eq_dec : EqDecision exn.
Proof. solve_decision. Defined.

Definition IndexError : exn := Exn "IndexError" "list index out of range".

(** What one pass over a loop body leaves: the loop state to go on with, a
    [return] out of the enclosing function, or a raised exception. *)
Inductive flow (S R : Type) :=
  | Next (s : S)
  | Returned (r : R)
  | Raised (e : exn).
Arguments Next {S R} s.
Arguments Returned {S R} r.
Arguments Raised {S R} e.

(** The result of a call that is run with a bound on loop rounds. *)
Inductive outcome (R : Type) :=
  | Return (r : R)
  | Raise (e : exn)
  | OutOfFuel.
Arguments Return {R} r.
Arguments Raise {R} e.
Arguments OutOfFuel {R}.

(** ** Balanced selector ([pick_articles_balanced]) *)

(** [a.get('source', 'unknown')] *)
Definition bucket_key (a : article) : string := default "unknown" (source a).

(** [buckets.setdefault(a.get('source', 'unknown'), []).append(a)] *)
Definition bucket_add (buckets : gmap string (list article)) (a : article)
    : gmap string (list article) :=
  <[bucket_key a := default [] (buckets !! bucket_key a) ++ [a]]> buckets.

Definition make_buckets (articles : list article)
    : gmap string (list article) :=
  foldl bucket_add ∅ articles.

(** [sorted(buckets.keys())]: the keys in increasing lexicographic order. *)
Definition sorted_keys (buckets : gmap string (list article)) : list string :=
  merge_sort String.le (elements (dom buckets)).

(** [source_order or sorted(buckets.keys())]: [None] and [[]] are falsy. *)
Definition effective_order (source_order : option (list string))
    (buckets : gmap string (list article)) : list string :=
  match source_order with
  | Some (src :: rest) => src :: rest
  | Some [] | None => sorted_keys buckets
  end.

(** The first [for src in order] loop, from the state [picked]. *)
Fixpoint first_pass (buckets : gmap string (list article))
    (limit per_source : Z) (order : list string) (picked : list article)
    : flow (list article) (list article) :=
  match order with
  | [] => Next picked
  | src :: rest =>
      let picked :=
        match buckets !! src with
        | Some b => picked ++ Py.slice_to b per_source
        | None => picked
        end in
      if limit <=? Py.len picked then Returned (Py.slice_to picked limit)
      else first_pass buckets limit per_source rest picked
  end.

(** One run of the [for src in order] loop inside the [while], at index
    [i], from the state [(picked, progressed)]. *)
Fixpoint fill_round (buckets : gmap string (list article))
    (limit i : Z) (order : list string)
    (picked : list article) (progressed : bool)
    : flow (list article * bool) (list article) :=
  match order with
  | [] => Next (picked, progressed)
  | src :: rest =>
      match buckets !! src with
      | Some b =>
          if i <? Py.len b then
            match Py.index b i with
            | None => Raised IndexError
            | Some x =>
                let picked := picked ++ [x] in
                if limit <=? Py.len picked
                then Returned (Py.slice_to picked limit)
                else fill_round buckets limit i rest picked true
            end
          else fill_round buckets limit i rest picked progressed
      | None => fill_round buckets limit i rest picked progressed
      end
  end.

(** The [while len(picked) < limit] loop; [fuel] bounds its rounds. *)
Fixpoint fill_loop (fuel : nat) (buckets : gmap string (list article))
    (limit : Z) (order : list string) (i : Z) (picked : list article)
    : outcome (list article) :=
  match fuel with
  | O => OutOfFuel
  | S fuel =>
      if Py.len picked <? limit then
        match fill_round buckets limit i order picked false with
        | Returned r => Return r
        | Raised e => Raise e
        | Next (picked, progressed) =>
            if progressed
            then fill_loop fuel buckets limit order (i + 1) picked
            else Return (Py.slice_to picked limit)
        end
      else Return (Py.slice_to picked limit)
  end.

Definition pick_articles_balanced_fuel (fuel : nat)
    (articles : list article) (limit per_source : Z)
    (source_order : option (list string)) : outcome (list article) :=
  let buckets := make_buckets articles in
  let order := effective_order source_order buckets in
  match first_pass buckets limit per_source order [] with
  | Returned r => Return r
  | Raised e => Raise e
  | Next picked => fill_loop fuel buckets limit order per_source picked
  end.

(** A number of rounds that the [while] loop never exceeds (shown below):
    no bucket is longer than the article list, and a round at an index
    outside [-n, n) is the last one. *)
Definition rounds_bound (articles : list article) : nat :=
  S (S (2 * length articles)).

Definition pick_articles_balanced (articles : list article)
    (limit per_source : Z) (source_order : option (list string))
    : outcome (list article) :=
  pick_articles_balanced_fuel (rounds_bound articles)
    articles limit per_source source_order.

(** The articles of one source, in input order: what the bucket of [src]
    holds (lemma [make_buckets_lookup]). *)
Definition bucket_of (articles : list article) (src : string) : list article :=
  filter (λ a, bucket_key a = src) articles.


(** [r] is some [picked[:limit]]: every [return] of the selector has this
    form. *)
Definition cut_at_limit (limit : Z) (r : list article) : Prop :=
  ∃ picked, r = Py.slice_to picked limit.

(** With buckets of at most [n] articles: the rounds of the [while] loop
    still to run from index [i], the last one included. *)
Definition rounds_left (n : nat) (i : Z) : nat :=
  S (if i <? - Z.of_nat n then 0 else Z.to_nat (Z.of_nat n - i)).

(** [buckets[src]] when [src in buckets], the empty list otherwise. *)
Definition bucket_get (buckets : gmap string (list article)) (src : string)
    : list article :=
  default [] (buckets !! src).

(** The first [j] articles of every bucket, in [order]. *)
Definition taken (buckets : gmap string (list article))
    (order : list string) (j : nat) : list article :=
  flat_map (λ src, take j (bucket_get buckets src)) order.

(** The articles at index [j] of the buckets that have one, in [order]. *)
Definition round_items (buckets : gmap string (list article))
    (order : list string) (j : nat) : list article :=
  flat_map (λ src, option_list (bucket_get buckets src !! j)) order.

(** Every article of every bucket, in [order]. *)
Definition taken_all (buckets : gmap string (list article))
    (order : list string) : list article :=
  flat_map (bucket_get buckets) order.

(** An explicit source order names the source of every article exactly
    once; a source that no article has may be missing from it, or
    repeated. *)
Definition covers_once (order : list string) (articles : list article)
    : Prop :=
  Forall (λ a, length (filter (λ src, src = bucket_key a) order) = 1%nat)
    articles.

(** The condition on [source_order] under which no candidate is left out
    or taken twice: nothing to ask when the order is absent or empty (the
    sorted observed sources are used), [covers_once] otherwise. *)
Definition order_complete (source_order : option (list string))
    (articles : list article) : Prop :=
  match source_order with
  | Some (src :: rest) => covers_once (src :: rest) articles
  | Some [] | None => True
  end.

(** A sample article of source [src] titled [ttl], with nothing else set. *)
Definition sample_article (src ttl : string) : article :=
  {| title := Some ttl; link := None; description := None; comments := None;
     pub_date := None; source := Some src; source_name := None;
     zh_title := None; zh_summary := None |}.

(** Two bucket dicts agree on the sources of [order]. *)
Definition agree_on (b1 b2 : gmap string (list article))
    (order : list string) : Prop :=
  ∀ src, src ∈ order → b1 !! src = b2 !! src.

(** ** The world of the translation code *)

(** The two backends of [llm_translate.py]. *)
Inductive backend := Minimax | OpenAI.

(** One backend call: which backend, and the arguments that
    [translate_title_and_summary] builds its request from. *)
Record request := mkRequest {
  req_backend : backend;
  req_title : string;
  req_description : option string;
  req_source : option string
}.

(** What a backend call comes to, HTTP exchange and parsing of the response
    taken together: the pair [(zh_title, zh_summary)], or the exception
    raised on the way ([_post_json] failing, a response without text block,
    a missing field). *)
Inductive reply :=
  | Replied (zh_title zh_summary : string)
  | Failed (e : exn).

(** The world the code acts on: the backend calls made so far, oldest
    first, and the lines printed on standard error. *)
Record world := mkWorld {
  calls : list request;
  stderr : list string
}.

(** The process environment, as the code reads it:
    [os.environ.get(NAME, '').strip()]. *)
Record environ := mkEnviron {
  ANTHROPIC_API_KEY : string;
  OPENAI_API_KEY : string
}.

(** Computations that read and change the world and may raise. *)
Definition M (A : Type) : Type := world → (exn + A) * world.

Definition ret {A} (x : A) : M A := λ w, (inr x, w).

Definition bind {A B} (m : M A) (f : A → M B) : M B :=
  λ w, match m w with
       | (inr x, w') => f x w'
       | (inl e, w') => (inl e, w')
       end.

Definition raise {A} (e : exn) : M A := λ w, (inl e, w).

(** [try: m except Exception as e: handler(e)] *)
Definition try_except {A} (m : M A) (handler : exn → M A) : M A :=
  λ w, match m w with
       | (inr x, w') => (inr x, w')
       | (inl e, w') => handler e w'
       end.

(** [print(line, file=sys.stderr)] *)
Definition print_stderr (line : string) : M unit :=
  λ w, (inr tt, {| calls := calls w; stderr := stderr w ++ [line] |}).

Declare Scope monad_scope.
Delimit Scope monad_scope with M.
Notation "'let*' x ':=' m 'in' k" := (bind m (λ x, k))
  (at level 10, x name, m at level 100, k at level 200) : monad_scope.
Notation "'let*' ' p ':=' m 'in' k" := (bind m (λ p, k))
  (at level 10, p pattern, m at level 100, k at level 200) : monad_scope.
Notation "'do' m 'then' k" := (bind m (λ _, k))
  (at level 10, m at level 100, k at level 200) : monad_scope.

(** ** Translation ([translate_title_and_summary], [translate_with_llm]) *)

Definition nl : string := String "010" EmptyString.

Definition PLACEHOLDER : string := "细节待补充".
Definition DEFAULT_SOURCE : string := "社区".
Definition BULLETS_HEADING : string := "要点：".


(** The template of [translate_with_llm]: the sentence naming the source,
    then the heading and three placeholder bullets. *)
Definition fallback_summary (src : string) : string :=
  ("来自 " +:+ src +:+ " 的热门话题。")
  +:+ nl +:+ nl +:+ "要点：" +:+ nl
  +:+ "- 细节待补充" +:+ nl +:+ "- 细节待补充" +:+ nl +:+ "- 细节待补充".

Definition NO_API_MESSAGE : string :=
  "No translation API configured (neither ANTHROPIC_API_KEY nor OPENAI_API_KEY)".

Section translation.
(** The backends: the reply to a request, given the calls made before. *)
Variable service : list request → request → reply.
Variable env : environ.

Local Open Scope monad_scope.

(** [_post_json] and the parsing of the response: the call is recorded,
    then it returns or raises. *)
Definition call_backend (b : backend) (title : string)
    (description source : option string) : M (string * string) :=
  λ w, let rq := mkRequest b title description source in
       let w' := {| calls := calls w ++ [rq]; stderr := stderr w |} in
       match service (calls w) rq with
       | Replied t s => (inr (t, s), w')
       | Failed e => (inl e, w')
       end.

(** [llm_translate.translate_title_and_summary] *)
Definition translate_title_and_summary (title : string)
    (description source : option string) : M (string * string) :=
  if negb (String.eqb (ANTHROPIC_API_KEY env) "") then
    try_except (call_backend Minimax title description source)
      (λ e, raise (Exn "RuntimeError"
                     ("Minimax translation failed: " +:+ exn_msg e)))
  else if String.eqb (OPENAI_API_KEY env) "" then
    raise (Exn "RuntimeError" NO_API_MESSAGE)
  else call_backend OpenAI title description source.

(** [has_api_key = bool(anthropic_key or openai_key)] *)
Definition has_api_key : bool :=
  negb (String.eqb (ANTHROPIC_API_KEY env) "")
  || negb (String.eqb (OPENAI_API_KEY env) "").

(** The [try] block of [translate_with_llm]: [Some result] when it
    returns from the function, [None] when control falls through to the
    template. *)
Definition translate_attempt (title : string)
    (description source_name : option string)
    : M (option (string * string)) :=
  try_except
    (if has_api_key then
       let* result := translate_title_and_summary title
                        (Some (Py.or_else description "")) source_name in
       ret (Some result)
     else
       do print_stderr "[DEBUG] No API key" then ret None)
    (λ e, do print_stderr ("[DEBUG] Translation failed: " +:+ exn_msg e)
          then ret None).

(** [generate.translate_with_llm] *)
Definition translate_with_llm (title : string)
    (description source_name : option string) : M (string * string) :=
  let* attempt := translate_attempt title description source_name in
  match attempt with
  | Some result => ret result
  | None =>
      let zh_title := title in
      let src := Py.or_else source_name DEFAULT_SOURCE in
      ret (zh_title, fallback_summary src)
  end.

End translation.

(** ** Translation cache (the translation loop of [create_blog_post]) *)

(** A value of the cache dict, [{"zh_title": ..., "zh_summary": ...}], read
    with [.get]: [None] for an absent field. *)
Record cached := mkCached {
  cached_zh_title : option string;
  cached_zh_summary : option string
}.

Global Instance cached_eq_dec : EqDecision cached.
Proof. solve_decision. Defined.

(** A Python [str] can hold a surrogate code point on its own
    ([json.loads] returns one for an escape such as [\ud83d] that is not
    followed by its pair), and UTF-8 has no encoding for it.  In the byte
    strings used here such a code point is written as the three bytes that
    the [surrogatepass] handler gives it: [ED], then a byte from [A0] to
    [BF], then a continuation byte.  [has_surrogate s] tells whether [s]
    holds one, that is whether [s.encode("utf-8")] raises. *)
Definition surrogate_lead (c d : ascii) : bool :=
  (nat_of_ascii c =? 237)%nat
  && (160 <=? nat_of_ascii d)%nat && (nat_of_ascii d <=? 191)%nat.

Fixpoint has_surrogate (s : string) : bool :=
  match s with
  | EmptyString => false
  | String c rest =>
      match rest with
      | String d _ => surrogate_lead c d
      | EmptyString => false
      end
      || has_surrogate rest
  end.

(** The strings that [json.dumps(cache, ensure_ascii=False, indent=2)]
    takes from one entry of the cache can be encoded: its key and its two
    texts ([None] is written as [null]). *)
Definition entry_encodable (key : string) (c : cached) : bool :=
  negb (has_surrogate key)
  && negb (has_surrogate (default "" (cached_zh_title c)))
  && negb (has_surrogate (default "" (cached_zh_summary c))).

Definition encodable (cache : gmap string cached) : bool :=
  forallb (λ kc, entry_encodable kc.1 kc.2) (map_to_list cache).

(** The exception that encoding a surrogate raises.  [exn_msg] is the
    reason only; the message of Python also names the character and its
    position in the text. *)
Definition UnicodeEncodeError : exn :=
  Exn "UnicodeEncodeError" "surrogates not allowed".

(** [cache_path.write_text(json.dumps(cache, ensure_ascii=False,
    indent=2), encoding="utf-8")]: what the call comes to, and the file
    afterwards.  [write_text] opens the file for writing, which empties
    it, and then encodes the text; when that raises, nothing has been
    written and the file stays empty, which does not parse. *)
Definition write_cache (cache : gmap string cached)
    : (exn + unit) * option (gmap string cached) :=
  if encodable cache then (inr tt, Some cache)
  else (inl UnicodeEncodeError, None).

(** [key = a.get("link") or a.get("title")], [None] when the key is falsy
    and the article is skipped. *)
Definition article_key (a : article) : option string :=
  match Py.truthy (link a) with
  | Some k => Some k
  | None => Py.truthy (title a)
  end.


Section translation_cache.
Variable service : list request → request → reply.
Variable env : environ.

Local Open Scope monad_scope.

(** The body of [for a in articles], on the cache dict. *)
Definition resolve (cache : gmap string cached) (a : article)
    : M (article * gmap string cached) :=
  match article_key a with
  | None => ret (a, cache)
  | Some key =>
      match cache !! key with
      | Some c =>
          ret (set_zh a (cached_zh_title c) (cached_zh_summary c), cache)
      | None =>
          let* '(zh_title, zh_summary) :=
            translate_with_llm service env (default "" (title a))
              (description a) (source_name a) in
          ret (set_zh a (Some zh_title) (Some zh_summary),
               <[key := mkCached (Some zh_title) (Some zh_summary)]> cache)
      end
  end.

(** [for a in articles: ...]: the articles as the loop leaves them, and
    the cache dict. *)
Fixpoint translate_selected (cache : gmap string cached)
    (articles : list article) : M (list article * gmap string cached) :=
  match articles with
  | [] => ret ([], cache)
  | a :: rest =>
      let* '(a', cache) := resolve cache a in
      let* '(rest', cache) := translate_selected cache rest in
      ret (a' :: rest', cache)
  end.

(** [try: cache = json.loads(cache_path.read_text()) except Exception:
    cache = {}].  The file is [None] when it is missing or does not
    parse, and holds the dict it was written from otherwise. *)
Definition load_cache (file : option (gmap string cached))
    : gmap string cached :=
  default ∅ file.

(** Lines 306 to 327 of [create_blog_post]: load the cache, translate the
    selected articles, write the cache back.  The result is the articles,
    the cache file and the world afterwards; when the loop raises, the
    write is not reached.  This is the run whose write succeeds; the write
    that can raise is in [translate_and_write], which agrees with this
    function whenever it returns (lemma [translate_and_write_returns]). *)
Definition translate_and_persist (file : option (gmap string cached))
    (articles : list article) (w : world)
    : (exn + list article) * option (gmap string cached) * world :=
  match translate_selected (load_cache file) articles w with
  | (inr (articles', cache), w') => (inr articles', Some cache, w')
  | (inl e, w') => (inl e, file, w')
  end.

(** Lines 306 to 327 of [create_blog_post] with the write as
    [write_text] does it: when the text of the cache cannot be encoded,
    the exception leaves [create_blog_post] and the file is left empty. *)
Definition translate_and_write (file : option (gmap string cached))
    (articles : list article) (w : world)
    : (exn + list article) * option (gmap string cached) * world :=
  match translate_selected (load_cache file) articles w with
  | (inr (articles', cache), w') =>
      match write_cache cache with
      | (inr _, file') => (inr articles', file', w')
      | (inl e, file') => (inl e, file', w')
      end
  | (inl e, w') => (inl e, file, w')
  end.

End translation_cache.

(** ** Deduplication filter ([dedupe_articles]) *)

Definition LINK_MARKER : string := "[原文链接](".

(** The text up to the first [")"], and what follows it. *)
Fixpoint until_paren (s : string) : option (string * string) :=
  match s with
  | EmptyString => None
  | String c s' =>
      if Ascii.eqb c ")" then Some (EmptyString, s')
      else match until_paren s' with
           | Some (g, rest) => Some (String c g, rest)
           | None => None
           end
  end.

(** [s[n:]] *)
Fixpoint string_drop (n : nat) (s : string) : string :=
  match n, s with
  | O, _ => s
  | S n, String _ s' => string_drop n s'
  | S _, EmptyString => EmptyString
  end.

(** A match of the pattern at the start of [s]: the group and the text
    after the match.  The group is the longest run without [")"]; it must
    not be empty and a [")"] must follow. *)
Definition match_link (s : string) : option (string * string) :=
  if String.prefix LINK_MARKER s then
    match until_paren (string_drop (String.length LINK_MARKER) s) with
    | Some (EmptyString, _) => None
    | Some (g, rest) => Some (g, rest)
    | None => None
    end
  else None.

(** [re.findall] for the pattern of the source-link line: matches are
    searched left to right and do not overlap.  [fuel] bounds the
    positions tried. *)
Fixpoint find_links (fuel : nat) (s : string) : list string :=
  match fuel with
  | O => []
  | S fuel =>
      match match_link s with
      | Some (g, rest) => g :: find_links fuel rest
      | None =>
          match s with
          | EmptyString => []
          | String _ s' => find_links fuel s'
          end
      end
  end.

(** [re.findall(r'\[原文链接\]\(([^)]+)\)', content)] *)
Definition extract_links (content : string) : list string :=
  find_links (S (String.length content)) content.

Definition OverflowError : exn := Exn "OverflowError" "date value out of range".

(** Dates are days counted from 0001-01-01, which is day 1
    ([date.toordinal]); [datetime] has no earlier date. *)
Definition MIN_ORDINAL : Z := 1.

(** [base - timedelta(days=i)] *)
Definition minus_days (base i : Z) : exn + Z :=
  if base - i <? MIN_ORDINAL then inl OverflowError else inr (base - i).

(** The body of [for i in range(1, days + 1)], on [seen_links].  [posts]
    gives the text of the post file of a date, [None] when there is no
    such file. *)
Definition scan_day (posts : Z → option string) (base : Z)
    (seen_links : gset string) (i : Z) : exn + gset string :=
  match minus_days base i with
  | inl e => inl e
  | inr prev_date =>
      match posts prev_date with
      | Some content =>
          inr (seen_links ∪ list_to_set (extract_links content))
      | None => inr seen_links
      end
  end.

(** The loop over the offsets [is], from the state [seen_links]. *)
Fixpoint scan_days (posts : Z → option string) (base : Z)
    (seen_links : gset string) (offsets : list Z) : exn + gset string :=
  match offsets with
  | [] => inr seen_links
  | i :: rest =>
      match scan_day posts base seen_links i with
      | inl e => inl e
      | inr seen_links => scan_days posts base seen_links rest
      end
  end.

(** [range(1, days + 1)] *)
Definition day_offsets (days : Z) : list Z :=
  map (λ k, Z.of_nat k) (seq 1 (Z.to_nat days)).

(** [a.get("link") not in seen_links] *)
Definition link_unseen (seen_links : gset string) (a : article) : bool :=
  match link a with
  | Some l => bool_decide (l ∉ seen_links)
  | None => true
  end.

(** [dedupe_articles(articles, current_date, days)], with the current date
    given as the day number [base] that [strptime] parses it to. *)
Definition dedupe_articles (posts : Z → option string)
    (articles : list article) (base : Z) (days : Z) : exn + list article :=
  match scan_days posts base ∅ (day_offsets days) with
  | inl e => inl e
  | inr seen_links => inr (List.filter (link_unseen seen_links) articles)
  end.

(** The link [l] is extracted from the post of the date [i] days before
    [base]; a date without post has no links. *)
Definition links_of_day (posts : Z → option string) (base i : Z)
    (l : string) : Prop :=
  ∃ content, posts (base - i) = Some content ∧ l ∈ extract_links content.

(** The link [l] is in the union of the links of the [days] dates before
    [base]. *)
Definition published_before (posts : Z → option string) (base days : Z)
    (l : string) : Prop :=
  ∃ i, 1 ≤ i ≤ days ∧ links_of_day posts base i l.

(** The cache [c'] is reached from the cache [c]: by further rounds of the
    translation loop in the same run, or by later runs that load the cache
    file the run before wrote. *)
Inductive later_cache : gmap string cached → gmap string cached → Prop :=
  | later_now c : later_cache c c
  | later_same_run service env c articles w outs c' w' c'' :
      translate_selected service env c articles w = (inr (outs, c'), w') →
      later_cache c' c'' →
      later_cache c c''
  | later_next_run service env c articles w outs file' w' c'' :
      translate_and_persist service env (Some c) articles w
      = (outs, file', w') →
      later_cache (load_cache file') c'' →
      later_cache c c''.

(** The world after one more line on standard error. *)
Definition with_stderr (w : world) (line : string) : world :=
  {| calls := calls w; stderr := stderr w ++ [line] |}.

(** The pair of the template fallback for an article. *)
Definition fallback_pair (title : string) (source_name : option string)
    : string * string :=
  (title, fallback_summary (Py.or_else source_name DEFAULT_SOURCE)).

(** The backend that [translate_title_and_summary] calls. *)
Definition chosen_backend (env : environ) : backend :=
  if String.eqb (ANTHROPIC_API_KEY env) "" then OpenAI else Minimax.

(** The exception [translate_title_and_summary] raises when the call of
    the chosen backend raises [e]. *)
Definition propagated (env : environ) (e : exn) : exn :=
  if String.eqb (ANTHROPIC_API_KEY env) "" then e
  else Exn "RuntimeError" ("Minimax translation failed: " +:+ exn_msg e).

(** A backend that is down: every call raises. *)
Definition failing_service : list request → request → reply :=
  λ _ _, Failed (Exn "URLError" "timed out").

(** A backend that answers every call with the same pair. *)
Definition constant_service (t s : string) : list request → request → reply :=
  λ _ _, Replied t s.

(** The surrogate [U+D83D] on its own, as [json.loads] returns it for
    the escape [\ud83d]. *)
Definition LONE_SURROGATE : string :=
  String "237" (String "160" (String "189" EmptyString)).

(** A sample article with a link and a display name of its source. *)
Definition sample_linked (ttl url : string) : article :=
  {| title := Some ttl; link := Some url; description := None;
     comments := None; pub_date := None; source := Some "hackernews";
     source_name := Some "Hacker News"; zh_title := None;
     zh_summary := None |}.

(** Sample posts directory: one post, dated day 99, with two source links. *)
Definition sample_posts (date : Z) : option string :=
  if date =? 99 then
    Some ("### A" +:+ nl +:+ "📎 [原文链接](https://a.example/1)" +:+ nl
          +:+ "### B" +:+ nl +:+ "📎 [原文链接](https://b.example/2)" +:+ nl)
  else None.


(** ** Further definitions for the selector *)

(** The items the fill loop appends in [n] rounds from index [j]: the items
    at index [j] of the buckets that have one, in [order], then those at
    index [j + 1], and so on. *)
Fixpoint rounds (buckets : gmap string (list article))
    (order : list string) (j n : nat) : list article :=
  match n with
  | O => []
  | S n => round_items buckets order j ++ rounds buckets order (S j) n
  end.

(** The sequence the selector cuts its result from: the first-pass block,
    then the rounds of the fill loop. *)
Definition selection_sequence (articles : list article) (per_source : Z)
    (source_order : option (list string)) : list article :=
  let buckets := make_buckets articles in
  let order := effective_order source_order buckets in
  taken buckets order (Z.to_nat per_source)
  ++ rounds buckets order (Z.to_nat per_source) (length articles).

(** No bucket named in [order] has an item at index [j + n] or beyond. *)
Definition exhausted_by (buckets : gmap string (list article))
    (order : list string) (j n : nat) : Prop :=
  ∀ src, src ∈ order → (length (bucket_get buckets src) ≤ j + n)%nat.

(** An explicit source order names no source twice. *)
Definition order_nodup (source_order : option (list string)) : Prop :=
  match source_order with
  | Some order => NoDup order
  | None => True
  end.

(** ** Further definitions for the translation cache *)

(** The keys of the articles that have one. *)
Definition article_keys (articles : list article) : gset string :=
  list_to_set (omap article_key articles).

(** The request [translate_with_llm] sends for an article. *)
Definition article_request (env : environ) (a : article) : request :=
  mkRequest (chosen_backend env) (default "" (title a))
    (Some (Py.or_else (description a) "")) (source_name a).

(** What the loop does to one article: an article without key is left as
    it is; an article with a key keeps its other fields and gets the pair
    that the cache holds under the key. *)
Definition resolved_from (cache : gmap string cached) (a a' : article)
    : Prop :=
  match article_key a with
  | None => a' = a
  | Some k =>
      a' = set_zh a (zh_title a') (zh_summary a')
      ∧ cache !! k = Some (mkCached (zh_title a') (zh_summary a'))
  end.

(** ** Publication renderer ([create_post_content]) *)

(** [str(n)] for a number that is not negative. *)
Definition str_nat (n : nat) : string :=
  DecimalString.NilZero.string_of_uint (Nat.to_uint n).

(** [f"{n:02d}"] *)
Definition str_02d (n : nat) : string :=
  if (n <? 10)%nat then "0" +:+ str_nat n else str_nat n.

Definition KeyError (key : string) : exn :=
  Exn "KeyError" ("'" +:+ key +:+ "'").

Definition NameError_generate_summary : exn :=
  Exn "NameError" "name 'generate_summary' is not defined".

(** The [if]/[elif] chain over the lower-cased title in the first loop of
    [create_post_content]. *)
Definition topic_of (title_lower : string) : option string :=
  if Py.any_in ["ai"; "llm"; "gpt"; "claude"] title_lower then Some "AI"
  else if Py.any_in ["cloud"; "aws"; "kubernetes"; "docker"] title_lower
  then Some "云原生"
  else if Py.any_in ["rust"; "python"; "javascript"] title_lower
  then Some "编程语言"
  else if Py.any_in ["game"; "gaming"] title_lower then Some "游戏"
  else None.

Definition SUMMARY_CATEGORIES : list string :=
  [CAT_AI; CAT_DEV; CAT_INFRA; CAT_GAMES].

Definition FOOTER : string :=
  "*本文汇总自多个社区信息源，每日更新，涵盖 AI 应用、游戏技术、开发工具及科技行业动态。*".

(** The line that carries the link of an article. *)
Definition link_line (url : string) : string :=
  "📎 [原文链接](" +:+ url +:+ ")".

Section renderer.
(** [list(set(l))]: the distinct items of [l] in the order in which the
    set happens to iterate. *)
Variable set_order : list string → list string.
(** [datetime.now()]: its hour and minute. *)
Variables hour minute : nat.

Definition frontmatter (date : string) : list string :=
  [ "---";
    "title: " +:+ date +:+ " 科技圈新闻汇总";
    "date: " +:+ date +:+ " " +:+ str_02d hour +:+ ":" +:+ str_02d minute
      +:+ ":00";
    "tags: [AI, 游戏, 开发工具, 科技新闻]";
    "categories: [技术新闻]";
    "---";
    "" ].

(** The first loop: the categories present and the topics mentioned. *)
Definition categories_present (articles : list article) : gset string :=
  list_to_set (map (λ a, categorize (default "" (title a))) articles).

Definition topics_mentioned (articles : list article) : list string :=
  omap (λ a, topic_of (Py.lower (default "" (title a)))) articles.

Definition unique_topics (articles : list article) : list string :=
  take 3 (set_order (topics_mentioned articles)).

Definition unique_cats (articles : list article) : list string :=
  List.filter (λ c, bool_decide (c ∈ categories_present articles))
    SUMMARY_CATEGORIES.

Definition summary_parts (articles : list article) : list string :=
  [ "精选 " +:+ str_nat (length articles) +:+ " 条来自 Hacker News 的热门话题" ]
  ++ (match unique_topics articles with
      | [] => []
      | topics => [ "，涵盖 " +:+ String.concat "/" topics +:+ " 等主题" ]
      end)
  ++ (match unique_cats articles with
      | [] => []
      | [c0] => [ "，内容涉及 " +:+ c0 ]
      | c0 :: c1 :: _ => [ "，内容涉及 " +:+ c0; "及 " +:+ c1 ]
      end).

Definition summary_block (articles : list article) : list string :=
  [ "> 📰 **" +:+ String.concat "" (summary_parts articles) +:+ "**";
    ""; "---"; "" ].

(** [grouped[cat].append(article)] with [cat = categorize(article["title"])];
    a missing title or a category that is no key of [grouped] raises. *)
Definition group_add (grouped : gmap string (list article)) (a : article)
    : exn + gmap string (list article) :=
  match title a with
  | None => inl (KeyError "title")
  | Some t =>
      let cat := categorize t in
      match grouped !! cat with
      | Some items => inr (<[cat := items ++ [a]]> grouped)
      | None => inl (KeyError cat)
      end
  end.

Fixpoint group_articles (grouped : gmap string (list article))
    (articles : list article) : exn + gmap string (list article) :=
  match articles with
  | [] => inr grouped
  | a :: rest =>
      match group_add grouped a with
      | inl e => inl e
      | inr grouped => group_articles grouped rest
      end
  end.

(** [{cat: [] for cat in CATEGORIES}] *)
Definition empty_groups : gmap string (list article) :=
  list_to_map (map (λ cat, (cat, [])) CATEGORIES).

(** The lines of one item. *)
Definition render_item (with_images : bool) (item : article)
    : exn + list string :=
  match (match Py.truthy (zh_title item) with
         | Some t => inr t
         | None => match title item with
                   | Some t => inr t
                   | None => inl (KeyError "title")
                   end
         end) with
  | inl e => inl e
  | inr zh_title =>
      match Py.truthy (zh_summary item) with
      | None => inl NameError_generate_summary
      | Some zh_summary =>
          match link item with
          | None => inl (KeyError "link")
          | Some url =>
              inr ([ "### " +:+ zh_title; "" ]
                   ++ (if with_images
                       then [ "<!-- IMAGE: " +:+ url +:+ " -->"; "" ]
                       else [])
                   ++ [ zh_summary; "" ]
                   ++ (match Py.truthy (comments item) with
                       | Some c => [ "📎 [讨论区](" +:+ c +:+ ")"; "" ]
                       | None => []
                       end)
                   ++ [ link_line url; ""; "---"; "" ])
          end
      end
  end.

Fixpoint render_items (with_images : bool) (items : list article)
    : exn + list string :=
  match items with
  | [] => inr []
  | item :: rest =>
      match render_item with_images item with
      | inl e => inl e
      | inr lines =>
          match render_items with_images rest with
          | inl e => inl e
          | inr more => inr (lines ++ more)
          end
      end
  end.

(** [for category in CATEGORIES: ...] over the categories [cats]. *)
Fixpoint render_categories (with_images : bool)
    (grouped : gmap string (list article)) (cats : list string)
    : exn + list string :=
  match cats with
  | [] => inr []
  | category :: rest =>
      match grouped !! category with
      | None => inl (KeyError category)
      | Some [] => render_categories with_images grouped rest
      | Some items =>
          match render_items with_images items with
          | inl e => inl e
          | inr lines =>
              match render_categories with_images grouped rest with
              | inl e => inl e
              | inr more =>
                  inr ([ "## " +:+ category; "" ] ++ lines ++ more)
              end
          end
      end
  end.

(** [create_post_content(date, articles, with_images)]: the lines. *)
Definition post_lines (date : string) (articles : list article)
    (with_images : bool) : exn + list string :=
  match group_articles empty_groups articles with
  | inl e => inl e
  | inr grouped =>
      match render_categories with_images grouped CATEGORIES with
      | inl e => inl e
      | inr body =>
          inr (frontmatter date ++ summary_block articles ++ body
               ++ [ FOOTER; "" ])
      end
  end.

Definition create_post_content (date : string) (articles : list article)
    (with_images : bool) : exn + string :=
  match post_lines date articles with_images with
  | inl e => inl e
  | inr lines => inr (String.concat nl lines)
  end.

End renderer.

(** ** Further definitions for link extraction *)

(** [c in s] for a single character. *)
Fixpoint has_char (c : ascii) (s : string) : bool :=
  match s with
  | EmptyString => false
  | String d s' => Ascii.eqb c d || has_char c s'
  end.

(** A link that the pattern of [extract_links] can capture whole: it is
    not empty and has no closing parenthesis. *)
Definition good_link (u : string) : bool :=
  negb (String.eqb u "") && negb (has_char ")" u).

(** A text in which no match of the pattern can start, whatever follows
    it: every ["["] in it is followed, within the text, by a byte other
    than 229, the first byte of the marker's first character. *)
Fixpoint inert (s : string) : bool :=
  match s with
  | EmptyString => true
  | String c s' =>
      (if Ascii.eqb c "[" then
         match s' with
         | String d _ => negb (Ascii.eqb d "229")
         | EmptyString => false
         end
       else true)
      && inert s'
  end.

(** ** Further definitions for the renderer *)

(** The lines [ls] hold the link lines of the links [us], in this order,
    among lines in which no match of the link pattern can start. *)
Inductive lines_links : list string → list string → Prop :=
  | lines_nil : lines_links [] []
  | lines_inert l ls us :
      inert l = true → lines_links ls us → lines_links (l :: ls) us
  | lines_link u ls us :
      good_link u = true → lines_links ls us →
      lines_links (link_line u :: ls) (u :: us).

(** The texts of an article cannot be taken for a link line, and its link
    can be captured whole. *)
Definition well_formed_item (a : article) : bool :=
  inert (default "" (title a))
  && inert (default "" (zh_title a))
  && inert (default "" (zh_summary a))
  && inert (default "" (comments a))
  && match link a with
     | Some u => inert u && good_link u
     | None => true
     end.

(** The category under which an article is rendered. *)
Definition item_category (a : article) : string :=
  categorize (default "" (title a)).

(** The articles in the order in which the post lists them: category after
    category, in input order within a category. *)
Definition rendered_order (articles : list article) : list article :=
  flat_map (λ cat, filter (λ a, item_category a = cat) articles) CATEGORIES.

(** The iteration order of a set lists only members of the set. *)
Definition set_order_sound (set_order : list string → list string) : Prop :=
  ∀ l x, x ∈ set_order l → x ∈ l.

(** A sample article as the translation loop leaves it. *)
Definition sample_translated (ttl url zt zs : string) : article :=
  set_zh (sample_linked ttl url) (Some zt) (Some zs).

(** Two translated sample articles. *)
Definition sample_selection : list article :=
  [ sample_translated "Rust compiler news" "https://b.example/2"
      "编译器新闻" "摘要二";
    sample_translated "New LLM model released" "https://a.example/1"
      "新模型发布" "摘要一" ].

(** A set order for the samples: the items as they come. *)
Definition sample_set_order (l : list string) : list string := l.

(** The article has no translated summary: the field is absent or empty. *)
Definition lacks_summary (a : article) : Prop :=
  Py.truthy (zh_summary a) = None.

Global Instance lacks_summary_dec a : Decision (lacks_summary a).
Proof. unfold lacks_summary. apply _. Defined.

(** The article has all that the renderer reads without a default: a
    title, a link and a translated summary that is not empty. *)
Definition complete_item (a : article) : Prop :=
  title a ≠ None ∧ link a ≠ None ∧ ¬ lacks_summary a.

(** ** Command line ([main]) *)

(** What the user typed: the value of every option that was given, and
    for every flag whether it was given. *)
Record command_line := mkCommandLine {
  opt_date : option string;
  opt_count : option Z;
  opt_sources : option (list string);
  flag_with_images : bool;
  flag_no_images : bool;
  flag_no_dedupe : bool;
  flag_deploy : bool;
  flag_no_deploy : bool;
  opt_max_images : option Z;
  opt_limit : option Z
}.

(** The namespace that [parser.parse_args()] returns. *)
Record namespace := mkNamespace {
  ns_date : option string;
  ns_count : Z;
  ns_sources : option (list string);
  ns_with_images : bool;
  ns_no_images : bool;
  ns_no_dedupe : bool;
  ns_deploy : bool;
  ns_no_deploy : bool;
  ns_max_images : Z;
  ns_limit : Z
}.

(** [action="store_true"] with a default: the flag sets [True], its
    absence leaves the default. *)
Definition store_true (default_value given : bool) : bool :=
  if given then true else default_value.

Definition parse_args (cl : command_line) : namespace :=
  {| ns_date := opt_date cl;
     ns_count := default 15 (opt_count cl);
     ns_sources := opt_sources cl;
     ns_with_images := store_true true (flag_with_images cl);
     ns_no_images := store_true false (flag_no_images cl);
     ns_no_dedupe := store_true false (flag_no_dedupe cl);
     ns_deploy := store_true true (flag_deploy cl);
     ns_no_deploy := store_true false (flag_no_deploy cl);
     ns_max_images := default 15 (opt_max_images cl);
     ns_limit := default 10 (opt_limit cl) |}.

(** The keyword arguments of a call of [create_blog_post]. *)
Record post_call := mkPostCall {
  call_date : option string;
  call_count : Z;
  call_with_images : bool;
  call_dedupe : bool;
  call_sources : option (list string);
  call_max_images : Z;
  call_limit : Z
}.

(** What [main] does to the outside, in order. *)
Inductive action :=
  | CreateBlogPost (c : post_call)
  | Run (cmd : list string)
  | Print (line : string).

Definition DEPLOY_COMMANDS : list (list string) :=
  [ ["hexo"; "clean"]; ["hexo"; "g"]; ["hexo"; "d"] ].

(** The keyword arguments that [main] passes to [create_blog_post]. *)
Definition main_call (args : namespace) : post_call :=
  let with_images := ns_with_images args && negb (ns_no_images args) in
  {| call_date := ns_date args;
     call_count := ns_count args;
     call_with_images := with_images;
     call_dedupe := negb (ns_no_dedupe args);
     call_sources := ns_sources args;
     call_max_images := ns_max_images args;
     call_limit := ns_limit args |}.

Section main.
(** [create_blog_post] as [main] sees it: it returns or raises. *)
Variable blog_post : post_call → option exn.
(** [subprocess.run(cmd, cwd=BLOG_DIR, check=True)]: it returns or
    raises. *)
Variable run : list string → option exn.

(** The [subprocess.run] calls one after the other, up to the first that
    raises. *)
Fixpoint run_all (cmds : list (list string)) : option exn * list action :=
  match cmds with
  | [] => (None, [])
  | cmd :: rest =>
      match run cmd with
      | Some e => (Some e, [Run cmd])
      | None => let '(r, done) := run_all rest in (r, Run cmd :: done)
      end
  end.

(** [main()] after the parser is built: the exception it ends with, if
    any, and what it did.  [deploy] is computed as the source computes
    it; the test before the deployment reads [args.deploy]. *)
Definition main (cl : command_line) : option exn * list action :=
  let args := parse_args cl in
  let deploy := ns_deploy args && negb (ns_no_deploy args) in
  let c := main_call args in
  match blog_post c with
  | Some e => (Some e, [CreateBlogPost c])
  | None =>
      if ns_deploy args then
        match run_all DEPLOY_COMMANDS with
        | (Some e, done) => (Some e, CreateBlogPost c :: done)
        | (None, done) =>
            (None, CreateBlogPost c :: done ++ [Print "Deployed!"])
        end
      else (None, [CreateBlogPost c])
  end.

End main.

(** ** The Minimax response ([llm_translate.translate_title_and_summary]) *)

(** A block of the response's [content] list, read with [.get]. *)
Record block := mkBlock {
  block_type : option string;
  block_text : option string
}.

(** The loop over [content]: the text of the first block of type
    ["text"], [""] when that block has no text or there is no such
    block. *)
Fixpoint find_text_block (content : list block) : string :=
  match content with
  | [] => ""
  | b :: rest =>
      if bool_decide (block_type b = Some "text")
      then default "" (block_text b)
      else find_text_block rest
  end.

Definition ValueError_no_text_block : exn :=
  Exn "ValueError" "No text block in response".

Definition TITLE_MARK : string := "标题：".
Definition SUMMARY_MARK : string := "摘要：".
Definition BULLETS_MARK : string := "要点：".

(** [current_section]: [""], ["summary"] or ["bullets"]. *)
Inductive current_section := NoSection | InSummary | InBullets.

(** The variables of the loop over the lines. *)
Record parse_state := mkParseState {
  p_title : string;
  p_section : current_section;
  p_summary_parts : list string;
  p_bullet_parts : list string
}.

Definition parse_start : parse_state := mkParseState "" NoSection [] [].

(** [s.split('\n')] *)
Fixpoint split_lines (s : string) : list string :=
  match s with
  | EmptyString => [ "" ]
  | String c rest =>
      if Ascii.eqb c "010" then "" :: split_lines rest
      else match split_lines rest with
           | first :: others => String c first :: others
           | [] => [ String c "" ]
           end
  end.

(** The loop [while len(bullet_parts) < 3: bullet_parts.append(...)]. *)
Fixpoint pad_bullets (fuel : nat) (bullet_parts : list string) : list string :=
  match fuel with
  | O => bullet_parts
  | S fuel' =>
      if (length bullet_parts <? 3)%nat
      then pad_bullets fuel' (bullet_parts ++ [PLACEHOLDER])
      else bullet_parts
  end.

Section minimax_response.
(** [str.strip()] *)
Variable strip : string → string.

(** The body of the loop over the lines.  The three markers are three
    characters, nine bytes, each. *)
Definition parse_line (st : parse_state) (raw : string) : parse_state :=
  let line := strip raw in
  if String.prefix TITLE_MARK line then
    mkParseState (strip (string_drop 9 line)) (p_section st)
      (p_summary_parts st) (p_bullet_parts st)
  else if String.prefix SUMMARY_MARK line then
    mkParseState (p_title st) InSummary [ strip (string_drop 9 line) ]
      (p_bullet_parts st)
  else if String.prefix BULLETS_MARK line then
    mkParseState (p_title st) InBullets (p_summary_parts st)
      (p_bullet_parts st)
  else if String.prefix "- " line then
    match p_section st with
    | InBullets =>
        mkParseState (p_title st) (p_section st) (p_summary_parts st)
          (p_bullet_parts st ++ [ strip (string_drop 2 line) ])
    | InSummary =>
        mkParseState (p_title st) (p_section st)
          (p_summary_parts st ++ [ strip (string_drop 2 line) ])
          (p_bullet_parts st)
    | NoSection => st
    end
  else
    match p_section st with
    | InSummary =>
        if String.eqb line "" then st
        else mkParseState (p_title st) (p_section st)
               (p_summary_parts st ++ [ line ]) (p_bullet_parts st)
    | _ => st
    end.

(** From [text = text_block.strip()] to the [return]. *)
Definition parse_text (text_block : string) : string * string :=
  let text := strip text_block in
  let lines := split_lines text in
  let st := fold_left parse_line lines parse_start in
  let bullet_parts := pad_bullets 3 (p_bullet_parts st) in
  let zh_summary :=
    match p_summary_parts st with
    | [] => ""
    | parts => String.concat (nl +:+ nl) parts
    end in
  let zh_summary :=
    match bullet_parts with
    | [] => zh_summary
    | _ => zh_summary +:+ nl +:+ nl +:+ "要点：" +:+ nl
           +:+ String.concat nl (map (λ b, "- " +:+ b) bullet_parts)
    end in
  (p_title st, zh_summary).

(** The [try] block after [_post_json] has returned [out]:
    [content] is [out.get("content")]. *)
Definition parse_minimax (content : option (list block))
    : exn + (string * string) :=
  let text_block := find_text_block (default [] content) in
  if String.eqb text_block "" then inl ValueError_no_text_block
  else inr (parse_text text_block).

(** A backend whose Minimax replies are parsed from what [_post_json]
    returns or raises. *)
Definition parsed_service
    (post_json : list request → request → exn + option (list block))
    (openai : list request → request → reply)
    : list request → request → reply :=
  λ past rq,
    match req_backend rq with
    | Minimax =>
        match post_json past rq with
        | inl e => Failed e
        | inr content =>
            match parse_minimax content with
            | inl e => Failed e
            | inr (zh_title, zh_summary) => Replied zh_title zh_summary
            end
        end
    | OpenAI => openai past rq
    end.

End minimax_response.

(** The reply that the system prompt asks for. *)
Definition formatted_lines (zh_title summary : string) (bullets : list string)
    : list string :=
  [ TITLE_MARK +:+ zh_title; SUMMARY_MARK +:+ summary; BULLETS_MARK ]
  ++ map (λ b, "- " +:+ b) bullets.

(** No line feed in the string. *)
Fixpoint one_line (s : string) : bool :=
  match s with
  | EmptyString => true
  | String c rest => negb (Ascii.eqb c "010") && one_line rest
  end.

(** The line opens none of the three sections. *)
Definition unmarked (line : string) : bool :=
  negb (String.prefix TITLE_MARK line)
  && negb (String.prefix SUMMARY_MARK line)
  && negb (String.prefix BULLETS_MARK line).

(** [strip] leaves the string as it is. *)
Definition kept (strip : string → string) (s : string) : Prop := strip s = s.

(** A [strip] to evaluate the parser with: it removes spaces (only) at
    both ends. *)
Fixpoint lstrip_spaces (s : string) : string :=
  match s with
  | String " " rest => lstrip_spaces rest
  | _ => s
  end.

Fixpoint rstrip_spaces (s : string) : string :=
  match s with
  | EmptyString => EmptyString
  | String c rest =>
      match rstrip_spaces rest with
      | EmptyString => if Ascii.eqb c " " then EmptyString else String c ""
      | kept_rest => String c kept_rest
      end
  end.

Definition strip_spaces (s : string) : string :=
  rstrip_spaces (lstrip_spaces s).

(** ** From the fetched articles to the post ([create_blog_post]) *)

(** [sources or []] *)
Definition sources_or_nil (sources : option (list string)) : list string :=
  match sources with
  | Some (s :: rest) => s :: rest
  | _ => []
  end.

(** The window of [dedupe_articles] when [days] is not given. *)
Definition DEDUPE_DAYS : Z := 3.

(** The filter and the final selection: [dedupe_articles(articles, date)]
    when [dedupe] is set, then [pick_articles_balanced] with two articles
    per source and the given sources as order.  [base] is the day number
    of [date]. *)
Definition select_articles (posts : Z → option string)
    (fetched : list article) (base : Z) (dedupe : bool)
    (sources : option (list string)) (limit : Z) : outcome (list article) :=
  match (if dedupe then dedupe_articles posts fetched base DEDUPE_DAYS
         else inr fetched) with
  | inl e => Raise e
  | inr articles =>
      pick_articles_balanced articles limit 2 (Some (sources_or_nil sources))
  end.


Section blog_post.
Variable service : list request → request → reply.
Variable env : environ.
Variable set_order : list string → list string.
Variables hour minute : nat.


End blog_post.

(** ** Deduplication filter from the date string, with unreadable files *)

(** What [prev_file.exists()] and [prev_file.read_text(encoding="utf-8")]
    come to for the post of a date: there is no such file, the text of
    the file, or the exception that one of the two calls raises. *)
Inductive post_file :=
  | NoFile
  | FileText (content : string)
  | Unreadable (e : exn).

(** The posts that can be read, as [dedupe_articles] above takes them. *)
Definition readable (files : Z → post_file) : Z → option string :=
  λ date, match files date with
          | FileText content => Some content
          | NoFile | Unreadable _ => None
          end.

Section dedupe_articles_of_date.
(** [datetime.strptime(current_date, "%Y-%m-%d")]: the day number of the
    date, or the [ValueError] for a string that is no such date. *)
Variable strptime : string → exn + Z.
Variable files : Z → post_file.

(** The body of [for i in range(1, days + 1)]. *)
Definition scan_file (base : Z) (seen_links : gset string) (i : Z)
    : exn + gset string :=
  match minus_days base i with
  | inl e => inl e
  | inr prev_date =>
      match files prev_date with
      | NoFile => inr seen_links
      | FileText content =>
          inr (seen_links ∪ list_to_set (extract_links content))
      | Unreadable e => inl e
      end
  end.

Fixpoint scan_files (base : Z) (seen_links : gset string)
    (offsets : list Z) : exn + gset string :=
  match offsets with
  | [] => inr seen_links
  | i :: rest =>
      match scan_file base seen_links i with
      | inl e => inl e
      | inr seen_links => scan_files base seen_links rest
      end
  end.

(** [dedupe_articles(articles, current_date, days)] from the date as the
    caller gives it. *)
Definition dedupe_articles_of_date (articles : list article)
    (current_date : string) (days : Z) : exn + list article :=
  match strptime current_date with
  | inl e => inl e
  | inr base =>
      match scan_files base ∅ (day_offsets days) with
      | inl e => inl e
      | inr seen_links => inr (List.filter (link_unseen seen_links) articles)
      end
  end.

End dedupe_articles_of_date.

(** A [strptime] for the samples: it knows the third day of the calendar
    and the day of [sample_posts]' post and the day after. *)
Definition sample_strptime (date : string) : exn + Z :=
  if String.eqb date "0001-01-03" then inr 3
  else if String.eqb date "0001-04-09" then inr 99
  else if String.eqb date "0001-04-10" then inr 100
  else inl (Exn "ValueError"
              ("time data '" +:+ date
               +:+ "' does not match format '%Y-%m-%d'")).

(** Sample files: those of [sample_posts], and a file for day 98 that
    cannot be read. *)
Definition sample_files (date : Z) : post_file :=
  if date =? 98 then Unreadable (Exn "PermissionError" "Permission denied")
  else match sample_posts date with
       | Some content => FileText content
       | None => NoFile
       end.

(** * Properties *)

(** ** Category classifier *)

Section classifier_facts.

Lemma append_cons a s t : String a s +:+ t = String a (s +:+ t).
Proof. reflexivity. Qed.

Lemma prefix_spec k t :
  String.prefix k t = true ↔ ∃ post, t = k +:+ post.
Proof.
  revert t. induction k as [|a k IH]; intros t.
  - destruct t; simpl; split; eauto.
  - destruct t as [|b t]; simpl.
    + split; [discriminate | intros [post H]; discriminate].
    + destruct (ascii_dec a b) as [->|Hne].
      * rewrite IH. split; intros [post H]; exists post;
          rewrite append_cons in *; congruence.
      * split; [discriminate |].
        intros [post H]. rewrite append_cons in H. congruence.
Qed.

Lemma contains_nil k : Py.contains k "" = String.prefix k "".
Proof. unfold Py.contains. apply orb_false_r. Qed.

Lemma contains_cons k b t :
  Py.contains k (String b t)
  = String.prefix k (String b t) || Py.contains k t.
Proof. reflexivity. Qed.

Lemma contains_spec k t :
  Py.contains k t = true ↔ ∃ pre post, t = pre +:+ k +:+ post.
Proof.
  induction t as [|b t IH].
  - rewrite contains_nil, prefix_spec. split.
    + intros [post H]. exists "", post. done.
    + intros [pre [post H]]. destruct pre; [eauto | discriminate].
  - rewrite contains_cons, orb_true_iff, prefix_spec, IH. split.
    + intros [[post H] | [pre [post H]]].
      * exists "", post. done.
      * exists (String b pre), post. rewrite append_cons. by rewrite H.
    + intros [pre [post H]]. destruct pre as [|a pre].
      * left. eauto.
      * right. exists pre, post. rewrite append_cons in H. congruence.
Qed.

Lemma any_in_spec ks t : Py.any_in ks t = true ↔ matches ks t.
Proof.
  unfold Py.any_in, matches. rewrite existsb_exists. split.
  - intros [k [Hin Hc]]. apply contains_spec in Hc as [pre [post ->]].
    exists k, pre, post. split; [by apply list_elem_of_In | done].
  - intros [k [pre [post [Hin ->]]]]. exists k.
    split; [by apply list_elem_of_In | apply contains_spec; eauto].
Qed.

Lemma classify_table_first_match table d t :
  first_match table d t (classify_table table d t).
Proof.
  induction table as [|[c ks] rest IH]; simpl.
  - right. split; [done | intros c' ks' H; inversion H].
  - destruct (Py.any_in ks t) eqn:E.
    + left. exists 0%nat, ks. repeat split; [by apply any_in_spec | lia].
    + assert (¬ matches ks t) as Hno.
      { intros H. apply any_in_spec in H. congruence. }
      destruct IH as [(i & ks1 & Hl & Hm & Hbefore) | [Hd Hnone]].
      * left. exists (S i), ks1. repeat split; [done | done |].
        intros [|j] c' ks' Hj Hl'; simpl in Hl'.
        -- by simplify_eq.
        -- eapply Hbefore; [|done]. lia.
      * right. split; [done |]. intros c' ks' Hin.
        apply elem_of_cons in Hin as [Heq | Hin]; [by simplify_eq | eauto].
Qed.

Lemma first_match_unique table d t c1 c2 :
  first_match table d t c1 → first_match table d t c2 → c1 = c2.
Proof.
  intros [(i & ks1 & Hl1 & Hm1 & Hb1) | [-> Hn1]]
         [(j & ks2 & Hl2 & Hm2 & Hb2) | [-> Hn2]]; [| | |done].
  - destruct (Nat.lt_trichotomy i j) as [Hlt | [-> | Hlt]].
    + exfalso. by eapply Hb2.
    + congruence.
    + exfalso. by eapply Hb1.
  - exfalso. eapply Hn2; [|done]. by eapply list_elem_of_lookup_2.
  - exfalso. eapply Hn1; [|done]. by eapply list_elem_of_lookup_2.
Qed.

End classifier_facts.

(** C7. The classifier is a total function of the title alone.  Its value is
    one of the five categories; it is the category of the first entry, in the
    fixed order AI, games, development, infrastructure, whose keyword set has
    a member occurring in the lower-cased title, and the catch-all category
    when no keyword occurs; no other category satisfies that description.
    The empty title gets the catch-all, "New LLM model released" gets AI. *)
Theorem categorize_first_match_total (title : string) :
  categorize title ∈ CATEGORIES
  ∧ categorize title = classify_table keyword_table CAT_MISC (Py.lower title)
  ∧ (∀ c, first_match keyword_table CAT_MISC (Py.lower title) c
          ↔ c = categorize title)
  ∧ categorize "" = CAT_MISC
  ∧ categorize "New LLM model released" = CAT_AI.
Proof.
  assert (categorize title
          = classify_table keyword_table CAT_MISC (Py.lower title)) as Heq.
  { unfold categorize, keyword_table. cbn [classify_table].
    repeat (match goal with |- context [Py.any_in ?ks ?t] =>
              destruct (Py.any_in ks t) end; try reflexivity). }
  split; [|split; [exact Heq | split; [|split; reflexivity]]].
  - unfold categorize, CATEGORIES.
    repeat (match goal with |- context [Py.any_in ?ks ?t] =>
              destruct (Py.any_in ks t) end);
      rewrite !elem_of_cons; tauto.
  - intros c. split.
    + intros H. rewrite Heq.
      eapply first_match_unique; [exact H | apply classify_table_first_match].
    + intros ->. rewrite Heq. apply classify_table_first_match.
Qed.

(** ** Balanced selector *)

Section python_lists.
Context {A : Type}.
Implicit Types (l : list A) (k i : Z).

Lemma slice_to_nonneg l k : 0 ≤ k → Py.slice_to l k = take (Z.to_nat k) l.
Proof. intros H. unfold Py.slice_to. by rewrite (proj2 (Z.leb_le 0 k)). Qed.

Lemma slice_to_length_le l k :
  0 ≤ k → Py.len (Py.slice_to l k) ≤ k.
Proof.
  intros H. rewrite slice_to_nonneg by done. unfold Py.len.
  rewrite length_take. lia.
Qed.

Lemma slice_to_all l k : Py.len l ≤ k → Py.slice_to l k = l.
Proof.
  intros H. unfold Py.len in H. rewrite slice_to_nonneg by lia.
  apply take_ge. lia.
Qed.


Lemma index_nonneg l i : 0 ≤ i → Py.index l i = l !! Z.to_nat i.
Proof. intros H. unfold Py.index. by rewrite (proj2 (Z.leb_le 0 i)). Qed.


(** An index the guard [i < len(l)] lets through is served exactly when
    [-len(l) <= i]. *)
Lemma index_is_Some l i :
  i < Py.len l → (is_Some (Py.index l i) ↔ - Py.len l ≤ i).
Proof.
  unfold Py.index, Py.len. intros Hlt.
  destruct (Z.leb_spec 0 i) as [H0|H0].
  - rewrite lookup_lt_is_Some. lia.
  - destruct (Z.leb_spec 0 (Z.of_nat (length l) + i)) as [H1|H1].
    + rewrite lookup_lt_is_Some. lia.
    + split; [intros [x Hx]; discriminate | lia].
Qed.

End python_lists.

Section buckets.
Implicit Types (articles : list article) (src : string).
Implicit Types (m buckets : gmap string (list article)).

Lemma bucket_of_cons a articles src :
  bucket_of (a :: articles) src
  = if decide (bucket_key a = src) then a :: bucket_of articles src
    else bucket_of articles src.
Proof. unfold bucket_of. rewrite filter_cons. by case_decide. Qed.

Lemma foldl_bucket_add_lookup m articles src :
  foldl bucket_add m articles !! src
  = match bucket_of articles src with
    | [] => m !! src
    | b => Some (default [] (m !! src) ++ b)
    end.
Proof.
  revert m. induction articles as [|a articles IH]; intros m; [done|].
  cbn [foldl]. rewrite IH, bucket_of_cons. unfold bucket_add.
  case_decide as Hk.
  - subst src. rewrite lookup_insert_eq. cbn [default].
    destruct (bucket_of articles (bucket_key a)) eqn:E; [done|].
    unfold id. by rewrite <- app_assoc.
  - by rewrite lookup_insert_ne.
Qed.

(** The dict built by the grouping loop: a source is a key exactly when
    some article has it, and its bucket lists those articles in input
    order. *)
Lemma make_buckets_lookup articles src :
  make_buckets articles !! src
  = match bucket_of articles src with [] => None | b => Some b end.
Proof.
  unfold make_buckets. rewrite foldl_bucket_add_lookup, lookup_empty.
  by destruct (bucket_of articles src).
Qed.

Lemma make_buckets_Some articles src b :
  make_buckets articles !! src = Some b → b = bucket_of articles src.
Proof.
  rewrite make_buckets_lookup.
  destruct (bucket_of articles src); [discriminate | congruence].
Qed.

Lemma make_buckets_None articles src :
  make_buckets articles !! src = None → bucket_of articles src = [].
Proof.
  rewrite make_buckets_lookup.
  by destruct (bucket_of articles src).
Qed.

Lemma bucket_of_elem_of articles src a :
  a ∈ bucket_of articles src ↔ a ∈ articles ∧ bucket_key a = src.
Proof. unfold bucket_of. rewrite list_elem_of_filter. tauto. Qed.

Lemma bucket_of_length articles src :
  (length (bucket_of articles src) ≤ length articles)%nat.
Proof. apply length_filter. Qed.

Lemma elem_of_dom_make_buckets articles src :
  src ∈ dom (make_buckets articles) ↔ ∃ a, a ∈ articles ∧ bucket_key a = src.
Proof.
  rewrite elem_of_dom, make_buckets_lookup.
  destruct (bucket_of articles src) as [|a b] eqn:E; split.
  - intros [x Hx]. discriminate.
  - intros [a [Ha Hk]].
    assert (a ∈ bucket_of articles src) as Hin
      by by apply bucket_of_elem_of.
    rewrite E in Hin. inversion Hin.
  - intros _. exists a. apply bucket_of_elem_of. rewrite E. left.
  - eauto.
Qed.

(** [sorted(buckets.keys())] lists every key once, in increasing order. *)
Lemma sorted_keys_spec buckets :
  Sorted String.le (sorted_keys buckets)
  ∧ NoDup (sorted_keys buckets)
  ∧ ∀ src, src ∈ sorted_keys buckets ↔ src ∈ dom buckets.
Proof.
  unfold sorted_keys. split; [apply Sorted_merge_sort; apply _ | split].
  - rewrite merge_sort_Permutation. apply NoDup_elements.
  - intros src. rewrite merge_sort_Permutation. apply elem_of_elements.
Qed.

End buckets.

(** *** Loop invariants of the selector *)

Section selector_loops.
Variable buckets : gmap string (list article).
Variable limit : Z.
Implicit Types (order : list string) (picked : list article) (i : Z).

(** **** Every picked article comes out of a bucket named in [order] *)

Section elements.
Variable P : article → Prop.






End elements.

(** **** Every returned list is [picked[:limit]] *)

Lemma first_pass_Returned per_source order picked r :
  first_pass buckets limit per_source order picked = Returned r →
  cut_at_limit limit r.
Proof.
  revert picked. induction order as [|src rest IH]; intros picked.
  - discriminate.
  - cbn [first_pass]. destruct (limit <=? _).
    + intros [= <-]. by eexists.
    + apply IH.
Qed.

Lemma first_pass_not_Raised per_source order picked e :
  first_pass buckets limit per_source order picked ≠ Raised e.
Proof.
  revert picked. induction order as [|src rest IH]; intros picked.
  - discriminate.
  - cbn [first_pass]. destruct (limit <=? _); [discriminate | apply IH].
Qed.

Lemma fill_round_Returned i order picked progressed r :
  fill_round buckets limit i order picked progressed = Returned r →
  cut_at_limit limit r.
Proof.
  revert picked progressed.
  induction order as [|src rest IH]; intros picked progressed.
  - discriminate.
  - cbn [fill_round]. destruct (buckets !! src) as [b|]; [|apply IH].
    destruct (i <? Py.len b); [|apply IH].
    destruct (Py.index b i) as [x|]; [|discriminate].
    destruct (limit <=? _).
    + intros [= <-]. by eexists.
    + apply IH.
Qed.

Lemma fill_loop_Return fuel i order picked r :
  fill_loop fuel buckets limit order i picked = Return r → cut_at_limit limit r.
Proof.
  revert i picked. induction fuel as [|fuel IH]; intros i picked.
  - discriminate.
  - cbn [fill_loop]. destruct (Py.len picked <? limit).
    + destruct (fill_round buckets limit i order picked false)
        as [[p progressed]|r'|e] eqn:Er.
      * destruct progressed; [apply IH|]. intros [= <-]. by eexists.
      * intros [= <-]. by eapply fill_round_Returned.
      * discriminate.
    + intros [= <-]. by eexists.
Qed.

Lemma cut_at_limit_length r :
  0 ≤ limit → cut_at_limit limit r → Py.len r ≤ limit.
Proof. intros H [picked ->]. by apply slice_to_length_le. Qed.

(** **** An index that is not negative never raises *)

Lemma fill_round_not_Raised i order picked progressed e :
  0 ≤ i → fill_round buckets limit i order picked progressed ≠ Raised e.
Proof.
  intros Hi. revert picked progressed.
  induction order as [|src rest IH]; intros picked progressed.
  - discriminate.
  - cbn [fill_round]. destruct (buckets !! src) as [b|]; [|apply IH].
    destruct (Z.ltb_spec i (Py.len b)) as [Hlt|]; [|apply IH].
    destruct (Py.index b i) as [x|] eqn:Ex.
    + destruct (limit <=? _); [discriminate | apply IH].
    + exfalso. assert (is_Some (Py.index b i)) as [x Hx].
      { apply index_is_Some; [done | unfold Py.len; lia]. }
      congruence.
Qed.

Lemma fill_loop_not_Raise fuel i order picked e :
  0 ≤ i → fill_loop fuel buckets limit order i picked ≠ Raise e.
Proof.
  revert i picked. induction fuel as [|fuel IH]; intros i picked Hi.
  - discriminate.
  - cbn [fill_loop]. destruct (Py.len picked <? limit); [|discriminate].
    destruct (fill_round buckets limit i order picked false)
      as [[p progressed]|r'|e'] eqn:Er.
    + destruct progressed; [apply IH; lia | discriminate].
    + discriminate.
    + exfalso. by eapply fill_round_not_Raised.
Qed.

(** **** The only exception is [IndexError] *)

Lemma fill_round_Raised_IndexError i order picked progressed e :
  fill_round buckets limit i order picked progressed = Raised e →
  e = IndexError.
Proof.
  revert picked progressed.
  induction order as [|src rest IH]; intros picked progressed.
  - discriminate.
  - cbn [fill_round]. destruct (buckets !! src) as [b|]; [|apply IH].
    destruct (i <? Py.len b); [|apply IH].
    destruct (Py.index b i) as [x|]; [|by intros [= <-]].
    destruct (limit <=? _); [discriminate | apply IH].
Qed.

Lemma fill_loop_Raise_IndexError fuel i order picked e :
  fill_loop fuel buckets limit order i picked = Raise e → e = IndexError.
Proof.
  revert i picked. induction fuel as [|fuel IH]; intros i picked.
  - discriminate.
  - cbn [fill_loop]. destruct (Py.len picked <? limit); [|discriminate].
    destruct (fill_round buckets limit i order picked false)
      as [[p progressed]|r'|e'] eqn:Er.
    + destruct progressed; [apply IH | discriminate].
    + discriminate.
    + intros [= <-]. by eapply fill_round_Raised_IndexError.
Qed.

(** **** The [while] loop ends *)

(** [n] bounds the length of every bucket. *)
Variable n : nat.
Hypothesis buckets_short :
  ∀ src b, buckets !! src = Some b → (length b ≤ n)%nat.

(** A round that reports progress appended an item, so its index was a
    valid one for some bucket. *)
Lemma fill_round_progress i order picked progressed p :
  fill_round buckets limit i order picked progressed = Next (p, true) →
  progressed = true ∨ - Z.of_nat n ≤ i < Z.of_nat n.
Proof.
  revert picked progressed.
  induction order as [|src rest IH]; intros picked progressed.
  - intros [= _ ->]. by left.
  - cbn [fill_round]. destruct (buckets !! src) as [b|] eqn:Eb; [|apply IH].
    destruct (Z.ltb_spec i (Py.len b)) as [Hlt|]; [|apply IH].
    destruct (Py.index b i) as [x|] eqn:Ex; [|discriminate].
    destruct (limit <=? _); [discriminate|]. intros _. right.
    assert (- Py.len b ≤ i) by (apply index_is_Some; [done | by eexists]).
    apply buckets_short in Eb. unfold Py.len in *. lia.
Qed.

Lemma fill_loop_terminates fuel i order picked :
  (rounds_left n i ≤ fuel)%nat →
  fill_loop fuel buckets limit order i picked ≠ OutOfFuel.
Proof.
  revert i picked. induction fuel as [|fuel IH]; intros i picked Hfuel.
  - unfold rounds_left in Hfuel. lia.
  - cbn [fill_loop]. destruct (Py.len picked <? limit); [|discriminate].
    destruct (fill_round buckets limit i order picked false)
      as [[p progressed]|r'|e'] eqn:Er; [|discriminate..].
    destruct progressed; [|discriminate].
    apply fill_round_progress in Er as [|Hi]; [discriminate|].
    apply IH. unfold rounds_left in *.
    destruct (Z.ltb_spec i (- Z.of_nat n)); [lia|].
    destruct (Z.ltb_spec (i + 1) (- Z.of_nat n)); lia.
Qed.

Lemma rounds_left_le i : (rounds_left n i ≤ S (S (2 * n)))%nat.
Proof.
  unfold rounds_left. destruct (Z.ltb_spec i (- Z.of_nat n)); lia.
Qed.

(** More fuel than needed changes nothing. *)
Lemma fill_loop_fuel_mono fuel fuel' i order picked :
  (fuel ≤ fuel')%nat →
  fill_loop fuel buckets limit order i picked ≠ OutOfFuel →
  fill_loop fuel' buckets limit order i picked
  = fill_loop fuel buckets limit order i picked.
Proof.
  revert fuel' i picked.
  induction fuel as [|fuel IH]; intros fuel' i picked Hle; [done|].
  destruct fuel' as [|fuel']; [lia|]. cbn [fill_loop].
  destruct (Py.len picked <? limit); [|done].
  destruct (fill_round buckets limit i order picked false)
    as [[p progressed]|r'|e']; [|done..].
  destruct progressed; [|done]. apply IH. lia.
Qed.

End selector_loops.

(** *** When nothing stops the selector early it takes every bucket whole *)

Section selector_complete.
Variable buckets : gmap string (list article).
Variable limit : Z.
Implicit Types (order : list string) (picked : list article) (j : nat).

Lemma len_app {A} (l1 l2 : list A) :
  Py.len (l1 ++ l2) = Py.len l1 + Py.len l2.
Proof. unfold Py.len. rewrite length_app. lia. Qed.

Lemma bucket_get_Some src b :
  buckets !! src = Some b → bucket_get buckets src = b.
Proof. unfold bucket_get. by intros ->. Qed.

Lemma bucket_get_None src :
  buckets !! src = None → bucket_get buckets src = [].
Proof. unfold bucket_get. by intros ->. Qed.

Lemma taken_cons src order j :
  taken buckets (src :: order) j
  = take j (bucket_get buckets src) ++ taken buckets order j.
Proof. reflexivity. Qed.

Lemma round_items_cons src order j :
  round_items buckets (src :: order) j
  = option_list (bucket_get buckets src !! j) ++ round_items buckets order j.
Proof. reflexivity. Qed.

Lemma taken_all_cons src order :
  taken_all buckets (src :: order)
  = bucket_get buckets src ++ taken_all buckets order.
Proof. reflexivity. Qed.

Lemma first_pass_all per_source order picked :
  0 ≤ per_source →
  Py.len picked + Py.len (taken buckets order (Z.to_nat per_source)) < limit →
  first_pass buckets limit per_source order picked
  = Next (picked ++ taken buckets order (Z.to_nat per_source)).
Proof.
  intros Hp. revert picked.
  induction order as [|src rest IH]; intros picked Hlen.
  - cbn. by rewrite app_nil_r.
  - cbn [first_pass]. rewrite taken_cons, len_app in Hlen.
    rewrite taken_cons.
    destruct (buckets !! src) as [b|] eqn:Eb.
    + rewrite (bucket_get_Some _ _ Eb) in *.
      rewrite slice_to_nonneg by done.
      destruct (Z.leb_spec limit (Py.len (picked ++ take (Z.to_nat per_source) b)))
        as [Hge|Hlt].
      * rewrite len_app in Hge. unfold Py.len in *. lia.
      * rewrite IH, app_assoc; [done|]. rewrite len_app. lia.
    + rewrite (bucket_get_None _ Eb) in *. rewrite take_nil in *.
      destruct (Z.leb_spec limit (Py.len picked)) as [Hge|Hlt].
      * unfold Py.len in *. cbn in Hlen. lia.
      * by rewrite IH.
Qed.

Lemma fill_round_all j order picked progressed :
  Py.len picked + Py.len (round_items buckets order j) < limit →
  fill_round buckets limit (Z.of_nat j) order picked progressed
  = Next (picked ++ round_items buckets order j,
          progressed || bool_decide (round_items buckets order j ≠ [])).
Proof.
  revert picked progressed.
  induction order as [|src rest IH]; intros picked progressed Hlen.
  - cbn. by rewrite app_nil_r, orb_false_r.
  - cbn [fill_round]. rewrite round_items_cons, len_app in Hlen.
    rewrite round_items_cons.
    destruct (buckets !! src) as [b|] eqn:Eb.
    + rewrite (bucket_get_Some _ _ Eb) in *.
      destruct (Z.ltb_spec (Z.of_nat j) (Py.len b)) as [Hlt|Hge].
      * rewrite index_nonneg, Nat2Z.id by lia.
        destruct (b !! j) as [x|] eqn:Ex.
        2:{ apply lookup_ge_None in Ex. unfold Py.len in Hlt. lia. }
        change (option_list (Some x)) with [x] in *.
        destruct (Z.leb_spec limit (Py.len (picked ++ [x]))) as [Hge|Hlt'].
        -- rewrite len_app in Hge. unfold Py.len in *.
           cbn [length] in *. lia.
        -- rewrite IH.
           ++ rewrite <- app_assoc. cbn [app orb].
              rewrite (bool_decide_eq_true_2 (x :: _ ≠ [])) by done.
              by rewrite orb_true_r.
           ++ rewrite len_app. unfold Py.len in *. cbn [length] in *. lia.
      * assert (b !! j = None) as Hnone.
        { apply lookup_ge_None. unfold Py.len in Hge. lia. }
        rewrite Hnone in *.
        change (option_list None) with (@nil article) in *.
        cbn [app]. apply IH. unfold Py.len in *. cbn [length] in *. lia.
    + rewrite (bucket_get_None _ Eb) in *. rewrite lookup_nil in *.
      change (option_list None) with (@nil article) in *.
      cbn [app]. apply IH. unfold Py.len in *. cbn [length] in *. lia.
Qed.

Lemma taken_S order j :
  taken buckets order (S j)
  ≡ₚ taken buckets order j ++ round_items buckets order j.
Proof.
  induction order as [|src rest IH]; [done|].
  rewrite !taken_cons, round_items_cons, IH.
  destruct (bucket_get buckets src !! j) as [x|] eqn:Ex.
  - rewrite (take_S_r _ _ _ Ex). change (option_list (Some x)) with [x].
    solve_Permutation.
  - apply lookup_ge_None in Ex. rewrite !take_ge by lia.
    change (option_list None) with (@nil article). solve_Permutation.
Qed.

Lemma taken_length order j :
  (length (taken buckets order j) ≤ length (taken_all buckets order))%nat.
Proof.
  induction order as [|src rest IH]; [done|].
  rewrite taken_cons, taken_all_cons, !length_app, length_take. lia.
Qed.

Lemma round_items_nil order j :
  round_items buckets order j = [] →
  taken buckets order j = taken_all buckets order.
Proof.
  induction order as [|src rest IH]; [done|].
  rewrite taken_cons, taken_all_cons, round_items_cons.
  intros [H1 H2]%app_eq_nil. rewrite IH by done. f_equal.
  destruct (bucket_get buckets src !! j) eqn:Ex; [discriminate|].
  apply lookup_ge_None in Ex. by rewrite take_ge by lia.
Qed.

Lemma fill_loop_all fuel j order picked :
  picked ≡ₚ taken buckets order j →
  Py.len (taken_all buckets order) < limit →
  fill_loop fuel buckets limit order (Z.of_nat j) picked = OutOfFuel
  ∨ ∃ r, fill_loop fuel buckets limit order (Z.of_nat j) picked = Return r
         ∧ r ≡ₚ taken_all buckets order.
Proof.
  intros Hp Hall. revert j picked Hp.
  induction fuel as [|fuel IH]; intros j picked Hp; [by left|].
  cbn [fill_loop].
  assert (Py.len picked + Py.len (round_items buckets order j) < limit)
    as Hroom.
  { rewrite <- len_app. unfold Py.len in *.
    rewrite Hp, <- taken_S. pose proof (taken_length order (S j)). lia. }
  assert (Py.len picked < limit) as Hlt by (unfold Py.len in *; lia).
  rewrite (proj2 (Z.ltb_lt _ _) Hlt), fill_round_all by done.
  cbn [orb]. case_bool_decide as Hri.
  - replace (Z.of_nat j + 1) with (Z.of_nat (S j)) by lia.
    apply IH. by rewrite Hp, taken_S.
  - right. eexists. split; [done|].
    rewrite Hri, app_nil_r, slice_to_all by lia.
    by rewrite Hp, (round_items_nil _ _ Hri).
Qed.

End selector_complete.

Section buckets_partition.

Lemma flat_map_ext_elem_of {A B} (f g : A → list B) (l : list A) :
  (∀ x, x ∈ l → f x = g x) → flat_map f l = flat_map g l.
Proof.
  induction l as [|x l IH]; intros H; [done|]. cbn [flat_map].
  rewrite (H x) by left. f_equal. apply IH. intros y Hy. apply H. by right.
Qed.

Lemma bucket_get_make_buckets articles src :
  bucket_get (make_buckets articles) src = bucket_of articles src.
Proof.
  unfold bucket_get. rewrite make_buckets_lookup.
  by destruct (bucket_of articles src).
Qed.

(** Buckets taken in an order that names every source once partition the
    input. *)
Lemma filter_none {A} (P : A → Prop) `{!∀ x, Decision (P x)} (l : list A) :
  (∀ x, x ∈ l → ¬ P x) → filter P l = [].
Proof.
  induction l as [|x l IH]; intros Hno; [done|].
  rewrite filter_cons_False by (apply Hno; left).
  apply IH. intros y Hy. apply Hno. by right.
Qed.

Lemma filter_iff_elem_of {A} (P1 P2 : A → Prop)
    `{!∀ x, Decision (P1 x), !∀ x, Decision (P2 x)} (l : list A) :
  (∀ x, x ∈ l → P1 x ↔ P2 x) → filter P1 l = filter P2 l.
Proof.
  induction l as [|x l IH]; intros Hiff; [done|].
  assert (filter P1 l = filter P2 l) as Hrest
    by (apply IH; intros y Hy; apply Hiff; by right).
  destruct (decide (P1 x)) as [H1|H1].
  - rewrite !filter_cons_True, Hrest; [done | | done].
    apply (Hiff x); [left | done].
  - rewrite !filter_cons_False, Hrest; [done | | done].
    intros H2. apply H1, (Hiff x); [left | done].
Qed.

Lemma filter_eq_NoDup (order : list string) (src : string) :
  NoDup order → src ∈ order →
  length (filter (λ s, s = src) order) = 1%nat.
Proof.
  induction 1 as [|s order Hs Hnd IH]; [by intros ?%elem_of_nil|].
  intros Hin. destruct (decide (s = src)) as [->|Hne].
  - rewrite filter_cons_True by done. cbn [length]. f_equal.
    apply length_zero_iff_nil, filter_none.
    intros s' Hs' ->. done.
  - rewrite filter_cons_False by done. apply IH.
    apply elem_of_cons in Hin as [?|?]; [congruence | done].
Qed.

Lemma covers_once_NoDup order articles :
  NoDup order → (∀ a, a ∈ articles → bucket_key a ∈ order) →
  covers_once order articles.
Proof.
  intros Hnd Hcov. apply Forall_forall. intros a Ha.
  by apply filter_eq_NoDup, Hcov.
Qed.

Lemma flat_map_bucket_of order articles :
  covers_once order articles →
  flat_map (bucket_of articles) order ≡ₚ articles.
Proof.
  unfold covers_once. revert articles.
  induction order as [|src rest IH]; intros articles Hcov.
  - destruct articles as [|a articles]; [done|].
    apply Forall_cons in Hcov as [Ha _]. discriminate Ha.
  - cbn [flat_map].
    set (others := filter (λ a, ¬ bucket_key a = src) articles).
    assert (flat_map (bucket_of articles) rest
            = flat_map (bucket_of others) rest) as ->.
    { apply flat_map_ext_elem_of. intros s Hs.
      unfold bucket_of, others. rewrite list_filter_filter.
      apply filter_iff_elem_of. intros a Ha. split; [|tauto].
      intros Hb. split; [done|]. intros Hsrc.
      rewrite Forall_forall in Hcov. specialize (Hcov a Ha).
      rewrite Hsrc, filter_cons_True in Hcov by done.
      cbn [length] in Hcov. injection Hcov as Hcov.
      apply length_zero_iff_nil in Hcov.
      assert (s ∈ filter (λ s', s' = src) rest) as Hin
        by (apply list_elem_of_filter; split; [congruence | done]).
      rewrite Hcov in Hin. by apply elem_of_nil in Hin. }
    rewrite IH.
    + apply filter_app_complement.
    + apply Forall_forall. intros a [Hne Ha]%list_elem_of_filter.
      rewrite Forall_forall in Hcov. specialize (Hcov a Ha).
      by rewrite filter_cons_False in Hcov by congruence.
Qed.

Lemma taken_all_make_buckets order articles :
  covers_once order articles →
  taken_all (make_buckets articles) order ≡ₚ articles.
Proof.
  intros H. unfold taken_all.
  rewrite (flat_map_ext_elem_of _ (bucket_of articles)).
  - by apply flat_map_bucket_of.
  - intros src _. apply bucket_get_make_buckets.
Qed.

(** The order that is used is complete whenever [order_complete] holds. *)
Lemma effective_order_covers source_order articles :
  order_complete source_order articles →
  covers_once (effective_order source_order (make_buckets articles))
    articles.
Proof.
  assert (covers_once (sorted_keys (make_buckets articles)) articles)
    as Hsorted.
  { destruct (sorted_keys_spec (make_buckets articles)) as (_ & Hnd & Hin).
    apply covers_once_NoDup; [done|].
    intros a Ha. apply Hin, elem_of_dom_make_buckets. eauto. }
  destruct source_order as [[|src rest]|]; done.
Qed.

Lemma make_buckets_short articles src b :
  make_buckets articles !! src = Some b →
  (length b ≤ length articles)%nat.
Proof. intros ->%make_buckets_Some. apply bucket_of_length. Qed.

End buckets_partition.

(** *** The selector as a whole *)

Section selector_facts.
Implicit Types (articles : list article) (limit per_source : Z).
Implicit Types (source_order : option (list string)).

(** The bound on rounds is enough: the [while] loop always ends. *)
Lemma pick_articles_balanced_not_OutOfFuel
    articles limit per_source source_order :
  pick_articles_balanced articles limit per_source source_order ≠ OutOfFuel.
Proof.
  unfold pick_articles_balanced, pick_articles_balanced_fuel, rounds_bound.
  destruct (first_pass _ _ _ _ _); [|discriminate..].
  apply (fill_loop_terminates _ _ (length articles)).
  - apply make_buckets_short.
  - apply rounds_left_le.
Qed.

(** Any larger bound gives the same result. *)
Lemma pick_articles_balanced_fuel_enough
    fuel articles limit per_source source_order :
  (rounds_bound articles ≤ fuel)%nat →
  pick_articles_balanced_fuel fuel articles limit per_source source_order
  = pick_articles_balanced articles limit per_source source_order.
Proof.
  intros Hfuel.
  pose proof (pick_articles_balanced_not_OutOfFuel
                articles limit per_source source_order) as Hend.
  unfold pick_articles_balanced, pick_articles_balanced_fuel in *.
  destruct (first_pass _ _ _ _ _); [|done..].
  by apply fill_loop_fuel_mono.
Qed.

Lemma pick_articles_balanced_Return_cut
    articles limit per_source source_order r :
  pick_articles_balanced articles limit per_source source_order = Return r →
  cut_at_limit limit r.
Proof.
  unfold pick_articles_balanced, pick_articles_balanced_fuel.
  destruct (first_pass _ _ _ _ _) as [p|r'|e] eqn:E1.
  - apply fill_loop_Return.
  - intros [= <-]. by eapply first_pass_Returned.
  - discriminate.
Qed.


End selector_facts.

(** C2, as amended.  When the candidates are fewer than [limit], [per_source]
    is not negative, and the source order is absent or empty or else names
    every observed source exactly once, the selector returns a list that
    holds every candidate exactly once: a permutation of the input. *)
Theorem pick_articles_balanced_returns_all
    (articles : list article) (limit per_source : Z)
    (source_order : option (list string)) :
  Py.len articles < limit →
  0 ≤ per_source →
  order_complete source_order articles →
  ∃ r, pick_articles_balanced articles limit per_source source_order = Return r
       ∧ r ≡ₚ articles.
Proof.
  intros Hlimit Hper Horder.
  pose proof (pick_articles_balanced_not_OutOfFuel
                articles limit per_source source_order) as Hend.
  apply effective_order_covers, taken_all_make_buckets in Horder.
  unfold pick_articles_balanced, pick_articles_balanced_fuel in *.
  set (buckets := make_buckets articles) in *.
  set (order := effective_order source_order buckets) in *.
  assert (Py.len (taken_all buckets order) < limit) as Hall.
  { unfold Py.len in *. by rewrite Horder. }
  assert (first_pass buckets limit per_source order []
          = Next (taken buckets order (Z.to_nat per_source))) as Hfirst.
  { apply (first_pass_all buckets limit per_source order []); [done|].
    pose proof (taken_length buckets order (Z.to_nat per_source)).
    unfold Py.len in *. cbn [length]. lia. }
  rewrite Hfirst in *.
  remember (Z.to_nat per_source) as j eqn:Hj.
  assert (per_source = Z.of_nat j) as -> by lia.
  destruct (fill_loop_all buckets limit (rounds_bound articles) j order
              (taken buckets order j))
    as [Hout | (r & Hr & Hperm)]; [done | done | done |].
  exists r. split; [done|]. by rewrite Hperm.
Qed.

Lemma pick_articles_balanced_returns_all_witness :
  ∃ r, pick_articles_balanced
         [sample_article "s2" "b0"; sample_article "s1" "a0";
          sample_article "s1" "a1"; sample_article "s1" "a2"]
         10 1 (Some ["s1"; "zz"; "s2"; "zz"]) = Return r
       ∧ r ≡ₚ [sample_article "s2" "b0"; sample_article "s1" "a0";
               sample_article "s1" "a1"; sample_article "s1" "a2"].
Proof.
  apply pick_articles_balanced_returns_all.
  - reflexivity.
  - discriminate.
  - apply (bool_decide_unpack _). by vm_compute.
Defined.

(** An explicit order that misses a source loses that source's candidates,
    although they are fewer than [limit]. *)
Lemma pick_articles_balanced_unlisted_source_lost :
  Py.len [sample_article "s2" "b0"] < 5
  ∧ pick_articles_balanced [sample_article "s2" "b0"] 5 2 (Some ["s1"])
    = Return []
  ∧ ¬ ∃ r, pick_articles_balanced [sample_article "s2" "b0"] 5 2 (Some ["s1"])
           = Return r ∧ r ≡ₚ [sample_article "s2" "b0"].
Proof.
  split; [reflexivity|]. split; [by vm_compute|].
  intros (r & Hr & Hperm). vm_compute in Hr. injection Hr as <-.
  by apply Permutation_nil_cons in Hperm.
Qed.

(** An explicit order that names a source twice takes its first articles
    twice. *)
Example pick_articles_balanced_repeated_source :
  pick_articles_balanced [sample_article "s1" "a0"] 5 2 (Some ["s1"; "s1"])
  = Return [sample_article "s1" "a0"; sample_article "s1" "a0"].
Proof. by vm_compute. Qed.

(** A negative [per_source] makes the fill loop start at a negative index:
    articles are taken twice, or the index is out of range. *)
Example pick_articles_balanced_negative_per_source :
  pick_articles_balanced
    [sample_article "s1" "a0"; sample_article "s1" "a1"] 5 (-1) None
  = Return [sample_article "s1" "a0"; sample_article "s1" "a1";
            sample_article "s1" "a0"; sample_article "s1" "a1"]
  ∧ pick_articles_balanced
      [sample_article "s1" "a0"; sample_article "s1" "a1"] 5 (-3) None
    = Raise IndexError.
Proof. split; by vm_compute. Qed.

(** *** The selector reads [buckets] only at the sources of [order] *)

Section selector_frame.
Variables b1 b2 : gmap string (list article).
Variable limit : Z.

Lemma agree_on_cons src order :
  agree_on b1 b2 (src :: order) → b1 !! src = b2 !! src ∧ agree_on b1 b2 order.
Proof.
  intros H. split; [apply H; left | intros s Hs; apply H; by right].
Qed.

Lemma first_pass_ext per_source order picked :
  agree_on b1 b2 order →
  first_pass b1 limit per_source order picked
  = first_pass b2 limit per_source order picked.
Proof.
  revert picked. induction order as [|src rest IH]; intros picked H; [done|].
  apply agree_on_cons in H as [Hsrc Hrest]. cbn [first_pass].
  rewrite Hsrc. destruct (limit <=? _); [done|]. by apply IH.
Qed.

Lemma fill_round_ext i order picked progressed :
  agree_on b1 b2 order →
  fill_round b1 limit i order picked progressed
  = fill_round b2 limit i order picked progressed.
Proof.
  revert picked progressed.
  induction order as [|src rest IH]; intros picked progressed H; [done|].
  apply agree_on_cons in H as [Hsrc Hrest]. cbn [fill_round].
  rewrite Hsrc. destruct (b2 !! src) as [b|]; [|by apply IH].
  destruct (i <? Py.len b); [|by apply IH].
  destruct (Py.index b i); [|done].
  destruct (limit <=? _); [done|]. by apply IH.
Qed.

Lemma fill_loop_ext fuel i order picked :
  agree_on b1 b2 order →
  fill_loop fuel b1 limit order i picked
  = fill_loop fuel b2 limit order i picked.
Proof.
  intros H. revert i picked.
  induction fuel as [|fuel IH]; intros i picked; [done|].
  cbn [fill_loop]. rewrite fill_round_ext by done.
  destruct (Py.len picked <? limit); [|done].
  destruct (fill_round b2 limit i order picked false)
    as [[p progressed]|r|e]; [|done..].
  destruct progressed; [apply IH | done].
Qed.

End selector_frame.

(** C3.  With the explicit order s1, s2, five articles of source s1 and one
    of source s2 (in any interleaving, among articles of any other sources),
    [per_source = 2] and [limit = 4], the selector returns the first two
    articles of s1, the article of s2, then the third article of s1. *)
Theorem pick_articles_balanced_s1_s2
    (articles : list article) (a0 a1 a2 a3 a4 b0 : article) :
  bucket_of articles "s1" = [a0; a1; a2; a3; a4] →
  bucket_of articles "s2" = [b0] →
  pick_articles_balanced articles 4 2 (Some ["s1"; "s2"])
  = Return [a0; a1; b0; a2].
Proof.
  intros H1 H2.
  set (m := ({[ "s1" := [a0; a1; a2; a3; a4]; "s2" := [b0] ]}
             : gmap string (list article))).
  assert (agree_on (make_buckets articles) m ["s1"; "s2"]) as Hagree.
  { intros src Hsrc. rewrite make_buckets_lookup.
    apply elem_of_cons in Hsrc as [->|Hsrc].
    - by rewrite H1.
    - apply list_elem_of_singleton in Hsrc as ->. by rewrite H2. }
  unfold pick_articles_balanced, pick_articles_balanced_fuel, rounds_bound.
  cbn [effective_order]. rewrite (first_pass_ext _ m) by done.
  destruct (first_pass m 4 2 ["s1"; "s2"] []) as [p|r|e] eqn:E;
    vm_compute in E; [|discriminate..].
  injection E as <-. rewrite (fill_loop_ext _ m) by done.
  by vm_compute.
Qed.

Lemma pick_articles_balanced_s1_s2_witness :
  pick_articles_balanced
    [sample_article "s1" "a0"; sample_article "s2" "b0";
     sample_article "s1" "a1"; sample_article "s1" "a2";
     sample_article "s3" "c0"; sample_article "s1" "a3";
     sample_article "s1" "a4"]
    4 2 (Some ["s1"; "s2"])
  = Return [sample_article "s1" "a0"; sample_article "s1" "a1";
            sample_article "s2" "b0"; sample_article "s1" "a2"].
Proof.
  apply (pick_articles_balanced_s1_s2 _ _ _ _
           (sample_article "s1" "a3") (sample_article "s1" "a4"));
    reflexivity.
Defined.



(** C10, as amended.  The selector ends on every input: the bound on the
    rounds of its fill loop is never reached, and a larger bound gives the
    same outcome.  When [limit] is not negative a returned list has at most
    [limit] articles.  When [per_source] is not negative the selector
    returns a list; the only exception it can raise is the [IndexError] of
    a fill loop started at a negative index. *)
Theorem pick_articles_balanced_terminates
    (articles : list article) (limit per_source : Z)
    (source_order : option (list string)) :
  pick_articles_balanced articles limit per_source source_order ≠ OutOfFuel
  ∧ (∀ fuel, (rounds_bound articles ≤ fuel)%nat →
       pick_articles_balanced_fuel fuel articles limit per_source source_order
       = pick_articles_balanced articles limit per_source source_order)
  ∧ (0 ≤ limit → ∀ r,
       pick_articles_balanced articles limit per_source source_order
       = Return r →
       Py.len r ≤ limit)
  ∧ (0 ≤ per_source → ∃ r,
       pick_articles_balanced articles limit per_source source_order
       = Return r)
  ∧ (∀ e, pick_articles_balanced articles limit per_source source_order
          = Raise e →
          e = IndexError ∧ per_source < 0).
Proof.
  pose proof (pick_articles_balanced_not_OutOfFuel
                articles limit per_source source_order) as Hend.
  assert (∀ e, pick_articles_balanced articles limit per_source source_order
               = Raise e → per_source < 0) as Hneg.
  { intros e He. destruct (Z.lt_ge_cases per_source 0) as [|Hge]; [done|].
    exfalso. revert He.
    unfold pick_articles_balanced, pick_articles_balanced_fuel.
    destruct (first_pass _ _ _ _ _) as [p|r|e'] eqn:E1.
    - by apply fill_loop_not_Raise.
    - discriminate.
    - by apply first_pass_not_Raised in E1. }
  split; [done | split; [|split; [|split]]].
  - intros fuel. apply pick_articles_balanced_fuel_enough.
  - intros Hlimit r Hr. apply cut_at_limit_length; [done|].
    by eapply pick_articles_balanced_Return_cut.
  - intros Hper.
    destruct (pick_articles_balanced articles limit per_source source_order)
      as [r|e|] eqn:E; [by exists r | | done].
    specialize (Hneg e eq_refl). lia.
  - intros e He. split; [|by eapply Hneg]. revert He.
    unfold pick_articles_balanced, pick_articles_balanced_fuel.
    destruct (first_pass _ _ _ _ _) as [p|r|e'] eqn:E1.
    + apply fill_loop_Raise_IndexError.
    + discriminate.
    + by apply first_pass_not_Raised in E1.
Qed.

(** ** Translation *)

Section translation_facts.
Variable service : list request → request → reply.
Variable env : environ.
Implicit Types (title : string) (description source_name : option string).
Implicit Types (w : world).

Lemma has_api_key_chosen :
  has_api_key env = true →
  ANTHROPIC_API_KEY env ≠ "" ∨
  (ANTHROPIC_API_KEY env = "" ∧ OPENAI_API_KEY env ≠ "").
Proof.
  unfold has_api_key.
  destruct (String.eqb_spec (ANTHROPIC_API_KEY env) "") as [Ha|Ha];
    destruct (String.eqb_spec (OPENAI_API_KEY env) "") as [Ho|Ho];
    cbn; intros H; try discriminate; auto.
Qed.

(** The dispatcher calls the chosen backend once; a reply is returned as
    it is, a failure is raised: wrapped in a [RuntimeError] for Minimax,
    as it is for OpenAI. *)
Lemma translate_title_and_summary_call title description source w :
  has_api_key env = true →
  translate_title_and_summary service env title description source w
  = (match service (calls w)
             (mkRequest (chosen_backend env) title description source) with
     | Replied t s => inr (t, s)
     | Failed e => inl (propagated env e)
     end,
     {| calls := calls w ++ [mkRequest (chosen_backend env) title
                               description source];
        stderr := stderr w |}).
Proof.
  intros Hkey.
  unfold translate_title_and_summary, chosen_backend, propagated,
    try_except, call_backend, raise.
  destruct (has_api_key_chosen Hkey) as [Ha | [Ha Ho]].
  - apply String.eqb_neq in Ha. rewrite Ha. cbn [negb].
    by destruct (service _ _).
  - rewrite Ha. apply String.eqb_neq in Ho. rewrite Ho. cbn.
    by destruct (service _ _).
Qed.

Lemma translate_with_llm_no_key title description source_name w :
  has_api_key env = false →
  translate_with_llm service env title description source_name w
  = (inr (fallback_pair title source_name),
     with_stderr w "[DEBUG] No API key").
Proof.
  intros Hkey. unfold translate_with_llm, translate_attempt, bind,
    try_except, print_stderr, ret. by rewrite Hkey.
Qed.

Lemma translate_with_llm_ok title description source_name w p w' :
  has_api_key env = true →
  translate_title_and_summary service env title
    (Some (Py.or_else description "")) source_name w = (inr p, w') →
  translate_with_llm service env title description source_name w
  = (inr p, w').
Proof.
  intros Hkey Hcall. unfold translate_with_llm, translate_attempt, bind,
    try_except, ret. by rewrite Hkey, Hcall.
Qed.

Lemma translate_with_llm_caught title description source_name w e w' :
  has_api_key env = true →
  translate_title_and_summary service env title
    (Some (Py.or_else description "")) source_name w = (inl e, w') →
  translate_with_llm service env title description source_name w
  = (inr (fallback_pair title source_name),
     with_stderr w' ("[DEBUG] Translation failed: " +:+ exn_msg e)).
Proof.
  intros Hkey Hcall. unfold translate_with_llm, translate_attempt, bind,
    try_except, print_stderr, ret. by rewrite Hkey, Hcall.
Qed.

(** [translate_with_llm] returns on every input. *)
Lemma translate_with_llm_returns title description source_name w :
  ∃ p w', translate_with_llm service env title description source_name w
          = (inr p, w').
Proof.
  destruct (has_api_key env) eqn:Hkey.
  - destruct (translate_title_and_summary service env title
                (Some (Py.or_else description "")) source_name w)
      as [[e|p] w'] eqn:Hcall.
    + eexists _, _. by eapply translate_with_llm_caught.
    + eexists _, _. by eapply translate_with_llm_ok.
  - eexists _, _. by apply translate_with_llm_no_key.
Qed.

End translation_facts.

(** C1, as amended.  With a backend configured, [translate_title_and_summary]
    lets a failure of the backend call out to its caller (wrapped in a
    [RuntimeError] for Minimax, unchanged for OpenAI).  Its caller
    [translate_with_llm] catches that exception, prints it on standard error
    and returns the template; it never raises.  So the template is returned
    both when no backend is configured and when the call of the configured
    backend fails; a reply of the backend is returned as it is. *)
Theorem backend_failure_is_caught_by_translate_with_llm
    (service : list request → request → reply) (env : environ)
    (title : string) (description source_name : option string) (w : world) :
  let rq := mkRequest (chosen_backend env) title
              (Some (Py.or_else description "")) source_name in
  let called := {| calls := calls w ++ [rq]; stderr := stderr w |} in
  (has_api_key env = false →
     translate_with_llm service env title description source_name w
     = (inr (fallback_pair title source_name),
        with_stderr w "[DEBUG] No API key"))
  ∧ (has_api_key env = true → ∀ t s,
       service (calls w) rq = Replied t s →
       translate_with_llm service env title description source_name w
       = (inr (t, s), called))
  ∧ (has_api_key env = true → ∀ e,
       service (calls w) rq = Failed e →
       translate_title_and_summary service env title
         (Some (Py.or_else description "")) source_name w
       = (inl (propagated env e), called)
       ∧ translate_with_llm service env title description source_name w
         = (inr (fallback_pair title source_name),
            with_stderr called
              ("[DEBUG] Translation failed: "
               +:+ exn_msg (propagated env e))))
  ∧ (∃ p w', translate_with_llm service env title description source_name w
             = (inr p, w')).
Proof.
  intros rq called. split; [|split; [|split]].
  - apply translate_with_llm_no_key.
  - intros Hkey t s Hreply. apply translate_with_llm_ok; [done|].
    rewrite translate_title_and_summary_call by done.
    fold rq. by rewrite Hreply.
  - intros Hkey e Hreply.
    assert (translate_title_and_summary service env title
              (Some (Py.or_else description "")) source_name w
            = (inl (propagated env e), called)) as Hcall.
    { rewrite translate_title_and_summary_call by done.
      fold rq. by rewrite Hreply. }
    split; [done|]. by apply translate_with_llm_caught.
  - apply translate_with_llm_returns.
Qed.

Lemma backend_failure_is_caught_by_translate_with_llm_witness :
  has_api_key (mkEnviron "" "secret") = true
  ∧ failing_service []
      (mkRequest OpenAI "Title" (Some "") (Some "Hacker News"))
    = Failed (Exn "URLError" "timed out")
  ∧ translate_title_and_summary failing_service (mkEnviron "" "secret")
      "Title" (Some "") (Some "Hacker News") (mkWorld [] [])
    = (inl (Exn "URLError" "timed out"),
       mkWorld [mkRequest OpenAI "Title" (Some "") (Some "Hacker News")] [])
  ∧ translate_with_llm failing_service (mkEnviron "" "secret")
      "Title" None (Some "Hacker News") (mkWorld [] [])
    = (inr ("Title", fallback_summary "Hacker News"),
       mkWorld [mkRequest OpenAI "Title" (Some "") (Some "Hacker News")]
         ["[DEBUG] Translation failed: timed out"]).
Proof.
  assert (has_api_key (mkEnviron "" "secret") = true) as Hkey
    by reflexivity.
  split; [exact Hkey | split; [reflexivity|]].
  exact (proj1 (proj2 (proj2
           (backend_failure_is_caught_by_translate_with_llm failing_service
              (mkEnviron "" "secret") "Title" None (Some "Hacker News")
              (mkWorld [] []))))
           Hkey (Exn "URLError" "timed out") eq_refl).
Defined.

(** With Minimax configured and its call failing, the dispatcher raises but
    [translate_with_llm] returns the template: the failure is not passed
    on to the caller, and the template is the reaction to it. *)
Lemma translate_with_llm_swallows_backend_failure :
  has_api_key (mkEnviron "secret" "") = true
  ∧ translate_title_and_summary failing_service (mkEnviron "secret" "")
      "Title" (Some "") (Some "Hacker News") (mkWorld [] [])
    = (inl (Exn "RuntimeError" "Minimax translation failed: timed out"),
       mkWorld [mkRequest Minimax "Title" (Some "") (Some "Hacker News")] [])
  ∧ translate_with_llm failing_service (mkEnviron "secret" "")
      "Title" None (Some "Hacker News") (mkWorld [] [])
    = (inr ("Title", fallback_summary "Hacker News"),
       mkWorld [mkRequest Minimax "Title" (Some "") (Some "Hacker News")]
         ["[DEBUG] Translation failed: Minimax translation failed: timed out"]).
Proof. repeat split. Qed.

(** ** Translation cache *)

Section cache_facts.
Variable service : list request → request → reply.
Variable env : environ.
Implicit Types (cache : gmap string cached) (a : article) (w : world).
Implicit Types (articles : list article) (k : string).

Lemma resolve_skip cache a w :
  article_key a = None →
  resolve service env cache a w = (inr (a, cache), w).
Proof. intros H. unfold resolve. by rewrite H. Qed.

Lemma resolve_hit cache a w k c :
  article_key a = Some k → cache !! k = Some c →
  resolve service env cache a w
  = (inr (set_zh a (cached_zh_title c) (cached_zh_summary c), cache), w).
Proof. intros Hk Hc. unfold resolve. by rewrite Hk, Hc. Qed.

Lemma resolve_miss cache a w k t s w' :
  article_key a = Some k → cache !! k = None →
  translate_with_llm service env (default "" (title a))
    (description a) (source_name a) w = (inr (t, s), w') →
  resolve service env cache a w
  = (inr (set_zh a (Some t) (Some s),
          <[k := mkCached (Some t) (Some s)]> cache), w').
Proof.
  intros Hk Hc Ht. unfold resolve, bind, ret. by rewrite Hk, Hc, Ht.
Qed.

(** One round of the loop returns; it keeps every cache entry, leaves
    under the article's key the pair it gave the article, and touches
    no other key. *)
Lemma resolve_spec cache a w :
  ∃ a' cache' w',
    resolve service env cache a w = (inr (a', cache'), w')
    ∧ cache ⊆ cache'
    ∧ (∀ k, article_key a = Some k →
            cache' !! k = Some (mkCached (zh_title a') (zh_summary a')))
    ∧ (∀ k, article_key a ≠ Some k → cache' !! k = cache !! k).
Proof.
  destruct (article_key a) as [k|] eqn:Hk.
  - destruct (cache !! k) as [c|] eqn:Hc.
    + eexists _, _, _. split; [by eapply resolve_hit|].
      split; [done|]. split; [|done].
      intros k' [= <-]. rewrite Hc. by destruct c.
    + destruct (translate_with_llm_returns service env
                  (default "" (title a)) (description a) (source_name a) w)
        as ([t s] & w' & Ht).
      eexists _, _, _. split; [by eapply resolve_miss|].
      split; [by apply insert_subseteq|]. split.
      * intros k' [= <-]. by rewrite lookup_insert_eq.
      * intros k' Hne. rewrite lookup_insert_ne; [done | congruence].
  - eexists _, _, _. split; [by apply resolve_skip|]. done.
Qed.

Lemma translate_selected_cons cache a articles w :
  translate_selected service env cache (a :: articles) w
  = match resolve service env cache a w with
    | (inr (a', cache'), w') =>
        match translate_selected service env cache' articles w' with
        | (inr (rest', cache''), w'') => (inr (a' :: rest', cache''), w'')
        | (inl e, w'') => (inl e, w'')
        end
    | (inl e, w') => (inl e, w')
    end.
Proof.
  cbn [translate_selected]. unfold bind, ret.
  destruct (resolve service env cache a w) as [[e|[a' cache']] w']; [done|].
  by destruct (translate_selected service env cache' articles w')
    as [[e|[rest' cache'']] w''].
Qed.

(** The loop returns; it keeps every cache entry and touches only the
    keys of its articles. *)
Lemma translate_selected_spec cache articles w :
  ∃ outs cache' w',
    translate_selected service env cache articles w
    = (inr (outs, cache'), w')
    ∧ cache ⊆ cache'
    ∧ length outs = length articles
    ∧ (∀ k, (∀ b, b ∈ articles → article_key b ≠ Some k) →
            cache' !! k = cache !! k).
Proof.
  revert cache w. induction articles as [|a articles IH]; intros cache w.
  - by eexists [], cache, w.
  - destruct (resolve_spec cache a w)
      as (a' & cache1 & w1 & Hr & Hsub1 & _ & Hother1).
    destruct (IH cache1 w1) as (rest' & cache2 & w2 & Ht & Hsub2 & Hlen & Hother2).
    exists (a' :: rest'), cache2, w2.
    rewrite translate_selected_cons, Hr, Ht.
    split; [done|]. split; [by etrans|]. split; [cbn; by rewrite Hlen|].
    intros k Hk. rewrite Hother2, Hother1; [done | |].
    + apply Hk. left.
    + intros b Hb. apply Hk. by right.
Qed.


(** Without a backend configured no backend is called. *)
Lemma resolve_no_key_calls cache a w r w' :
  has_api_key env = false →
  resolve service env cache a w = (r, w') → calls w' = calls w.
Proof.
  intros Hkey. unfold resolve, bind, ret.
  destruct (article_key a) as [k|]; [|by intros [= _ <-]].
  destruct (cache !! k) as [c|]; [by intros [= _ <-]|].
  rewrite translate_with_llm_no_key by done. by intros [= _ <-].
Qed.

Lemma translate_selected_no_key_calls cache articles w r w' :
  has_api_key env = false →
  translate_selected service env cache articles w = (r, w') →
  calls w' = calls w.
Proof.
  intros Hkey. revert cache w r w'.
  induction articles as [|a articles IH]; intros cache w r w'.
  - by intros [= _ <-].
  - rewrite translate_selected_cons.
    destruct (resolve service env cache a w) as [[e|[a' cache1]] w1] eqn:Hr.
    + intros [= _ <-]. by eapply resolve_no_key_calls.
    + apply resolve_no_key_calls in Hr; [|done].
      destruct (translate_selected service env cache1 articles w1)
        as [[e|[rest' cache2]] w2] eqn:Ht;
        apply IH in Ht; intros [= _ <-]; congruence.
Qed.

End cache_facts.

(** A later cache holds every entry of an earlier one. *)
Lemma later_cache_subseteq (c c' : gmap string cached) :
  later_cache c c' → c ⊆ c'.
Proof.
  induction 1 as [c | service env c articles w outs c' w' c'' Hrun _ IH
                    | service env c articles w outs file' w' c'' Hrun _ IH].
  - done.
  - destruct (translate_selected_spec service env c articles w)
      as (outs0 & c0 & w0 & Ht & Hsub & _).
    rewrite Ht in Hrun. injection Hrun as <- <- <-. by etrans.
  - unfold translate_and_persist in Hrun.
    change (load_cache (Some c)) with c in Hrun.
    destruct (translate_selected_spec service env c articles w)
      as (outs0 & c0 & w0 & Ht & Hsub & _).
    rewrite Ht in Hrun. injection Hrun as <- <- <-. by etrans.
Qed.

(** A run that returns has written the cache: it is the run of
    [translate_and_persist]. *)
Lemma translate_and_write_returns
    (service : list request → request → reply) (env : environ)
    (file : option (gmap string cached)) (articles : list article)
    (w : world) outs file' w' :
  translate_and_write service env file articles w = (inr outs, file', w') →
  translate_and_persist service env file articles w = (inr outs, file', w').
Proof.
  unfold translate_and_write, translate_and_persist, write_cache.
  destruct (translate_selected service env (load_cache file) articles w)
    as [[e|[outs0 cache]] w0]; [done|].
  by destruct (encodable cache).
Qed.

(** C4, as amended.  The loop of a run returns with a cache that holds
    every entry read at the start of the run, under the same key with the
    same value, and otherwise only entries under keys of the run's
    articles.  The write at the end persists exactly this cache when its
    text can be encoded, and the run returns; when it cannot, the run
    raises [UnicodeEncodeError] and the file is left empty. *)
Theorem cache_entries_survive_run
    (service : list request → request → reply) (env : environ)
    (file : option (gmap string cached)) (articles : list article)
    (w : world) :
  ∃ outs cache' w',
    translate_selected service env (load_cache file) articles w
    = (inr (outs, cache'), w')
    ∧ (∀ k v, load_cache file !! k = Some v → cache' !! k = Some v)
    ∧ (∀ k, is_Some (cache' !! k) →
            is_Some (load_cache file !! k)
            ∨ ∃ a, a ∈ articles ∧ article_key a = Some k)
    ∧ translate_and_write service env file articles w
      = if encodable cache' then (inr outs, Some cache', w')
        else (inl UnicodeEncodeError, None, w').
Proof.
  destruct (translate_selected_spec service env (load_cache file) articles w)
    as (outs & cache' & w' & Ht & Hsub & _ & Hother).
  exists outs, cache', w'. split; [done|]. split; [|split].
  - intros k v Hkv. by eapply lookup_weaken.
  - intros k Hk.
    destruct (decide (Exists (λ a, article_key a = Some k) articles))
      as [Hex|Hno].
    + right. apply Exists_exists in Hex as (a & Ha & Hkey). eauto.
    + left. rewrite <- Hother; [done|]. intros b Hb Hkey.
      apply Hno, Exists_exists. eauto.
  - unfold translate_and_write, write_cache. rewrite Ht.
    by destruct (encodable cache').
Qed.

(** A run whose write succeeds keeps the entry it read. *)
Example cache_entries_survive_run_sample :
  ∃ outs cache' w',
    translate_and_write (constant_service "t2" "s2") (mkEnviron "" "key")
      (Some {[ "u1" := mkCached (Some "t1") (Some "s1") ]})
      [sample_linked "Title" "u2"] (mkWorld [] [])
    = (inr outs, Some cache', w')
    ∧ cache' !! "u1" = Some (mkCached (Some "t1") (Some "s1"))
    ∧ cache' !! "u2" = Some (mkCached (Some "t2") (Some "s2")).
Proof. eexists _, _, _. split; [by vm_compute|]. split; by vm_compute. Qed.

(** A translated title with a surrogate on its own cannot be written: the
    run raises after the file has been emptied, and the entry that was on
    disk at the start of the run is lost. *)
Lemma failed_write_empties_cache_file :
  load_cache (Some {[ "u1" := mkCached (Some "t1") (Some "s1") ]}) !! "u1"
  = Some (mkCached (Some "t1") (Some "s1"))
  ∧ ∃ file' w',
      translate_and_write (constant_service ("caf" +:+ LONE_SURROGATE) "s2")
        (mkEnviron "" "key")
        (Some {[ "u1" := mkCached (Some "t1") (Some "s1") ]})
        [sample_linked "Title" "u2"] (mkWorld [] [])
      = (inl UnicodeEncodeError, file', w')
      ∧ load_cache file' !! "u1" = None.
Proof.
  split; [by vm_compute|]. eexists _, _. split; by vm_compute.
Qed.

(** C6.  Once an article has been resolved under a key, any later resolution
    of an article with the same key (further on in the same run, or in a
    later run that loads the written cache, with any backend, environment
    and article content) gives that article the same pair, and leaves the
    cache and the world as they are: no backend is called. *)
Theorem cached_key_is_not_translated_again
    (service service2 : list request → request → reply) (env env2 : environ)
    (c0 c1 c2 : gmap string cached) (a1 a1' a2 : article) (w0 w1 w2 : world)
    (k : string) :
  article_key a1 = Some k →
  resolve service env c0 a1 w0 = (inr (a1', c1), w1) →
  later_cache c1 c2 →
  article_key a2 = Some k →
  resolve service2 env2 c2 a2 w2
  = (inr (set_zh a2 (zh_title a1') (zh_summary a1'), c2), w2)
  ∧ c2 !! k = Some (mkCached (zh_title a1') (zh_summary a1')).
Proof.
  intros Hk1 Hr1 Hlater Hk2.
  destruct (resolve_spec service env c0 a1 w0)
    as (a & c & w & Hr & _ & Hstored & _).
  rewrite Hr in Hr1. injection Hr1 as <- <- <-.
  specialize (Hstored k Hk1).
  apply later_cache_subseteq in Hlater.
  assert (c2 !! k = Some (mkCached (zh_title a) (zh_summary a))) as Hc2
    by by eapply lookup_weaken.
  split; [|done]. by rewrite (resolve_hit _ _ _ _ _ _ _ Hk2 Hc2).
Qed.

Lemma cached_key_is_not_translated_again_witness :
  ∃ a1' c1 w1 c2,
    article_key (sample_linked "Title" "u") = Some "u"
    ∧ resolve (constant_service "t" "s") (mkEnviron "" "key") ∅
        (sample_linked "Title" "u") (mkWorld [] [])
      = (inr (a1', c1), w1)
    ∧ later_cache c1 c2
    ∧ article_key (sample_linked "Changed title" "u") = Some "u"
    ∧ resolve failing_service (mkEnviron "other key" "") c2
        (sample_linked "Changed title" "u") w1
      = (inr (set_zh (sample_linked "Changed title" "u")
                (Some "t") (Some "s"), c2), w1).
Proof.
  assert (later_cache
            ({[ "u" := mkCached (Some "t") (Some "s") ]} : gmap string cached)
            (<[ "v" := mkCached (Some "Other")
                         (Some (fallback_summary "Hacker News")) ]>
               {[ "u" := mkCached (Some "t") (Some "s") ]})) as Hlater.
  { eapply (later_next_run failing_service (mkEnviron "" "") _
              [sample_linked "Other" "v"] (mkWorld [] []));
      [by vm_compute | apply later_now]. }
  eexists _, _, _, _.
  split; [reflexivity|]. split; [by vm_compute|].
  split; [exact Hlater|]. split; [reflexivity|].
  exact (proj1 (cached_key_is_not_translated_again
                  (constant_service "t" "s") failing_service
                  (mkEnviron "" "key") (mkEnviron "other key" "")
                  ∅ _ _ (sample_linked "Title" "u") _
                  (sample_linked "Changed title" "u")
                  (mkWorld [] []) _ _ "u"
                  eq_refl eq_refl Hlater eq_refl)).
Defined.

Lemma string_app_assoc (s1 s2 s3 : string) :
  (s1 +:+ s2) +:+ s3 = s1 +:+ (s2 +:+ s3).
Proof.
  induction s1 as [|c s1 IH]; [done|].
  by rewrite !append_cons, IH.
Qed.






(** An article without link and title has no key: the loop skips it, and it
    gets no pair at all. *)
Example keyless_article_is_skipped :
  translate_and_persist failing_service (mkEnviron "" "") None
    [mkArticle None None None None None (Some "hackernews") None None None]
    (mkWorld [] [])
  = (inr [mkArticle None None None None None (Some "hackernews") None None
            None],
     Some ∅, mkWorld [] []).
Proof. by vm_compute. Qed.

(** ** Deduplication filter *)

Section dedupe_facts.
Variable posts : Z → option string.
Variable base : Z.
Implicit Types (seen : gset string) (offsets : list Z) (i days : Z).

Lemma elem_of_day_offsets i days : i ∈ day_offsets days ↔ 1 ≤ i ≤ days.
Proof.
  unfold day_offsets. rewrite list_elem_of_In, in_map_iff. split.
  - intros (k & <- & Hk%in_seq). lia.
  - intros Hi. exists (Z.to_nat i). rewrite in_seq. lia.
Qed.

Lemma scan_day_spec seen i :
  MIN_ORDINAL ≤ base - i →
  ∃ seen', scan_day posts base seen i = inr seen'
           ∧ ∀ l, l ∈ seen' ↔ l ∈ seen ∨ links_of_day posts base i l.
Proof.
  intros Hi. unfold scan_day, minus_days, links_of_day.
  rewrite (proj2 (Z.ltb_ge _ _) Hi).
  destruct (posts (base - i)) as [content|].
  - eexists. split; [done|]. intros l.
    rewrite elem_of_union, elem_of_list_to_set. split.
    + intros [?|?]; [by left | right; eauto].
    + intros [?|(c & [= <-] & ?)]; [by left | by right].
  - eexists. split; [done|]. intros l. split; [by left|].
    by intros [?|(c & [=] & _)].
Qed.

Lemma scan_days_spec seen offsets :
  (∀ i, i ∈ offsets → MIN_ORDINAL ≤ base - i) →
  ∃ seen', scan_days posts base seen offsets = inr seen'
           ∧ ∀ l, l ∈ seen' ↔
                  l ∈ seen ∨ ∃ i, i ∈ offsets ∧ links_of_day posts base i l.
Proof.
  revert seen. induction offsets as [|i rest IH]; intros seen Hrange.
  - exists seen. split; [done|]. intros l. split; [by left|].
    intros [?|(i & Hi & _)]; [done | inversion Hi].
  - destruct (scan_day_spec seen i) as (seen1 & H1 & Hseen1).
    { apply Hrange. left. }
    destruct (IH seen1) as (seen2 & H2 & Hseen2).
    { intros j Hj. apply Hrange. by right. }
    exists seen2. cbn [scan_days]. rewrite H1. split; [done|].
    intros l. rewrite Hseen2, Hseen1. split.
    + intros [[?|?]|(j & Hj & ?)]; [by left | right | right].
      * exists i. split; [left | done].
      * exists j. split; [by right | done].
    + intros [?|(j & Hj & ?)]; [by left; left |].
      apply elem_of_cons in Hj as [->|Hj]; [by left; right |].
      right. eauto.
Qed.

End dedupe_facts.

(** C5, as amended.  For a current date that has [days] earlier dates in
    the calendar of [datetime] (which starts at day 1), the filter returns
    the articles for which a test [keep] holds, in input order; [keep] fails
    exactly on the articles whose link is extracted from the post of one of
    the [days] dates before the current one.  An article without link is
    kept, and a date without post adds no link and raises nothing. *)
Theorem dedupe_articles_drops_published
    (posts : Z → option string) (articles : list article) (base days : Z) :
  (0 < days → days < base) →
  ∃ kept keep,
    dedupe_articles posts articles base days = inr kept
    ∧ kept = List.filter keep articles
    ∧ ∀ a, keep a = false
           ↔ ∃ l, link a = Some l ∧ published_before posts base days l.
Proof.
  intros Hrange.
  destruct (scan_days_spec posts base ∅ (day_offsets days))
    as (seen & Hscan & Hseen).
  { intros i Hi%elem_of_day_offsets. unfold MIN_ORDINAL. lia. }
  exists (List.filter (link_unseen seen) articles), (link_unseen seen).
  unfold dedupe_articles. rewrite Hscan. split; [done|]. split; [done|].
  intros a. unfold link_unseen, published_before.
  destruct (link a) as [l|].
  - rewrite bool_decide_eq_false. split.
    + intros Hin%dec_stable. exists l. split; [done|].
      apply Hseen in Hin as [Hin|(i & Hi%elem_of_day_offsets & Hl)];
        [by apply not_elem_of_empty in Hin | eauto].
    + intros (l' & [= <-] & i & Hi & Hl) Hnot. apply Hnot, Hseen. right.
      exists i. by rewrite elem_of_day_offsets.
  - split; [discriminate | by intros (l & [=] & _)].
Qed.

Lemma dedupe_articles_drops_published_witness :
  (0 < 3 → 3 < 100)
  ∧ ∃ kept keep,
      dedupe_articles sample_posts
        [sample_linked "A" "https://a.example/1";
         sample_linked "C" "https://c.example/3";
         sample_article "s1" "no link"] 100 3
      = inr kept
      ∧ kept = List.filter keep
                 [sample_linked "A" "https://a.example/1";
                  sample_linked "C" "https://c.example/3";
                  sample_article "s1" "no link"]
      ∧ ∀ a, keep a = false
             ↔ ∃ l, link a = Some l ∧ published_before sample_posts 100 3 l.
Proof.
  split; [lia|]. apply dedupe_articles_drops_published. lia.
Defined.

(** The post of the day before names two links; the articles with these
    links are dropped, the others stay in order. *)
Example dedupe_articles_sample :
  dedupe_articles sample_posts
    [sample_linked "A" "https://a.example/1";
     sample_linked "C" "https://c.example/3";
     sample_linked "B" "https://b.example/2";
     sample_article "s1" "no link"] 100 3
  = inr [sample_linked "C" "https://c.example/3";
         sample_article "s1" "no link"].
Proof. by vm_compute. Qed.

(** Before the fourth day of the calendar the date three days back does
    not exist: the date subtraction raises, and the filter returns no list
    at all, although no post names the article's link. *)
Lemma dedupe_articles_at_calendar_start :
  dedupe_articles sample_posts [sample_linked "A" "https://a.example/1"] 2 3
  = inl OverflowError
  ∧ ¬ ∃ kept,
        dedupe_articles sample_posts
          [sample_linked "A" "https://a.example/1"] 2 3
        = inr kept.
Proof.
  split; [by vm_compute|]. intros [kept Hkept]. vm_compute in Hkept.
  discriminate.
Qed.

Lemma pick_articles_balanced_terminates_witness :
  0 ≤ 4 ∧ 0 ≤ 2
  ∧ ∃ r, pick_articles_balanced
           [sample_article "s1" "a0"; sample_article "s2" "b0";
            sample_article "s1" "a1"; sample_article "s1" "a2"]
           3 2 None = Return r
         ∧ Py.len r ≤ 3.
Proof.
  destruct (pick_articles_balanced_terminates
              [sample_article "s1" "a0"; sample_article "s2" "b0";
               sample_article "s1" "a1"; sample_article "s1" "a2"]
              3 2 None) as (_ & _ & Hlen & Hret & _).
  split; [lia | split; [lia|]].
  destruct (Hret ltac:(lia)) as [r Hr].
  exists r. split; [exact Hr | apply Hlen; [lia | exact Hr]].
Defined.

(** With [limit = -1] the selector returns [picked[:-1]], all it picked but
    the last: a list longer than [limit]. *)
Lemma pick_articles_balanced_negative_limit :
  pick_articles_balanced
    [sample_article "s1" "a0"; sample_article "s1" "a1"] (-1) 2 None
  = Return [sample_article "s1" "a0"]
  ∧ ¬ Py.len [sample_article "s1" "a0"] ≤ -1.
Proof. split; [by vm_compute | by vm_compute]. Qed.


(** * Further properties *)

(** ** Balanced selector: the result in closed form *)

Section selector_closed_form.
Variable buckets : gmap string (list article).
Variable limit : Z.
Hypothesis limit_nonneg : 0 ≤ limit.
Implicit Types (order : list string) (picked tail : list article) (j n : nat).

Lemma slice_to_app_ge picked tail :
  limit ≤ Py.len picked →
  Py.slice_to picked limit = take (Z.to_nat limit) (picked ++ tail).
Proof.
  intros H. rewrite slice_to_nonneg by done.
  rewrite take_app_le; [done|]. unfold Py.len in H. lia.
Qed.

Lemma first_pass_closed per_source order picked :
  0 ≤ per_source →
  match first_pass buckets limit per_source order picked with
  | Next q => q = picked ++ taken buckets order (Z.to_nat per_source)
  | Returned r =>
      ∀ tail, r = take (Z.to_nat limit)
                    (picked ++ taken buckets order (Z.to_nat per_source)
                     ++ tail)
  | Raised _ => False
  end.
Proof.
  intros Hp. revert picked.
  induction order as [|src rest IH]; intros picked.
  - cbn. by rewrite app_nil_r.
  - cbn [first_pass]. rewrite taken_cons.
    assert ((match buckets !! src with
             | Some b => picked ++ Py.slice_to b per_source
             | None => picked
             end)
            = picked ++ take (Z.to_nat per_source) (bucket_get buckets src))
      as ->.
    { destruct (buckets !! src) as [b|] eqn:Eb.
      - by rewrite (bucket_get_Some _ _ _ Eb), slice_to_nonneg.
      - by rewrite (bucket_get_None _ _ Eb), take_nil, app_nil_r. }
    destruct (Z.leb_spec limit
                (Py.len (picked ++ take (Z.to_nat per_source)
                                     (bucket_get buckets src))))
      as [Hge|Hlt].
    + intros tail. rewrite (slice_to_app_ge _ (taken buckets rest (Z.to_nat per_source) ++ tail))
        by done.
      by rewrite <- !app_assoc.
    + specialize (IH (picked ++ take (Z.to_nat per_source)
                                  (bucket_get buckets src))).
      destruct (first_pass _ _ _ _ _) as [q|r|e]; [|intros tail|done].
      * by rewrite IH, <- app_assoc.
      * by rewrite (IH tail), <- !app_assoc.
Qed.

Lemma fill_round_closed j order picked progressed :
  match fill_round buckets limit (Z.of_nat j) order picked progressed with
  | Next (q, pr) =>
      q = picked ++ round_items buckets order j
      ∧ pr = progressed || bool_decide (round_items buckets order j ≠ [])
  | Returned r =>
      ∀ tail, r = take (Z.to_nat limit)
                    (picked ++ round_items buckets order j ++ tail)
  | Raised _ => False
  end.
Proof.
  revert picked progressed.
  induction order as [|src rest IH]; intros picked progressed.
  - cbn. by rewrite app_nil_r, orb_false_r.
  - cbn [fill_round]. rewrite round_items_cons.
    destruct (buckets !! src) as [b|] eqn:Eb.
    + rewrite (bucket_get_Some _ _ _ Eb).
      destruct (Z.ltb_spec (Z.of_nat j) (Py.len b)) as [Hlt|Hge].
      * rewrite index_nonneg, Nat2Z.id by lia.
        destruct (b !! j) as [x|] eqn:Ex.
        2:{ apply lookup_ge_None in Ex. unfold Py.len in Hlt. lia. }
        change (option_list (Some x)) with [x].
        destruct (Z.leb_spec limit (Py.len (picked ++ [x]))) as [Hge|Hlt'].
        -- intros tail.
           rewrite (slice_to_app_ge _ (round_items buckets rest j ++ tail))
             by done.
           by rewrite <- !app_assoc.
        -- specialize (IH (picked ++ [x]) true).
           destruct (fill_round _ _ _ _ _ _) as [[q pr]|r|e];
             [|intros tail|done].
           ++ destruct IH as [-> ->]. rewrite <- app_assoc. split; [done|].
              cbn [app orb].
              rewrite (bool_decide_eq_true_2 (x :: _ ≠ [])) by done.
              by rewrite orb_true_r.
           ++ by rewrite (IH tail), <- !app_assoc.
      * assert (b !! j = None) as ->.
        { apply lookup_ge_None. unfold Py.len in Hge. lia. }
        change (option_list None) with (@nil article). cbn [app]. apply IH.
    + rewrite (bucket_get_None _ _ Eb), lookup_nil.
      change (option_list None) with (@nil article). cbn [app]. apply IH.
Qed.

Lemma rounds_S j n order :
  rounds buckets order j (S n)
  = round_items buckets order j ++ rounds buckets order (S j) n.
Proof. reflexivity. Qed.

Lemma round_items_exhausted order j :
  exhausted_by buckets order j 0 → round_items buckets order j = [].
Proof.
  induction order as [|src rest IH]; intros H; [done|].
  rewrite round_items_cons, IH.
  - rewrite lookup_ge_None_2; [done|].
    specialize (H src ltac:(left)). lia.
  - intros s Hs. apply H. by right.
Qed.

Lemma exhausted_by_round_items_nil order j :
  round_items buckets order j = [] → exhausted_by buckets order j 0.
Proof.
  induction order as [|src rest IH]; intros H s Hs; [inversion Hs|].
  rewrite round_items_cons in H. apply app_eq_nil in H as [H1 H2].
  apply elem_of_cons in Hs as [->|Hs]; [|by apply IH].
  destruct (bucket_get buckets src !! j) eqn:Ex; [discriminate|].
  apply lookup_ge_None in Ex. lia.
Qed.

Lemma rounds_exhausted order j n :
  exhausted_by buckets order j 0 → rounds buckets order j n = [].
Proof.
  revert j. induction n as [|n IH]; intros j H; [done|].
  rewrite rounds_S, round_items_exhausted, IH; [done | | done].
  intros s Hs. specialize (H s Hs). lia.
Qed.

(** Rounds past the longest bucket add nothing. *)
Lemma rounds_stable order j n :
  exhausted_by buckets order j n →
  rounds buckets order j (S n) = rounds buckets order j n.
Proof.
  revert j. induction n as [|n IH]; intros j H.
  - rewrite rounds_S, round_items_exhausted by done.
    rewrite rounds_exhausted; [done|]. intros s Hs. specialize (H s Hs). lia.
  - rewrite rounds_S, IH; [done|].
    intros s Hs. specialize (H s Hs). lia.
Qed.

Lemma fill_loop_closed fuel j n order picked r :
  exhausted_by buckets order j n →
  fill_loop fuel buckets limit order (Z.of_nat j) picked = Return r →
  r = take (Z.to_nat limit) (picked ++ rounds buckets order j n).
Proof.
  revert j n picked r. induction fuel as [|fuel IH]; intros j n picked r Hn.
  - discriminate.
  - cbn [fill_loop].
    destruct (Z.ltb_spec (Py.len picked) limit) as [Hlt|Hge].
    + rewrite <- rounds_stable by done. rewrite rounds_S.
      pose proof (fill_round_closed j order picked false) as Hround.
      destruct (fill_round _ _ _ _ _ _) as [[q pr]|r'|e]; [| |done].
      * destruct Hround as [-> ->]. cbn [orb]. case_bool_decide as Hri.
        -- replace (Z.of_nat j + 1) with (Z.of_nat (S j)) by lia.
           intros Hr. apply (IH _ n) in Hr.
           ++ by rewrite Hr, <- app_assoc.
           ++ intros s Hs. specialize (Hn s Hs). lia.
        -- intros [= <-]. rewrite Hri, app_nil_r. cbn [app].
           rewrite rounds_exhausted, app_nil_r.
           ++ by apply slice_to_nonneg.
           ++ intros s Hs.
              pose proof (exhausted_by_round_items_nil _ _ Hri s Hs). lia.
      * intros [= <-]. apply Hround.
    + intros [= <-]. by apply slice_to_app_ge.
Qed.

(** The first-pass block and all the rounds together hold every bucket
    whole. *)
Lemma taken_rounds_Permutation order j n :
  exhausted_by buckets order j n →
  taken buckets order j ++ rounds buckets order j n
  ≡ₚ taken_all buckets order.
Proof.
  revert j. induction n as [|n IH]; intros j H.
  - cbn [rounds]. rewrite app_nil_r.
    erewrite round_items_nil; [done|]. by apply round_items_exhausted.
  - rewrite rounds_S, app_assoc, <- taken_S. apply IH.
    intros s Hs. specialize (H s Hs). lia.
Qed.

End selector_closed_form.

Section selector_sources.
Variable buckets : gmap string (list article).
Hypothesis buckets_keyed :
  ∀ src a, a ∈ bucket_get buckets src → bucket_key a = src.
Implicit Types (order : list string) (s : string) (j n : nat).

Lemma filter_keyed s src (l : list article) :
  (∀ a, a ∈ l → bucket_key a = src) →
  filter (λ a, bucket_key a = s) l = if decide (src = s) then l else [].
Proof.
  intros Hl. induction l as [|a l IH]; [by case_decide|].
  rewrite filter_cons, IH by (intros b Hb; apply Hl; by right).
  specialize (Hl a ltac:(left)). repeat case_decide; congruence.
Qed.

Lemma filter_flat_map_keyed s order (f : string → list article) :
  NoDup order →
  (∀ src a, a ∈ f src → bucket_key a = src) →
  filter (λ a, bucket_key a = s) (flat_map f order)
  = if decide (s ∈ order) then f s else [].
Proof.
  intros Hnd Hf. induction order as [|src rest IH]; [done|].
  apply NoDup_cons in Hnd as [Hsrc Hnd]. cbn [flat_map].
  rewrite filter_app, IH, (filter_keyed s src) by (done || apply Hf).
  destruct (decide (src = s)) as [->|Hne].
  - rewrite (decide_False (P := s ∈ rest)) by done.
    rewrite (decide_True (P := s ∈ s :: rest)) by left.
    by rewrite app_nil_r.
  - cbn [app]. destruct (decide (s ∈ rest)) as [Hin|Hnot].
    + rewrite decide_True; [done | by right].
    + rewrite decide_False; [done|].
      intros [?|?]%elem_of_cons; congruence.
Qed.

Lemma filter_taken s order j :
  NoDup order →
  filter (λ a, bucket_key a = s) (taken buckets order j)
  = if decide (s ∈ order) then take j (bucket_get buckets s) else [].
Proof.
  intros Hnd. unfold taken.
  apply (filter_flat_map_keyed s order
           (λ src, take j (bucket_get buckets src)) Hnd).
  intros src a Ha. apply buckets_keyed.
  apply elem_of_take in Ha as (i & Hi & _). by eapply list_elem_of_lookup_2.
Qed.

Lemma filter_round_items s order j :
  NoDup order →
  filter (λ a, bucket_key a = s) (round_items buckets order j)
  = if decide (s ∈ order)
    then option_list (bucket_get buckets s !! j) else [].
Proof.
  intros Hnd. unfold round_items.
  apply (filter_flat_map_keyed s order
           (λ src, option_list (bucket_get buckets src !! j)) Hnd).
  intros src a Ha. apply buckets_keyed.
  destruct (bucket_get buckets src !! j) as [x|] eqn:Ex; [|inversion Ha].
  apply list_elem_of_singleton in Ha as ->. by eapply list_elem_of_lookup_2.
Qed.

Lemma option_list_lookup_drop {A} (l : list A) j :
  option_list (l !! j) ++ drop (S j) l = drop j l.
Proof.
  destruct (l !! j) as [x|] eqn:Ex.
  - by rewrite (drop_S _ _ _ Ex).
  - apply lookup_ge_None in Ex. by rewrite !drop_ge by lia.
Qed.

Lemma filter_rounds s order j n :
  NoDup order →
  filter (λ a, bucket_key a = s) (rounds buckets order j n)
  = if decide (s ∈ order)
    then drop j (take (j + n) (bucket_get buckets s)) else [].
Proof.
  intros Hnd. revert j. induction n as [|n IH]; intros j.
  - cbn [rounds]. rewrite Nat.add_0_r, filter_nil.
    case_decide; [|done]. symmetry. apply drop_ge. rewrite length_take. lia.
  - rewrite rounds_S, filter_app, filter_round_items, IH by done.
    case_decide; [|done].
    replace (S j + n)%nat with (j + S n)%nat by lia.
    rewrite <- (option_list_lookup_drop (take (j + S n) _) j).
    f_equal. destruct (decide (j < j + S n)%nat); [|lia].
    by rewrite lookup_take_lt by lia.
Qed.

End selector_sources.

Section selector_whole.
Implicit Types (articles : list article) (limit per_source : Z).
Implicit Types (source_order : option (list string)).

Lemma make_buckets_keyed articles src a :
  a ∈ bucket_get (make_buckets articles) src → bucket_key a = src.
Proof.
  rewrite bucket_get_make_buckets. by intros [_ ?]%bucket_of_elem_of.
Qed.

Lemma make_buckets_exhausted articles order j :
  exhausted_by (make_buckets articles) order j (length articles).
Proof.
  intros src _. rewrite bucket_get_make_buckets.
  pose proof (bucket_of_length articles src). lia.
Qed.

Lemma effective_order_NoDup source_order articles :
  order_nodup source_order →
  NoDup (effective_order source_order (make_buckets articles)).
Proof.
  destruct (sorted_keys_spec (make_buckets articles)) as (_ & Hnd & _).
  by destruct source_order as [[|src rest]|].
Qed.

(** Buckets taken in an order without repeats take no article twice. *)
Lemma flat_map_bucket_of_submseteq order articles :
  NoDup order → flat_map (bucket_of articles) order ⊆+ articles.
Proof.
  revert articles. induction order as [|src rest IH]; intros articles Hnd.
  - apply submseteq_nil_l.
  - apply NoDup_cons in Hnd as [Hsrc Hnd]. cbn [flat_map].
    set (others := filter (λ a, ¬ bucket_key a = src) articles).
    assert (flat_map (bucket_of articles) rest
            = flat_map (bucket_of others) rest) as ->.
    { apply flat_map_ext_elem_of. intros s Hs.
      unfold bucket_of, others. rewrite list_filter_filter.
      apply list_filter_iff. intros a. split; [|tauto].
      intros Ha. split; [done|]. intros Hb. apply Hsrc. congruence. }
    rewrite <- (filter_app_complement (λ a, bucket_key a = src) articles)
      at 2.
    apply submseteq_app; [done | by apply IH].
Qed.

Lemma taken_all_submseteq order articles :
  NoDup order → taken_all (make_buckets articles) order ⊆+ articles.
Proof.
  intros H. unfold taken_all.
  rewrite (flat_map_ext_elem_of _ (bucket_of articles)).
  - by apply flat_map_bucket_of_submseteq.
  - intros src _. apply bucket_get_make_buckets.
Qed.

Lemma selection_sequence_Permutation articles per_source source_order :
  selection_sequence articles per_source source_order
  ≡ₚ taken_all (make_buckets articles)
       (effective_order source_order (make_buckets articles)).
Proof. apply taken_rounds_Permutation, make_buckets_exhausted. Qed.

End selector_whole.

Lemma pick_articles_balanced_take
    (articles : list article) (limit per_source : Z)
    (source_order : option (list string)) :
  0 ≤ limit → 0 ≤ per_source →
  pick_articles_balanced articles limit per_source source_order
  = Return (take (Z.to_nat limit)
              (selection_sequence articles per_source source_order)).
Proof.
  intros Hlimit Hper.
  pose proof (pick_articles_balanced_not_OutOfFuel
                articles limit per_source source_order) as Hend.
  unfold pick_articles_balanced, pick_articles_balanced_fuel,
    selection_sequence in *.
  set (buckets := make_buckets articles) in *.
  set (order := effective_order source_order buckets) in *.
  pose proof (first_pass_closed buckets limit Hlimit per_source order []
                Hper) as Hfirst.
  destruct (first_pass buckets limit per_source order []) as [q|r|e];
    [|by rewrite (Hfirst (rounds buckets order (Z.to_nat per_source)
                            (length articles)))|done].
  cbn [app] in Hfirst. subst q.
  remember (Z.to_nat per_source) as j eqn:Hj.
  assert (per_source = Z.of_nat j) as -> by lia.
  destruct (fill_loop _ _ _ _ _ _) as [r|e|] eqn:Hloop; [| |done].
  - f_equal. eapply fill_loop_closed; [done | | done].
    apply make_buckets_exhausted.
  - exfalso. eapply fill_loop_not_Raise; [|done]. lia.
Qed.


(** X1.  For [limit] and [per_source] not negative, the selector returns
    the first [limit] items of one sequence: the first [per_source] articles
    of every source of the order, source after source, then, round after
    round, the next article of every source that still has one. *)
Theorem pick_articles_balanced_closed_form
    (articles : list article) (limit per_source : Z)
    (source_order : option (list string)) :
  0 ≤ limit → 0 ≤ per_source →
  pick_articles_balanced articles limit per_source source_order
  = Return (take (Z.to_nat limit)
              (selection_sequence articles per_source source_order)).
Proof. apply pick_articles_balanced_take. Qed.

Lemma pick_articles_balanced_closed_form_witness :
  pick_articles_balanced
    [sample_article "s1" "a0"; sample_article "s2" "b0";
     sample_article "s1" "a1"; sample_article "s1" "a2"] 3 1 None
  = Return (take (Z.to_nat 3)
              (selection_sequence
                 [sample_article "s1" "a0"; sample_article "s2" "b0";
                  sample_article "s1" "a1"; sample_article "s1" "a2"]
                 1 None)).
Proof. apply pick_articles_balanced_closed_form; lia. Defined.

(** X2.  For [limit] and [per_source] not negative and a source order that
    is absent, empty, or names every observed source exactly once, the
    selector returns exactly [limit] articles when there are that many
    candidates, and as many as there are candidates otherwise. *)
Theorem pick_articles_balanced_length
    (articles : list article) (limit per_source : Z)
    (source_order : option (list string)) :
  0 ≤ limit → 0 ≤ per_source →
  order_complete source_order articles →
  ∃ r, pick_articles_balanced articles limit per_source source_order
       = Return r
       ∧ Py.len r = Z.min limit (Py.len articles).
Proof.
  intros Hlimit Hper Horder. eexists. split.
  - by apply pick_articles_balanced_take.
  - unfold Py.len. rewrite length_take.
    rewrite selection_sequence_Permutation.
    apply effective_order_covers, taken_all_make_buckets in Horder.
    rewrite Horder. lia.
Qed.

Lemma pick_articles_balanced_length_witness :
  ∃ r, pick_articles_balanced
         [sample_article "s1" "a0"; sample_article "s2" "b0";
          sample_article "s1" "a1"; sample_article "s1" "a2"] 3 1
         (Some ["zz"; "s2"; "zz"; "s1"])
       = Return r
       ∧ Py.len r
         = Z.min 3 (Py.len [sample_article "s1" "a0"; sample_article "s2" "b0";
                            sample_article "s1" "a1";
                            sample_article "s1" "a2"]).
Proof.
  apply pick_articles_balanced_length; [lia | lia |].
  apply (bool_decide_unpack _). by vm_compute.
Defined.

(** X3.  For [limit] and [per_source] not negative and an explicit order
    without repeated source, the result holds no article more often than
    the input does: nothing is picked twice and nothing is made up. *)
Theorem pick_articles_balanced_no_repeat
    (articles : list article) (limit per_source : Z)
    (source_order : option (list string)) :
  0 ≤ limit → 0 ≤ per_source →
  order_nodup source_order →
  ∃ r, pick_articles_balanced articles limit per_source source_order
       = Return r
       ∧ r ⊆+ articles.
Proof.
  intros Hlimit Hper Hnd. eexists. split.
  - by apply pick_articles_balanced_take.
  - etrans; [apply submseteq_take|].
    rewrite selection_sequence_Permutation.
    by apply taken_all_submseteq, effective_order_NoDup.
Qed.

Lemma pick_articles_balanced_no_repeat_witness :
  ∃ r, pick_articles_balanced
         [sample_article "s1" "a0"; sample_article "s2" "b0";
          sample_article "s1" "a1"] 2 1 (Some ["s2"; "s3"])
       = Return r
       ∧ r ⊆+ [sample_article "s1" "a0"; sample_article "s2" "b0";
               sample_article "s1" "a1"].
Proof.
  apply pick_articles_balanced_no_repeat; [lia | lia |].
  apply (bool_decide_unpack _). by vm_compute.
Defined.

(** X4.  Under the same conditions the articles of any one source stand in
    the result in their input order, earliest first and without gaps: they
    are an initial part of the source's articles as the input lists them. *)
Theorem pick_articles_balanced_keeps_source_order
    (articles : list article) (limit per_source : Z)
    (source_order : option (list string)) (s : string) :
  0 ≤ limit → 0 ≤ per_source →
  order_nodup source_order →
  ∃ r, pick_articles_balanced articles limit per_source source_order
       = Return r
       ∧ filter (λ a, bucket_key a = s) r `prefix_of` bucket_of articles s.
Proof.
  intros Hlimit Hper Hnd. eexists. split.
  - by apply pick_articles_balanced_take.
  - apply (effective_order_NoDup _ articles) in Hnd.
    set (seq := selection_sequence articles per_source source_order).
    assert (filter (λ a, bucket_key a = s) seq `prefix_of`
              bucket_of articles s) as Hseq.
    { unfold seq, selection_sequence.
      rewrite filter_app, filter_taken, filter_rounds
        by (done || apply make_buckets_keyed).
      case_decide; [|apply prefix_nil].
      rewrite bucket_get_make_buckets.
      rewrite (take_ge (bucket_of articles s)
                 (Z.to_nat per_source + length articles)).
      - by rewrite take_drop.
      - pose proof (bucket_of_length articles s). lia. }
    etrans; [|exact Hseq].
    rewrite <- (take_drop (Z.to_nat limit) seq) at 2.
    rewrite filter_app. by apply prefix_app_r.
Qed.

Lemma pick_articles_balanced_keeps_source_order_witness :
  ∃ r, pick_articles_balanced
         [sample_article "s1" "a0"; sample_article "s2" "b0";
          sample_article "s1" "a1"; sample_article "s1" "a2"] 3 1 None
       = Return r
       ∧ filter (λ a, bucket_key a = "s1") r
         `prefix_of` bucket_of
                       [sample_article "s1" "a0"; sample_article "s2" "b0";
                        sample_article "s1" "a1"; sample_article "s1" "a2"]
                       "s1".
Proof.
  apply pick_articles_balanced_keeps_source_order; [lia | lia | exact I].
Defined.

(** ** Translation cache: what a run leaves *)

Section cache_runs.
Variable service : list request → request → reply.
Variable env : environ.
Implicit Types (cache : gmap string cached) (a : article) (w : world).
Implicit Types (articles : list article) (k : string).

Lemma set_zh_zh a t s : set_zh a (zh_title (set_zh a t s))
                          (zh_summary (set_zh a t s)) = set_zh a t s.
Proof. reflexivity. Qed.

(** One round of the loop either skips an article without key, or sets the
    two translated fields and leaves that pair in the cache. *)
Lemma resolve_shape cache a w a' cache' w' :
  resolve service env cache a w = (inr (a', cache'), w') →
  (article_key a = None ∧ a' = a ∧ cache' = cache ∧ w' = w)
  ∨ (∃ k, article_key a = Some k
          ∧ a' = set_zh a (zh_title a') (zh_summary a')
          ∧ cache' !! k = Some (mkCached (zh_title a') (zh_summary a'))
          ∧ cache ⊆ cache').
Proof.
  destruct (article_key a) as [k|] eqn:Hk.
  - intros Hr. right. exists k. split; [done|].
    destruct (cache !! k) as [c|] eqn:Hc.
    + rewrite (resolve_hit _ _ _ _ _ _ _ Hk Hc) in Hr.
      injection Hr as <- <- <-. split; [done|]. split; [|done].
      rewrite Hc. by destruct c.
    + destruct (translate_with_llm_returns service env
                  (default "" (title a)) (description a) (source_name a) w)
        as ([t s] & w1 & Ht).
      rewrite (resolve_miss _ _ _ _ _ _ _ _ _ Hk Hc Ht) in Hr.
      injection Hr as <- <- <-. split; [done|].
      split; [by rewrite lookup_insert_eq | by apply insert_subseteq].
  - rewrite resolve_skip by done. intros [= <- <- <-]. by left.
Qed.

Lemma translate_selected_inv cache a articles w outs cache2 w2 :
  translate_selected service env cache (a :: articles) w
  = (inr (outs, cache2), w2) →
  ∃ a' cache1 w1 rest',
    resolve service env cache a w = (inr (a', cache1), w1)
    ∧ translate_selected service env cache1 articles w1
      = (inr (rest', cache2), w2)
    ∧ outs = a' :: rest'.
Proof.
  rewrite translate_selected_cons.
  destruct (resolve service env cache a w) as [[e|[a' cache1]] w1];
    [discriminate|].
  destruct (translate_selected service env cache1 articles w1)
    as [[e|[rest' c]] w'] eqn:Ht; [discriminate|].
  intros [= <- <- <-]. by eexists _, _, _, _.
Qed.

Lemma translate_selected_subseteq cache articles w outs cache' w' :
  translate_selected service env cache articles w
  = (inr (outs, cache'), w') →
  cache ⊆ cache'.
Proof.
  intros H.
  destruct (translate_selected_spec service env cache articles w)
    as (o & c & w0 & Ht & Hsub & _).
  rewrite Ht in H. by injection H as <- <- <-.
Qed.

End cache_runs.

(** Once the loop has run over a list of articles, running it again over
    the same list, from the cache it left or a later one, is all cache
    hits. *)
Lemma translate_selected_again
    (service service2 : list request → request → reply) (env env2 : environ)
    (articles : list article) :
  ∀ cache w outs cache1 w1 cache2 w2,
    translate_selected service env cache articles w
    = (inr (outs, cache1), w1) →
    cache1 ⊆ cache2 →
    translate_selected service2 env2 cache2 articles w2
    = (inr (outs, cache2), w2).
Proof.
  induction articles as [|a articles IH];
    intros cache w outs cache1 w1 cache2 w2 Hrun Hsub.
  - by injection Hrun as <- <- <-.
  - apply translate_selected_inv in Hrun
      as (a' & c' & w' & rest' & Hr & Ht & ->).
    rewrite translate_selected_cons.
    pose proof (translate_selected_subseteq _ _ _ _ _ _ _ _ Ht) as Hsub'.
    apply resolve_shape in Hr
      as [(Hk & -> & -> & ->) | (k & Hk & Ha' & Hc' & _)].
    + by rewrite resolve_skip, (IH _ _ _ _ _ cache2 w2 Ht Hsub).
    + assert (cache2 !! k = Some (mkCached (zh_title a') (zh_summary a')))
        as Hc2.
      { eapply lookup_weaken; [|exact Hsub].
        by eapply lookup_weaken. }
      rewrite (resolve_hit _ _ _ _ _ _ _ Hk Hc2).
      cbn [cached_zh_title cached_zh_summary]. rewrite <- Ha'.
      by rewrite (IH _ _ _ _ _ cache2 w2 Ht Hsub).
Qed.

(** X5.  A run that is repeated on the same articles, with the cache file
    the first run wrote, is idle: whatever backend and environment it has,
    it calls no backend and prints nothing, gives the articles the same
    pairs, and writes the cache file back unchanged. *)
Theorem second_run_is_idle
    (service service2 : list request → request → reply) (env env2 : environ)
    (file file1 : option (gmap string cached)) (articles outs : list article)
    (w w1 w2 : world) :
  translate_and_persist service env file articles w = (inr outs, file1, w1) →
  translate_and_persist service2 env2 file1 articles w2
  = (inr outs, file1, w2).
Proof.
  unfold translate_and_persist.
  destruct (translate_selected service env (load_cache file) articles w)
    as [[e|[outs' cache1]] w'] eqn:Hrun; [discriminate|].
  intros [= <- <- <-]. change (load_cache (Some cache1)) with cache1.
  by rewrite (translate_selected_again _ _ _ _ _ _ _ _ _ _ cache1 w2 Hrun).
Qed.

Lemma second_run_is_idle_witness :
  translate_and_persist failing_service (mkEnviron "other" "")
    (Some {[ "u" := mkCached (Some "t") (Some "s") ]})
    [sample_linked "Title" "u"] (mkWorld [] [])
  = (inr [set_zh (sample_linked "Title" "u") (Some "t") (Some "s")],
     Some {[ "u" := mkCached (Some "t") (Some "s") ]}, mkWorld [] []).
Proof.
  apply (second_run_is_idle (constant_service "t" "s") failing_service
           (mkEnviron "" "key") (mkEnviron "other" "") None _ _ _
           (mkWorld [] [])
           (mkWorld [mkRequest OpenAI "Title" (Some "")
                       (Some "Hacker News")] [])).
  by vm_compute.
Defined.

(** X6.  The template that stands in for a failed backend call is cached
    like a translation: the article gets the template pair, and so does
    every article with the same key that is resolved later, in the same run
    or in a later run on the written cache, also when the backend works
    again by then; the backend is not asked a second time. *)
Theorem failed_translation_is_cached
    (service : list request → request → reply) (env : environ)
    (c : gmap string cached) (a : article) (w : world)
    (k : string) (e : exn) :
  has_api_key env = true →
  article_key a = Some k →
  c !! k = None →
  service (calls w) (article_request env a) = Failed e →
  ∃ c1 w1,
    resolve service env c a w
    = (inr (set_zh a (Some (default "" (title a)))
              (Some (fallback_summary
                       (Py.or_else (source_name a) DEFAULT_SOURCE))), c1),
       w1)
    ∧ ∀ service2 env2 c2 a2 w2,
        later_cache c1 c2 → article_key a2 = Some k →
        resolve service2 env2 c2 a2 w2
        = (inr (set_zh a2 (Some (default "" (title a)))
                  (Some (fallback_summary
                           (Py.or_else (source_name a) DEFAULT_SOURCE))),
                c2),
           w2).
Proof.
  intros Hkey Hk Hc Hfail.
  assert (translate_title_and_summary service env (default "" (title a))
            (Some (Py.or_else (description a) "")) (source_name a) w
          = (inl (propagated env e),
             {| calls := calls w ++ [article_request env a];
                stderr := stderr w |})) as Hcall.
  { rewrite translate_title_and_summary_call by done.
    fold (article_request env a). by rewrite Hfail. }
  pose proof (translate_with_llm_caught _ _ _ _ _ _ _ _ Hkey Hcall) as Ht.
  eexists _, _. split; [by apply (resolve_miss _ _ _ _ _ _ _ _ _ Hk Hc Ht)|].
  intros service2 env2 c2 a2 w2 Hlater Hk2.
  apply later_cache_subseteq in Hlater.
  rewrite (resolve_hit _ _ c2 a2 w2 k
             (mkCached (Some (default "" (title a)))
                (Some (fallback_summary
                         (Py.or_else (source_name a) DEFAULT_SOURCE)))));
    [done | done |].
  eapply lookup_weaken; [|exact Hlater]. apply lookup_insert_eq.
Qed.

Lemma failed_translation_is_cached_witness :
  ∃ c1 w1,
    resolve failing_service (mkEnviron "key" "") ∅
      (sample_linked "Title" "u") (mkWorld [] [])
    = (inr (set_zh (sample_linked "Title" "u") (Some "Title")
              (Some (fallback_summary "Hacker News")), c1), w1)
    ∧ resolve (constant_service "t" "s") (mkEnviron "key" "") c1
        (sample_linked "Changed" "u") (mkWorld [] [])
      = (inr (set_zh (sample_linked "Changed" "u") (Some "Title")
                (Some (fallback_summary "Hacker News")), c1),
         mkWorld [] []).
Proof.
  destruct (failed_translation_is_cached failing_service
              (mkEnviron "key" "") ∅ (sample_linked "Title" "u")
              (mkWorld [] []) "u" (Exn "URLError" "timed out")
              eq_refl eq_refl (lookup_empty "u") eq_refl)
    as (c1 & w1 & Hfirst & Hlater).
  exists c1, w1. split; [exact Hfirst|].
  exact (Hlater (constant_service "t" "s") (mkEnviron "key" "") c1
           (sample_linked "Changed" "u") (mkWorld [] [])
           (later_now c1) eq_refl).
Defined.

Lemma translate_selected_resolved
    (service : list request → request → reply) (env : environ)
    (articles : list article) :
  ∀ cache w outs cache' w',
    translate_selected service env cache articles w
    = (inr (outs, cache'), w') →
    Forall2 (resolved_from cache') articles outs.
Proof.
  induction articles as [|a articles IH]; intros cache w outs cache' w' Hrun.
  - injection Hrun as <- <- <-. constructor.
  - apply translate_selected_inv in Hrun
      as (a' & c1 & w1 & rest' & Hr & Ht & ->).
    constructor; [|by eapply IH].
    pose proof (translate_selected_subseteq _ _ _ _ _ _ _ _ Ht) as Hsub.
    unfold resolved_from.
    apply resolve_shape in Hr
      as [(Hk & -> & -> & ->) | (k & Hk & Ha' & Hc' & _)]; rewrite Hk.
    + done.
    + split; [done|]. by eapply lookup_weaken.
Qed.

(** X7.  After the translation step every article is in its place with its
    own fields; an article without key is untouched, and an article with a
    key carries in its two translated fields exactly the pair that the
    written cache file holds under that key. *)
Theorem run_pairs_match_cache
    (service : list request → request → reply) (env : environ)
    (file file' : option (gmap string cached)) (articles outs : list article)
    (w w' : world) :
  translate_and_persist service env file articles w = (inr outs, file', w') →
  ∃ cache', file' = Some cache'
            ∧ Forall2 (resolved_from cache') articles outs.
Proof.
  unfold translate_and_persist.
  destruct (translate_selected service env (load_cache file) articles w)
    as [[e|[outs' cache1]] w1] eqn:Hrun; [discriminate|].
  intros [= <- <- <-]. exists cache1. split; [done|].
  by eapply translate_selected_resolved.
Qed.

Lemma run_pairs_match_cache_witness :
  ∃ cache', Some {[ "u" := mkCached (Some "t") (Some "s") ]} = Some cache'
            ∧ Forall2 (resolved_from cache')
                [sample_linked "Title" "u"]
                [set_zh (sample_linked "Title" "u") (Some "t") (Some "s")].
Proof.
  apply (run_pairs_match_cache (constant_service "t" "s")
           (mkEnviron "" "key") None _ _ _ (mkWorld [] [])
           (mkWorld [mkRequest OpenAI "Title" (Some "")
                       (Some "Hacker News")] [])).
  by vm_compute.
Defined.

Section backend_calls.
Variable service : list request → request → reply.
Variable env : environ.

Lemma translate_with_llm_calls title description source_name w r w' :
  has_api_key env = true →
  translate_with_llm service env title description source_name w = (r, w') →
  calls w'
  = calls w ++ [mkRequest (chosen_backend env) title
                  (Some (Py.or_else description "")) source_name].
Proof.
  intros Hkey.
  pose proof (translate_title_and_summary_call service env title
                (Some (Py.or_else description "")) source_name w Hkey)
    as Hcall.
  destruct (service _ _) as [t s|e].
  - rewrite (translate_with_llm_ok _ _ _ _ _ _ _ _ Hkey Hcall).
    by intros [= _ <-].
  - rewrite (translate_with_llm_caught _ _ _ _ _ _ _ _ Hkey Hcall).
    by intros [= _ <-].
Qed.

Lemma article_keys_cons_Some a articles k :
  article_key a = Some k →
  article_keys (a :: articles) = {[k]} ∪ article_keys articles.
Proof. intros H. unfold article_keys. cbn. by rewrite H. Qed.

Lemma article_keys_cons_None a articles :
  article_key a = None → article_keys (a :: articles) = article_keys articles.
Proof. intros H. unfold article_keys. cbn. by rewrite H. Qed.

Lemma size_new_key (k : string) (ks ds : gset string) :
  k ∉ ds →
  size (({[k]} ∪ ks) ∖ ds) = S (size (ks ∖ ({[k]} ∪ ds))).
Proof.
  intros Hk.
  assert (({[k]} ∪ ks) ∖ ds = {[k]} ∪ (ks ∖ ({[k]} ∪ ds))) as Heq.
  { apply set_eq. intros x.
    rewrite !elem_of_union, !elem_of_difference, !elem_of_union,
      !elem_of_singleton.
    destruct (decide (x = k)) as [->|]; tauto. }
  rewrite Heq, size_union.
  - by rewrite size_singleton.
  - intros x Hx [_ Hnot]%elem_of_difference.
    apply Hnot, elem_of_union. by left.
Qed.

Lemma translate_selected_calls (articles : list article) :
  has_api_key env = true →
  ∀ cache w outs cache' w',
    translate_selected service env cache articles w
    = (inr (outs, cache'), w') →
    ∃ new, calls w' = calls w ++ new
           ∧ length new = size (article_keys articles ∖ dom cache).
Proof.
  intros Hkey.
  induction articles as [|a articles IH]; intros cache w outs cache' w' Hrun.
  - injection Hrun as <- <- <-. exists []. split; [by rewrite app_nil_r|].
    symmetry. apply size_empty_iff, elem_of_equiv_empty.
    intros x [Hx _]%elem_of_difference. by apply not_elem_of_empty in Hx.
  - apply translate_selected_inv in Hrun
      as (a' & c1 & w1 & rest' & Hr & Ht & ->).
    destruct (IH _ _ _ _ _ Ht) as (new & Hnew & Hlen).
    destruct (article_key a) as [k|] eqn:Hk.
    + destruct (cache !! k) as [c|] eqn:Hc.
      * rewrite (resolve_hit _ _ _ _ _ _ _ Hk Hc) in Hr.
        injection Hr as <- <- <-. exists new. split; [done|].
        rewrite Hlen, (article_keys_cons_Some _ _ _ Hk). f_equal.
        assert (k ∈ dom cache) as Hin by (apply elem_of_dom; eauto).
        apply set_eq. intros x.
        rewrite !elem_of_difference, elem_of_union, elem_of_singleton.
        split; [tauto|]. intros [[->|?] ?]; [done | tauto].
      * unfold resolve, bind, ret in Hr. rewrite Hk, Hc in Hr.
        destruct (translate_with_llm service env (default "" (title a))
                    (description a) (source_name a) w)
          as [[e|[t s]] w0] eqn:Htr; [discriminate|].
        injection Hr as <- <- <-.
        apply translate_with_llm_calls in Htr; [|done].
        eexists (_ :: new). split.
        -- by rewrite Hnew, Htr, <- app_assoc.
        -- cbn [length]. rewrite Hlen, dom_insert_L.
           rewrite (article_keys_cons_Some _ _ _ Hk), size_new_key; [done|].
           by apply not_elem_of_dom.
    + rewrite resolve_skip in Hr by done. injection Hr as <- <- <-.
      exists new. by rewrite article_keys_cons_None.
Qed.

End backend_calls.

(** X8.  A run calls the backend once for every distinct key of its
    articles that the cache file does not hold, and not at all when no
    backend is configured: repeated keys, cached keys and articles without
    key cost no call. *)
Theorem backend_calls_per_new_key
    (service : list request → request → reply) (env : environ)
    (file file' : option (gmap string cached)) (articles outs : list article)
    (w w' : world) :
  translate_and_persist service env file articles w = (inr outs, file', w') →
  ∃ new, calls w' = calls w ++ new
         ∧ length new
           = if has_api_key env
             then size (article_keys articles ∖ dom (load_cache file))
             else 0%nat.
Proof.
  unfold translate_and_persist.
  destruct (translate_selected service env (load_cache file) articles w)
    as [[e|[outs' cache1]] w1] eqn:Hrun; [discriminate|].
  intros [= <- <- <-]. destruct (has_api_key env) eqn:Hkey.
  - by eapply translate_selected_calls.
  - exists []. rewrite app_nil_r. split; [|done].
    by eapply translate_selected_no_key_calls.
Qed.

Lemma backend_calls_per_new_key_witness :
  ∃ new,
    calls (mkWorld [mkRequest OpenAI "Title" (Some "") (Some "Hacker News")]
             [])
    = calls (mkWorld [] []) ++ new
    ∧ length new
      = if has_api_key (mkEnviron "" "key")
        then size (article_keys [sample_linked "Title" "u";
                                 sample_linked "Again" "u";
                                 sample_linked "Old" "v"]
                   ∖ dom (load_cache
                            (Some {[ "v" := mkCached (Some "t0")
                                              (Some "s0") ]})))
        else 0%nat.
Proof.
  eapply (backend_calls_per_new_key (constant_service "t" "s")
            (mkEnviron "" "key")
            (Some {[ "v" := mkCached (Some "t0") (Some "s0") ]}) _
            [sample_linked "Title" "u"; sample_linked "Again" "u";
             sample_linked "Old" "v"] _ (mkWorld [] [])).
  by vm_compute.
Defined.

(** ** Link extraction *)

Section link_scanning.
Implicit Types (s g rest u r : string).

Lemma string_length_app s1 s2 :
  String.length (s1 +:+ s2) = (String.length s1 + String.length s2)%nat.
Proof.
  induction s1 as [|c s1 IH]; [done|].
  rewrite append_cons. cbn [String.length]. by rewrite IH.
Qed.

Lemma until_paren_spec s g rest :
  until_paren s = Some (g, rest) →
  s = g +:+ ")" +:+ rest ∧ has_char ")" g = false.
Proof.
  revert g. induction s as [|c s IH]; intros g; [discriminate|].
  cbn [until_paren]. destruct (Ascii.eqb_spec c ")") as [->|Hc].
  - by intros [= <- <-].
  - destruct (until_paren s) as [[g' rest']|]; [|discriminate].
    intros [= <- <-]. destruct (IH g' eq_refl) as [-> Hg].
    split; [done|]. cbn [has_char]. rewrite Hg, orb_false_r.
    apply Ascii.eqb_neq. congruence.
Qed.

Lemma until_paren_app u r :
  has_char ")" u = false → until_paren (u +:+ ")" +:+ r) = Some (u, r).
Proof.
  induction u as [|c u IH]; [done|].
  cbn [has_char]. intros [Hc Hu]%orb_false_elim.
  rewrite append_cons. cbn [until_paren].
  rewrite Ascii.eqb_sym, Hc. by rewrite IH.
Qed.

Lemma string_drop_app s1 s2 :
  string_drop (String.length s1) (s1 +:+ s2) = s2.
Proof. induction s1 as [|c s1 IH]; [by destruct s2 | done]. Qed.

Lemma match_link_spec s g rest :
  match_link s = Some (g, rest) →
  s = LINK_MARKER +:+ g +:+ ")" +:+ rest
  ∧ g ≠ "" ∧ has_char ")" g = false.
Proof.
  unfold match_link.
  destruct (String.prefix LINK_MARKER s) eqn:Hp; [|discriminate].
  apply prefix_spec in Hp as [post ->]. rewrite string_drop_app.
  destruct (until_paren post) as [[g' rest']|] eqn:Hu; [|discriminate].
  apply until_paren_spec in Hu as [-> Hg].
  destruct g' as [|c g']; [discriminate|]. by intros [= <- <-].
Qed.

Lemma match_link_intro u r :
  good_link u = true →
  match_link (LINK_MARKER +:+ u +:+ ")" +:+ r) = Some (u, r).
Proof.
  unfold good_link. intros [Hne Hp]%andb_true_iff.
  apply negb_true_iff in Hne, Hp. unfold match_link.
  rewrite (proj2 (prefix_spec LINK_MARKER _)) by eauto.
  rewrite string_drop_app, until_paren_app by done.
  destruct u; [discriminate | done].
Qed.

Lemma find_links_fuel fuel1 :
  ∀ fuel2 s,
    (String.length s < fuel1)%nat → (String.length s < fuel2)%nat →
    find_links fuel1 s = find_links fuel2 s.
Proof.
  induction fuel1 as [|fuel1 IH]; intros fuel2 s H1 H2; [lia|].
  destruct fuel2 as [|fuel2]; [lia|]. cbn [find_links].
  destruct (match_link s) as [[g rest]|] eqn:Hm.
  - apply match_link_spec in Hm as (-> & _ & _). f_equal.
    rewrite !string_length_app in H1, H2.
    apply IH; rewrite ?string_length_app; cbn [String.length] in *; lia.
  - destruct s as [|c s]; [done|]. cbn [String.length] in *.
    apply IH; lia.
Qed.

Lemma find_links_S fuel s :
  find_links (S fuel) s
  = match match_link s with
    | Some (g, rest) => g :: find_links fuel rest
    | None =>
        match s with
        | EmptyString => []
        | String _ s' => find_links fuel s'
        end
    end.
Proof. reflexivity. Qed.

Lemma extract_links_skip c s :
  match_link (String c s) = None →
  extract_links (String c s) = extract_links s.
Proof.
  intros H. unfold extract_links. by rewrite find_links_S, H.
Qed.

Lemma extract_links_match s g rest :
  match_link s = Some (g, rest) →
  extract_links s = g :: extract_links rest.
Proof.
  intros H. unfold extract_links. rewrite find_links_S, H. f_equal.
  apply match_link_spec in H as (-> & _ & _).
  apply find_links_fuel; rewrite ?string_length_app;
    cbn [String.length]; lia.
Qed.

Lemma extract_links_nil : extract_links "" = [].
Proof. reflexivity. Qed.

(** An inert text in front changes nothing. *)
Lemma inert_cons_no_match c s r :
  inert (String c s) = true → match_link (String c (s +:+ r)) = None.
Proof.
  cbn [inert]. intros [Hc _]%andb_true_iff. unfold match_link.
  destruct (String.prefix LINK_MARKER (String c (s +:+ r))) eqn:Hp; [|done].
  exfalso. unfold LINK_MARKER in Hp. cbn [String.prefix] in Hp.
  destruct (Ascii.ascii_dec "[" c) as [<-|]; [|discriminate].
  cbn in Hc. destruct s as [|d s]; [discriminate|].
  rewrite append_cons in Hp. cbn [String.prefix] in Hp.
  destruct (Ascii.ascii_dec "229" d) as [<-|]; [|discriminate].
  discriminate Hc.
Qed.

Lemma extract_links_inert p r :
  inert p = true → extract_links (p +:+ r) = extract_links r.
Proof.
  induction p as [|c p IH]; [done|]. intros Hp.
  rewrite append_cons, extract_links_skip by by apply inert_cons_no_match.
  apply IH. cbn [inert] in Hp. by apply andb_true_iff in Hp as [_ ?].
Qed.

Lemma extract_links_link u r :
  good_link u = true →
  extract_links (LINK_MARKER +:+ u +:+ ")" +:+ r) = u :: extract_links r.
Proof. intros H. by apply extract_links_match, match_link_intro. Qed.

Lemma inert_app s1 s2 :
  inert s1 = true → inert s2 = true → inert (s1 +:+ s2) = true.
Proof.
  intros H1 H2. induction s1 as [|c s1 IH]; [done|].
  rewrite append_cons. cbn [inert] in *.
  apply andb_true_iff in H1 as [Hc H1]. rewrite IH by done.
  rewrite andb_true_r.
  destruct (Ascii.eqb c "["); [|done].
  destruct s1 as [|d s1]; [discriminate|]. by rewrite append_cons.
Qed.

Lemma find_links_elem fuel :
  ∀ s l, l ∈ find_links fuel s →
    (∃ pre post, s = pre +:+ LINK_MARKER +:+ l +:+ ")" +:+ post)
    ∧ l ≠ "" ∧ has_char ")" l = false.
Proof.
  induction fuel as [|fuel IH]; intros s l; [by intros H; inversion H|].
  cbn [find_links]. destruct (match_link s) as [[g rest]|] eqn:Hm.
  - pose proof (match_link_spec _ _ _ Hm) as (-> & Hne & Hp).
    intros [->|Hin]%elem_of_cons.
    + split; [by exists "", rest | done].
    + destruct (IH _ _ Hin) as ((pre & post & ->) & ? & ?).
      split; [|done].
      exists (LINK_MARKER +:+ g +:+ ")" +:+ pre), post.
      by rewrite !string_app_assoc.
  - destruct s as [|c s]; [by intros H; inversion H|].
    intros Hin. destruct (IH _ _ Hin) as ((pre & post & ->) & ? & ?).
    split; [|done]. by exists (String c pre), post.
Qed.

End link_scanning.

(** X9.  Every link that [extract_links] returns stands in the text between
    the marker and a closing parenthesis; it is not empty and has no
    closing parenthesis itself. *)
Theorem extract_links_sound (content l : string) :
  l ∈ extract_links content →
  (∃ pre post, content = pre +:+ LINK_MARKER +:+ l +:+ ")" +:+ post)
  ∧ l ≠ "" ∧ has_char ")" l = false.
Proof. apply find_links_elem. Qed.

Lemma extract_links_sound_witness :
  (∃ pre post,
     "see [原文链接](https://a.example/1) and more"
     = pre +:+ LINK_MARKER +:+ "https://a.example/1" +:+ ")" +:+ post)
  ∧ "https://a.example/1" ≠ "" ∧ has_char ")" "https://a.example/1" = false.
Proof.
  apply (extract_links_sound "see [原文链接](https://a.example/1) and more").
  apply (bool_decide_unpack _). by vm_compute.
Defined.

(** ** Publication renderer *)

Section rendered_lines.
Implicit Types (ls : list string) (us : list string) (l u : string).

Lemma string_app_nil_r s : s +:+ "" = s.
Proof. induction s as [|c s IH]; [done|]. by rewrite append_cons, IH. Qed.

Lemma concat_cons2 sep x y ls :
  String.concat sep (x :: y :: ls)
  = x +:+ sep +:+ String.concat sep (y :: ls).
Proof. reflexivity. Qed.

Lemma lines_links_nil_inv us : lines_links [] us → us = [].
Proof. by inversion 1. Qed.

Lemma lines_links_app ls1 us1 ls2 us2 :
  lines_links ls1 us1 → lines_links ls2 us2 →
  lines_links (ls1 ++ ls2) (us1 ++ us2).
Proof.
  induction 1 as [|l ls us Hl _ IH|u ls us Hu _ IH]; intros H2; cbn [app].
  - done.
  - by apply lines_inert, IH.
  - by apply lines_link, IH.
Qed.

Lemma lines_links_inert ls :
  Forall (λ l, inert l = true) ls → lines_links ls [].
Proof. induction 1; [constructor | by apply lines_inert]. Qed.

Lemma lines_links_app_inert ls us ls2 :
  lines_links ls us → Forall (λ l, inert l = true) ls2 →
  lines_links (ls ++ ls2) us.
Proof.
  intros H1 H2. rewrite <- (app_nil_r us).
  by apply lines_links_app, lines_links_inert.
Qed.

Lemma link_line_app u tail :
  link_line u +:+ tail = "📎 " +:+ LINK_MARKER +:+ u +:+ ")" +:+ tail.
Proof.
  unfold link_line.
  change "📎 [原文链接](" with ("📎 " +:+ LINK_MARKER).
  by rewrite !string_app_assoc.
Qed.

(** Joining the lines and extracting the links gives the links back. *)
Lemma extract_links_lines ls us :
  lines_links ls us → extract_links (String.concat nl ls) = us.
Proof.
  induction 1 as [|l ls us Hl Hls IH|u ls us Hu Hls IH].
  - done.
  - destruct ls as [|l2 ls].
    + apply lines_links_nil_inv in Hls as ->. cbn [String.concat].
      by rewrite <- (string_app_nil_r l), extract_links_inert.
    + rewrite concat_cons2, !extract_links_inert by done. exact IH.
  - destruct ls as [|l2 ls].
    + apply lines_links_nil_inv in Hls as ->. cbn [String.concat].
      rewrite <- (string_app_nil_r (link_line u)), link_line_app.
      by rewrite extract_links_inert, extract_links_link.
    + rewrite concat_cons2, link_line_app.
      rewrite extract_links_inert, extract_links_link by done.
      by rewrite extract_links_inert, IH.
Qed.

Lemma inert_concat sep ls :
  inert sep = true → Forall (λ l, inert l = true) ls →
  inert (String.concat sep ls) = true.
Proof.
  intros Hsep. induction 1 as [|l ls Hl Hls IH]; [done|].
  destruct ls as [|l2 ls]; [done|].
  rewrite concat_cons2. by repeat apply inert_app.
Qed.

Lemma inert_string_of_uint d :
  inert (DecimalString.NilEmpty.string_of_uint d) = true.
Proof. induction d; cbn; by rewrite ?IHd. Qed.

Lemma inert_str_nat n : inert (str_nat n) = true.
Proof.
  unfold str_nat, DecimalString.NilZero.string_of_uint.
  destruct (Nat.to_uint n); [done | apply (inert_string_of_uint (_ _))..].
Qed.

Lemma inert_str_02d n : inert (str_02d n) = true.
Proof.
  unfold str_02d. destruct (n <? 10)%nat; [|apply inert_str_nat].
  apply inert_app; [done | apply inert_str_nat].
Qed.

Lemma truthy_Some x t : Py.truthy x = Some t → x = Some t.
Proof.
  unfold Py.truthy. destruct x as [s|]; [|discriminate].
  destruct (String.eqb s ""); [discriminate | done].
Qed.

End rendered_lines.

Ltac solve_inert :=
  repeat first
    [ assumption
    | reflexivity
    | apply inert_str_nat
    | apply inert_str_02d
    | apply inert_app ].

Section renderer_facts.
Variable set_order : list string → list string.
Variables hour minute : nat.
Hypothesis set_order_ok : set_order_sound set_order.
Implicit Types (articles items : list article) (a item : article).

Lemma well_formed_item_fields a :
  well_formed_item a = true →
  inert (default "" (title a)) = true
  ∧ inert (default "" (zh_title a)) = true
  ∧ inert (default "" (zh_summary a)) = true
  ∧ inert (default "" (comments a)) = true
  ∧ ∀ u, link a = Some u → inert u = true ∧ good_link u = true.
Proof.
  unfold well_formed_item. rewrite !andb_true_iff.
  intros ((((? & ?) & ?) & ?) & Hl). repeat split; try done;
    match goal with Hu : link a = Some _ |- _ => rewrite Hu in Hl end;
    by apply andb_true_iff in Hl as [? ?].
Qed.

Lemma render_item_lines with_images item lines :
  well_formed_item item = true →
  render_item with_images item = inr lines →
  ∃ u, link item = Some u ∧ lines_links lines [u].
Proof.
  intros (Ht & Hzt & Hzs & Hc & Hl)%well_formed_item_fields.
  unfold render_item.
  assert (∀ t, match Py.truthy (zh_title item) with
               | Some t => inr t
               | None => match title item with
                         | Some t => inr t
                         | None => inl (KeyError "title")
                         end
               end = inr t → inert t = true) as Htitle.
  { intros t. destruct (Py.truthy (zh_title item)) as [t'|] eqn:E.
    - apply truthy_Some in E. rewrite E in Hzt. by intros [= <-].
    - destruct (title item) as [t'|]; [|discriminate].
      by intros [= <-]. }
  destruct (match Py.truthy (zh_title item) with
            | Some t => inr t
            | None => _ end) as [e|t]; [discriminate|].
  specialize (Htitle t eq_refl).
  destruct (Py.truthy (zh_summary item)) as [s|] eqn:Es; [|discriminate].
  apply truthy_Some in Es. rewrite Es in Hzs.
  destruct (link item) as [u|]; [|discriminate].
  destruct (Hl u eq_refl) as [Hu Hgood].
  intros [= <-]. exists u. split; [done|].
  apply (lines_links_app [_; _] [] _ [u]).
  { apply lines_links_inert. repeat constructor; solve_inert. }
  apply (lines_links_app _ [] _ [u]).
  { apply lines_links_inert.
    destruct with_images; repeat constructor; solve_inert. }
  apply (lines_links_app [_; _] [] _ [u]).
  { apply lines_links_inert. repeat constructor; solve_inert. }
  apply (lines_links_app _ [] _ [u]).
  { apply lines_links_inert.
    destruct (Py.truthy (comments item)) as [c|] eqn:Ec; [|constructor].
    apply truthy_Some in Ec. rewrite Ec in Hc.
    repeat constructor; solve_inert. }
  apply lines_link; [done|].
  apply lines_links_inert. repeat constructor; solve_inert.
Qed.

Lemma render_items_lines with_images items lines :
  Forall (λ a, well_formed_item a = true) items →
  render_items with_images items = inr lines →
  lines_links lines (omap link items).
Proof.
  intros Hwf. revert lines.
  induction Hwf as [|item items Hitem Hitems IH]; intros lines.
  - intros [= <-]. constructor.
  - cbn [render_items].
    destruct (render_item with_images item) as [e|l1] eqn:E1; [discriminate|].
    destruct (render_items with_images items) as [e|l2]; [discriminate|].
    intros [= <-].
    destruct (render_item_lines _ _ _ Hitem E1) as (u & Hu & Hl1).
    cbn [omap list_omap]. rewrite Hu.
    by apply (lines_links_app _ [u]), IH.
Qed.

Lemma render_categories_lines with_images
    (grouped : gmap string (list article)) cats body :
  Forall (λ cat, inert cat = true) cats →
  (∀ cat items, cat ∈ cats → grouped !! cat = Some items →
     Forall (λ a, well_formed_item a = true) items) →
  render_categories with_images grouped cats = inr body →
  lines_links body
    (omap link (flat_map (λ cat, default [] (grouped !! cat)) cats)).
Proof.
  intros Hcats. revert body.
  induction Hcats as [|cat cats Hcat Hcats IH]; intros body Hwf.
  - intros [= <-]. constructor.
  - cbn [render_categories flat_map].
    assert (∀ c items, c ∈ cats → grouped !! c = Some items →
              Forall (λ a, well_formed_item a = true) items) as Hwf'.
    { intros c items Hc. apply Hwf. by right. }
    destruct (grouped !! cat) as [items|] eqn:Eg; [|discriminate].
    destruct items as [|item items].
    + intros Hr. by apply IH.
    + destruct (render_items with_images (item :: items)) as [e|l1] eqn:E1;
        [discriminate|].
      destruct (render_categories with_images grouped cats) as [e|l2];
        [discriminate|].
      intros [= <-]. rewrite omap_app. cbn [default].
      apply (lines_links_app [_; _] []).
      { apply lines_links_inert. repeat constructor; solve_inert. }
      apply lines_links_app; [|by apply IH].
      eapply render_items_lines; [|done]. eapply Hwf; [left | done].
Qed.

End renderer_facts.

Section grouping.
Implicit Types (grouped : gmap string (list article)).
Implicit Types (articles : list article) (cat : string).

Lemma categorize_in_CATEGORIES t : categorize t ∈ CATEGORIES.
Proof.
  unfold categorize, CATEGORIES.
  repeat (match goal with |- context [Py.any_in ?ks ?t] =>
            destruct (Py.any_in ks t) end);
    rewrite !elem_of_cons; tauto.
Qed.

Lemma group_add_inv grouped a grouped' :
  group_add grouped a = inr grouped' →
  ∃ t items, title a = Some t ∧ grouped !! categorize t = Some items
             ∧ grouped' = <[categorize t := items ++ [a]]> grouped.
Proof.
  unfold group_add. destruct (title a) as [t|]; [|discriminate].
  destruct (grouped !! categorize t) as [items|] eqn:E; [|discriminate].
  intros [= <-]. by exists t, items.
Qed.

(** The grouping loop appends to the list of every category the articles
    of that category, in input order. *)
Lemma group_articles_lookup articles :
  ∀ grouped grouped' cat,
    group_articles grouped articles = inr grouped' →
    grouped' !! cat
    = (λ items, items ++ filter (λ a, item_category a = cat) articles)
        <$> grouped !! cat.
Proof.
  induction articles as [|a articles IH]; intros grouped grouped' cat.
  - intros [= <-]. destruct (grouped !! cat); cbn; [|done].
    by rewrite app_nil_r.
  - cbn [group_articles].
    destruct (group_add grouped a) as [e|g1] eqn:E1; [discriminate|].
    intros Hrest. rewrite (IH _ _ cat Hrest).
    apply group_add_inv in E1 as (t & items & Ht & Hitems & ->).
    rewrite filter_cons.
    assert (item_category a = categorize t) as ->
      by (unfold item_category; by rewrite Ht).
    destruct (decide (categorize t = cat)) as [<-|Hne].
    + rewrite lookup_insert_eq, Hitems. cbn. by rewrite <- app_assoc.
    + by rewrite lookup_insert_ne.
Qed.

Lemma group_articles_titles articles :
  ∀ grouped grouped',
    group_articles grouped articles = inr grouped' →
    Forall (λ a, title a ≠ None) articles.
Proof.
  induction articles as [|a articles IH]; intros grouped grouped';
    [constructor|].
  cbn [group_articles].
  destruct (group_add grouped a) as [e|g1] eqn:E1; [discriminate|].
  intros Hrest. constructor; [|by eapply IH].
  apply group_add_inv in E1 as (t & _ & -> & _). done.
Qed.

Lemma empty_groups_lookup cat :
  cat ∈ CATEGORIES → empty_groups !! cat = Some [].
Proof.
  unfold CATEGORIES. rewrite !elem_of_cons, elem_of_nil.
  intros [->|[->|[->|[->|[->|[]]]]]]; by vm_compute.
Qed.

Lemma grouped_lookup articles grouped cat :
  group_articles empty_groups articles = inr grouped →
  cat ∈ CATEGORIES →
  grouped !! cat = Some (filter (λ a, item_category a = cat) articles).
Proof.
  intros Hg Hcat.
  by rewrite (group_articles_lookup _ _ _ cat Hg), empty_groups_lookup.
Qed.

(** Lists filtered by key, taken for every key once, partition the list. *)
Lemma flat_map_filter_Permutation {A K} `{EqDecision K}
    (key : A → K) (ks : list K) (l : list A) :
  NoDup ks → (∀ a, a ∈ l → key a ∈ ks) →
  flat_map (λ k, filter (λ a, key a = k) l) ks ≡ₚ l.
Proof.
  revert l. induction ks as [|k ks IH]; intros l Hnd Hcov.
  - destruct l as [|a l]; [done|].
    exfalso. specialize (Hcov a ltac:(left)). inversion Hcov.
  - apply NoDup_cons in Hnd as [Hk Hnd]. cbn [flat_map].
    set (others := filter (λ a, ¬ key a = k) l).
    assert (flat_map (λ k', filter (λ a, key a = k') l) ks
            = flat_map (λ k', filter (λ a, key a = k') others) ks) as ->.
    { apply flat_map_ext_elem_of. intros k' Hk'.
      unfold others. rewrite list_filter_filter.
      apply list_filter_iff. intros a. split; [|tauto].
      intros Ha. split; [done|]. intros Hb. apply Hk. congruence. }
    rewrite IH.
    + apply filter_app_complement.
    + done.
    + intros a [Hne Ha]%list_elem_of_filter.
      specialize (Hcov a Ha). apply elem_of_cons in Hcov as [?|?]; done.
Qed.

Lemma rendered_order_Permutation articles :
  rendered_order articles ≡ₚ articles.
Proof.
  unfold rendered_order. apply flat_map_filter_Permutation.
  - apply (bool_decide_unpack _). by vm_compute.
  - intros a _. apply categorize_in_CATEGORIES.
Qed.

End grouping.

Section post_facts.
Variable set_order : list string → list string.
Variables hour minute : nat.
Hypothesis set_order_ok : set_order_sound set_order.
Implicit Types (articles : list article) (date : string).

Lemma topic_of_inert t topic : topic_of t = Some topic → inert topic = true.
Proof.
  unfold topic_of.
  repeat (match goal with |- context [Py.any_in ?ks ?t] =>
            destruct (Py.any_in ks t) end);
    intros [= <-]; reflexivity.
Qed.

Lemma unique_topics_inert articles :
  Forall (λ l, inert l = true) (unique_topics set_order articles).
Proof.
  apply Forall_forall. intros x Hx. unfold unique_topics in Hx.
  apply elem_of_take in Hx as (i & Hi & _).
  apply list_elem_of_lookup_2, set_order_ok in Hi.
  unfold topics_mentioned in Hi.
  apply list_elem_of_omap in Hi as (a & _ & Ha).
  by eapply topic_of_inert.
Qed.

Lemma unique_cats_inert articles :
  Forall (λ l, inert l = true) (unique_cats articles).
Proof.
  apply Forall_forall. intros x Hx. unfold unique_cats in Hx.
  apply list_elem_of_In, filter_In in Hx as [Hx _].
  apply list_elem_of_In in Hx. unfold SUMMARY_CATEGORIES in Hx.
  rewrite !elem_of_cons, elem_of_nil in Hx.
  destruct Hx as [->|[->|[->|[->|[]]]]]; reflexivity.
Qed.

Lemma summary_parts_inert articles :
  Forall (λ l, inert l = true) (summary_parts set_order articles).
Proof.
  unfold summary_parts. repeat apply Forall_app_2.
  - repeat constructor. solve_inert.
  - pose proof (unique_topics_inert articles) as Ht.
    destruct (unique_topics set_order articles) as [|t ts] eqn:E;
      repeat constructor.
    apply inert_app; [done|]. apply inert_app; [|done].
    by apply inert_concat.
  - pose proof (unique_cats_inert articles) as Hc.
    destruct (unique_cats articles) as [|c0 [|c1 cs]];
      repeat constructor; inversion Hc as [|? ? Hc0 Hc']; subst;
      try (inversion Hc' as [|? ? Hc1 ?]; subst); solve_inert.
Qed.

Lemma post_lines_links date articles with_images lines :
  inert date = true →
  Forall (λ a, well_formed_item a = true) articles →
  post_lines set_order hour minute date articles with_images = inr lines →
  lines_links lines (omap link (rendered_order articles)).
Proof.
  intros Hdate Hwf. unfold post_lines.
  destruct (group_articles empty_groups articles) as [e|grouped] eqn:Eg;
    [discriminate|].
  destruct (render_categories with_images grouped CATEGORIES)
    as [e|body] eqn:Eb; [discriminate|].
  intros Heq.
  assert (lines = frontmatter hour minute date
                  ++ summary_block set_order articles
                  ++ body ++ [FOOTER; ""]) as -> by congruence.
  clear Heq.
  assert (rendered_order articles
          = flat_map (λ cat, default [] (grouped !! cat)) CATEGORIES) as ->.
  { unfold rendered_order. apply flat_map_ext_elem_of. intros cat Hcat.
    by rewrite (grouped_lookup _ _ _ Eg Hcat). }
  apply (lines_links_app _ []).
  { apply lines_links_inert. unfold frontmatter.
    repeat constructor; solve_inert. }
  apply (lines_links_app _ []).
  { apply lines_links_inert. unfold summary_block.
    repeat constructor; try reflexivity.
    apply inert_app; [done|]. apply inert_app; [|done].
    apply inert_concat; [done | apply summary_parts_inert]. }
  apply lines_links_app_inert; [|by repeat constructor].
  - eapply render_categories_lines; [| |done].
    + apply Forall_forall. intros cat. unfold CATEGORIES.
      rewrite !elem_of_cons, elem_of_nil.
      intros [->|[->|[->|[->|[->|[]]]]]]; reflexivity.
    + intros cat items Hcat Hitems.
      rewrite (grouped_lookup _ _ _ Eg Hcat) in Hitems.
      injection Hitems as <-. apply Forall_forall.
      intros a [_ Ha]%list_elem_of_filter.
      rewrite Forall_forall in Hwf. by apply Hwf.
Qed.

End post_facts.

Lemma rendered_links_round_trip_lemma
    (set_order : list string → list string) (hour minute : nat)
    (date : string) (articles : list article) (with_images : bool)
    (doc : string) :
  set_order_sound set_order →
  inert date = true →
  Forall (λ a, well_formed_item a = true) articles →
  create_post_content set_order hour minute date articles with_images
  = inr doc →
  extract_links doc = omap link (rendered_order articles)
  ∧ extract_links doc ≡ₚ omap link articles.
Proof.
  intros Hset Hdate Hwf. unfold create_post_content.
  destruct (post_lines set_order hour minute date articles with_images)
    as [e|lines] eqn:El; [discriminate|].
  intros [= <-].
  assert (extract_links (String.concat nl lines)
          = omap link (rendered_order articles)) as Heq.
  { by eapply extract_links_lines, post_lines_links. }
  split; [done|]. rewrite Heq.
  apply omap_Permutation, rendered_order_Permutation.
Qed.

(** X10.  Round trip of the links.  When the texts of the articles (titles,
    translated titles and summaries, discussion links, links) and the date
    hold no text that could start a link line, and every link is not empty
    and has no closing parenthesis, then extracting the links from the
    rendered post gives back the links of the articles: in the order of the
    post (category after category, input order within a category), each as
    often as the articles have it. *)
Theorem rendered_links_round_trip
    (set_order : list string → list string) (hour minute : nat)
    (date : string) (articles : list article) (with_images : bool)
    (doc : string) :
  set_order_sound set_order →
  inert date = true →
  Forall (λ a, well_formed_item a = true) articles →
  create_post_content set_order hour minute date articles with_images
  = inr doc →
  extract_links doc = omap link (rendered_order articles)
  ∧ extract_links doc ≡ₚ omap link articles.
Proof. apply rendered_links_round_trip_lemma. Qed.

Lemma rendered_links_round_trip_witness :
  ∃ doc,
    create_post_content sample_set_order 9 5 "2026-01-02" sample_selection
      true = inr doc
    ∧ extract_links doc = omap link (rendered_order sample_selection)
    ∧ extract_links doc ≡ₚ omap link sample_selection.
Proof.
  destruct (create_post_content sample_set_order 9 5 "2026-01-02"
              sample_selection true) as [e|doc] eqn:E.
  { vm_compute in E. discriminate. }
  exists doc. split; [reflexivity|].
  apply (rendered_links_round_trip sample_set_order 9 5 "2026-01-02"
           sample_selection true doc).
  - intros l x Hx. exact Hx.
  - reflexivity.
  - repeat constructor.
  - exact E.
Defined.

(** ** Deduplication filter: errors, windows, and published posts *)

Section dedupe_more.
Variable posts : Z → option string.
Variable base : Z.
Implicit Types (seen : gset string) (offsets : list Z) (i days : Z).

Lemma scan_day_inl seen i e :
  scan_day posts base seen i = inl e → e = OverflowError ∧ base - i < 1.
Proof.
  unfold scan_day, minus_days, MIN_ORDINAL.
  destruct (Z.ltb_spec (base - i) 1).
  - by intros [= <-].
  - by destruct (posts (base - i)).
Qed.

Lemma scan_days_inl seen offsets e :
  scan_days posts base seen offsets = inl e →
  e = OverflowError ∧ ∃ i, i ∈ offsets ∧ base - i < 1.
Proof.
  revert seen. induction offsets as [|i rest IH]; intros seen; [discriminate|].
  cbn [scan_days].
  destruct (scan_day posts base seen i) as [e'|seen'] eqn:E.
  - intros [= <-]. apply scan_day_inl in E as [-> ?].
    split; [done|]. exists i. split; [left | done].
  - intros (-> & j & Hj & ?)%IH. split; [done|]. exists j.
    split; [by right | done].
Qed.

Lemma dedupe_articles_inr articles days :
  (0 < days → days < base) →
  ∃ seen,
    dedupe_articles posts articles base days
    = inr (List.filter (link_unseen seen) articles)
    ∧ ∀ l, l ∈ seen ↔ published_before posts base days l.
Proof.
  intros Hrange.
  destruct (scan_days_spec posts base ∅ (day_offsets days))
    as (seen & Hscan & Hseen).
  { intros i Hi%elem_of_day_offsets. unfold MIN_ORDINAL. lia. }
  exists seen. unfold dedupe_articles. rewrite Hscan. split; [done|].
  intros l. rewrite Hseen. unfold published_before. split.
  - intros [Hl|(i & Hi%elem_of_day_offsets & Hl)];
      [by apply not_elem_of_empty in Hl | eauto].
  - intros (i & Hi & Hl). right. exists i.
    by rewrite elem_of_day_offsets.
Qed.

End dedupe_more.

Lemma dedupe_articles_inl_iff
    (posts : Z → option string) (articles : list article) (base days : Z)
    (e : exn) :
  dedupe_articles posts articles base days = inl e
  ↔ e = OverflowError ∧ 0 < days ∧ base ≤ days.
Proof.
  split.
  - unfold dedupe_articles.
    destruct (scan_days posts base ∅ (day_offsets days)) as [e'|seen] eqn:E;
      [|discriminate].
    intros [= <-].
    apply scan_days_inl in E as (-> & i & Hi%elem_of_day_offsets & Hlt).
    split; [done | lia].
  - intros (-> & Hdays & Hbase). unfold dedupe_articles.
    destruct (scan_days posts base ∅ (day_offsets days)) as [e'|seen] eqn:E.
    + by apply scan_days_inl in E as (-> & _).
    + exfalso.
      assert (∀ offsets seen0 seen1,
                scan_days posts base seen0 offsets = inr seen1 →
                ∀ i, i ∈ offsets → 1 ≤ base - i) as Hall.
      { induction offsets as [|j rest IH]; intros seen0 seen1;
          [by intros _ i Hi; inversion Hi|].
        cbn [scan_days].
        destruct (scan_day posts base seen0 j) as [e'|seen'] eqn:Ej;
          [discriminate|].
        intros Hrest i [Heq|Hi]%elem_of_cons; [|by eapply IH].
        subst j. revert Ej. unfold scan_day, minus_days, MIN_ORDINAL.
        destruct (Z.ltb_spec (base - i) 1); [discriminate | lia]. }
      specialize (Hall _ _ _ E days).
      rewrite elem_of_day_offsets in Hall. lia.
Qed.

Section dedupe_of_date_facts.
Variable strptime : string → exn + Z.
Variable files : Z → post_file.
Variable base : Z.
Implicit Types (seen : gset string) (offsets : list Z) (i j days : Z).

(** The day [i] days back is in the calendar and its post, if there is
    one, can be read. *)
Let passes i : Prop :=
  1 ≤ base - i ∧ ∀ e, files (base - i) ≠ Unreadable e.

(** The loop fails at the day [i] days back, with [e]. *)
Let fails i (e : exn) : Prop :=
  (base - i < 1 ∧ e = OverflowError)
  ∨ (1 ≤ base - i ∧ files (base - i) = Unreadable e).

Lemma scan_file_inr seen i seen' :
  scan_file files base seen i = inr seen' → passes i.
Proof.
  unfold scan_file, minus_days, MIN_ORDINAL, passes.
  destruct (Z.ltb_spec (base - i) 1); [discriminate|].
  destruct (files (base - i)); [| |discriminate]; intros _; by split.
Qed.

Lemma scan_file_passes seen i :
  passes i → ∃ seen', scan_file files base seen i = inr seen'.
Proof.
  unfold scan_file, minus_days, MIN_ORDINAL, passes. intros [Hi Hread].
  destruct (Z.ltb_spec (base - i) 1); [lia|].
  destruct (files (base - i)) as [|content|e] eqn:E; [by eexists..|].
  by destruct (Hread e).
Qed.

Lemma scan_file_inl seen i e :
  scan_file files base seen i = inl e ↔ fails i e.
Proof.
  unfold scan_file, minus_days, MIN_ORDINAL, fails.
  destruct (Z.ltb_spec (base - i) 1).
  - split; [intros [= <-]; by left|]. intros [[_ ->]|[? _]]; [done | lia].
  - destruct (files (base - i)) as [|content|e'] eqn:E.
    + split; [discriminate|]. intros [[? _]|[_ ?]]; [lia | discriminate].
    + split; [discriminate|]. intros [[? _]|[_ ?]]; [lia | discriminate].
    + split; [intros [= <-]; by right|].
      intros [[? _]|[_ [= <-]]]; [lia | done].
Qed.

(** The loop raises at the first offset that does not pass. *)
Lemma scan_files_inl seen offsets e :
  scan_files files base seen offsets = inl e
  ↔ ∃ pre i post, offsets = pre ++ i :: post
                  ∧ Forall passes pre ∧ fails i e.
Proof.
  revert seen. induction offsets as [|i0 rest IH]; intros seen.
  - split; [discriminate|]. intros (pre & i & post & Heq & _).
    by destruct pre.
  - cbn [scan_files].
    destruct (scan_file files base seen i0) as [e0|seen0] eqn:E0.
    + split.
      * intros [= <-]. exists [], i0, rest. split; [done|].
        split; [constructor|]. by apply (scan_file_inl seen).
      * intros (pre & i & post & Heq & Hpre & Hfail).
        destruct pre as [|j pre]; cbn [app] in Heq; injection Heq as <- ->.
        -- apply (scan_file_inl seen) in Hfail. congruence.
        -- apply Forall_cons in Hpre as [Hj _].
           destruct (scan_file_passes seen i0 Hj) as [? ?]. congruence.
    + rewrite IH. split.
      * intros (pre & i & post & -> & Hpre & Hfail).
        exists (i0 :: pre), i, post. split; [done|]. split; [|done].
        constructor; [by eapply scan_file_inr | done].
      * intros (pre & i & post & Heq & Hpre & Hfail).
        destruct pre as [|j pre]; cbn [app] in Heq; injection Heq as <- ->.
        -- apply (scan_file_inl seen) in Hfail. congruence.
        -- apply Forall_cons in Hpre as [_ Hpre]. by exists pre, i, post.
Qed.

Lemma day_offsets_split days pre i post :
  day_offsets days = pre ++ i :: post →
  1 ≤ i ≤ days ∧ pre = day_offsets (i - 1).
Proof.
  unfold day_offsets. intros Heq.
  assert (length pre < Z.to_nat days)%nat as Hlen.
  { apply (f_equal length) in Heq.
    rewrite length_map, length_seq, length_app in Heq. cbn in Heq. lia. }
  assert (i = Z.of_nat (S (length pre))) as ->.
  { apply (f_equal (λ l, l !! length pre)) in Heq.
    rewrite list_lookup_middle in Heq by done.
    change (map Z.of_nat) with (fmap (M:=list) Z.of_nat) in Heq.
    rewrite list_lookup_fmap, lookup_seq_lt in Heq by done.
    by injection Heq as <-. }
  split; [lia|].
  replace (Z.to_nat (Z.of_nat (S (length pre)) - 1)) with (length pre) by lia.
  apply (f_equal (take (length pre))) in Heq.
  rewrite take_app_length in Heq.
  remember (length pre) as n eqn:Hn. clear Hn. rewrite <- Heq.
  change (map Z.of_nat) with (fmap (M:=list) Z.of_nat).
  rewrite <- fmap_take, take_seq. f_equal. f_equal. lia.
Qed.

Lemma day_offsets_app i days :
  1 ≤ i ≤ days →
  ∃ post, day_offsets days = day_offsets (i - 1) ++ i :: post.
Proof.
  intros Hi. unfold day_offsets.
  replace (Z.to_nat days)
    with (Z.to_nat (i - 1) + S (Z.to_nat days - Z.to_nat i))%nat by lia.
  rewrite seq_app, map_app. cbn [seq map].
  replace (Z.of_nat (1 + Z.to_nat (i - 1))) with i by lia. by eexists.
Qed.

Lemma scan_files_readable seen offsets :
  (∀ date e, files date ≠ Unreadable e) →
  scan_files files base seen offsets
  = scan_days (readable files) base seen offsets.
Proof.
  intros Hread. revert seen.
  induction offsets as [|i rest IH]; intros seen; [done|].
  cbn [scan_files scan_days].
  assert (scan_file files base seen i
          = scan_day (readable files) base seen i) as ->.
  { unfold scan_file, scan_day, readable.
    destruct (minus_days base i) as [e|prev]; [done|].
    destruct (files prev) as [|content|e] eqn:E; [done | done |].
    by destruct (Hread prev e). }
  destruct (scan_day (readable files) base seen i); [done|]. apply IH.
Qed.

End dedupe_of_date_facts.

(** With a date that parses and no file that cannot be read, the filter
    is the one that takes the day number and the readable posts. *)
Lemma dedupe_articles_of_date_readable
    (strptime : string → exn + Z) (files : Z → post_file)
    (articles : list article) (current_date : string) (base days : Z) :
  strptime current_date = inr base →
  (∀ date e, files date ≠ Unreadable e) →
  dedupe_articles_of_date strptime files articles current_date days
  = dedupe_articles (readable files) articles base days.
Proof.
  intros Hparse Hread. unfold dedupe_articles_of_date, dedupe_articles.
  by rewrite Hparse, scan_files_readable.
Qed.

(** X11.  When the filter raises, and what.  It raises the [ValueError]
    of [strptime] for a current date that does not parse.  For a date
    that parses it goes back day by day, at most [days] days, and raises
    at the first day that is before the first day of the calendar (the
    [OverflowError] of the date subtraction) or whose post cannot be read
    (the exception of the read).  It raises in no other case. *)
Theorem dedupe_articles_raises_iff
    (strptime : string → exn + Z) (files : Z → post_file)
    (articles : list article) (current_date : string) (days : Z)
    (e : exn) :
  dedupe_articles_of_date strptime files articles current_date days = inl e
  ↔ strptime current_date = inl e
    ∨ ∃ base i,
        strptime current_date = inr base
        ∧ 1 ≤ i ≤ days
        ∧ (∀ j, 1 ≤ j < i →
                1 ≤ base - j ∧ ∀ e', files (base - j) ≠ Unreadable e')
        ∧ ((base - i < 1 ∧ e = OverflowError)
           ∨ (1 ≤ base - i ∧ files (base - i) = Unreadable e)).
Proof.
  unfold dedupe_articles_of_date.
  destruct (strptime current_date) as [e0|base] eqn:Hparse.
  { split; [intros [= <-]; by left|].
    intros [[= <-]|(base & i & [=] & _)]. done. }
  destruct (scan_files files base ∅ (day_offsets days)) as [e0|seen] eqn:E.
  - apply scan_files_inl in E as (pre & i & post & Heq & Hpre & Hfail).
    apply day_offsets_split in Heq as [Hi ->].
    assert (∀ j, 1 ≤ j < i →
                 1 ≤ base - j ∧ ∀ e', files (base - j) ≠ Unreadable e')
      as Hbefore.
    { intros j Hj. rewrite Forall_forall in Hpre. apply Hpre.
      apply elem_of_day_offsets. lia. }
    split.
    + intros [= <-]. right. by exists base, i.
    + intros [[=]|(base' & i' & [= <-] & Hi' & Hbefore' & Hfail')].
      f_equal.
      assert (i' = i) as ->.
      { destruct (Z.lt_trichotomy i' i) as [Hlt|[?|Hgt]]; [|done|].
        - destruct (Hbefore i' ltac:(lia)) as [Hin Hread].
          destruct Hfail' as [[? _]|[_ Hun]]; [lia | by destruct (Hread e)].
        - destruct (Hbefore' i ltac:(lia)) as [Hin Hread].
          destruct Hfail as [[? _]|[_ Hun]]; [lia | by destruct (Hread e0)]. }
      destruct Hfail as [[? ->]|[? Hun]], Hfail' as [[? ->]|[? Hun']];
        [done | lia | lia | congruence].
  - split; [discriminate|].
    intros [[=]|(base' & i & [= <-] & Hi & Hbefore & Hfail)]. exfalso.
    destruct (day_offsets_app i days Hi) as [post Heq].
    assert (scan_files files base ∅ (day_offsets days) = inl e) as E'.
    { apply scan_files_inl. exists (day_offsets (i - 1)), i, post.
      split; [done|]. split; [|done].
      apply Forall_forall. intros j Hj%elem_of_day_offsets.
      apply Hbefore. lia. }
    congruence.
Qed.

(** With a date that parses and posts that can all be read: the filter
    raises exactly when [days] is positive and the current date is fewer
    than [days] days after the first day of the calendar. *)
Lemma dedupe_articles_of_date_overflow
    (strptime : string → exn + Z) (files : Z → post_file)
    (articles : list article) (current_date : string) (base days : Z)
    (e : exn) :
  strptime current_date = inr base →
  (∀ date e', files date ≠ Unreadable e') →
  dedupe_articles_of_date strptime files articles current_date days = inl e
  ↔ e = OverflowError ∧ 0 < days ∧ base ≤ days.
Proof.
  intros Hparse Hread.
  rewrite (dedupe_articles_of_date_readable _ _ _ _ base) by done.
  apply dedupe_articles_inl_iff.
Qed.

(** The three ways to raise, on the samples: a date that does not parse,
    a date two days after the first day of the calendar, and a post that
    cannot be read two days back; and a run that returns. *)
Example dedupe_articles_of_date_samples :
  dedupe_articles_of_date sample_strptime sample_files [] "yesterday" 3
  = inl (Exn "ValueError"
           "time data 'yesterday' does not match format '%Y-%m-%d'")
  ∧ dedupe_articles_of_date sample_strptime sample_files [] "0001-01-03" 3
    = inl OverflowError
  ∧ dedupe_articles_of_date sample_strptime sample_files [] "0001-04-10" 3
    = inl (Exn "PermissionError" "Permission denied")
  ∧ dedupe_articles_of_date sample_strptime sample_files
      [sample_linked "A" "https://a.example/1";
       sample_linked "C" "https://c.example/3"] "0001-04-10" 1
    = inr [sample_linked "C" "https://c.example/3"].
Proof. repeat split; by vm_compute. Qed.

Lemma filter_sublist_mono {A} (f g : A → bool) (l : list A) :
  (∀ x, g x = true → f x = true) →
  List.filter g l `sublist_of` List.filter f l.
Proof.
  intros Hfg. induction l as [|x l IH]; [done|]. cbn [List.filter].
  destruct (g x) eqn:Eg.
  - rewrite (Hfg x Eg). by apply sublist_skip.
  - destruct (f x); [by apply sublist_cons | done].
Qed.

Lemma filter_sublist {A} (f : A → bool) (l : list A) :
  List.filter f l `sublist_of` l.
Proof.
  induction l as [|x l IH]; [done|]. cbn [List.filter].
  destruct (f x); [by apply sublist_skip | by apply sublist_cons].
Qed.

(** X12.  A longer window never keeps more: what the filter returns for a
    window of [days'] days is a sub-sequence of what it returns for a
    shorter window of [days] days, which is a sub-sequence of the input. *)
Theorem dedupe_articles_window_mono
    (posts : Z → option string) (articles : list article)
    (base days days' : Z) :
  (0 < days' → days' < base) →
  days ≤ days' →
  ∃ kept kept',
    dedupe_articles posts articles base days = inr kept
    ∧ dedupe_articles posts articles base days' = inr kept'
    ∧ kept' `sublist_of` kept
    ∧ kept `sublist_of` articles.
Proof.
  intros Hrange Hle.
  destruct (dedupe_articles_inr posts base articles days)
    as (seen & Hrun & Hseen); [lia|].
  destruct (dedupe_articles_inr posts base articles days' Hrange)
    as (seen' & Hrun' & Hseen').
  eexists _, _. split; [done|]. split; [done|].
  split; [|apply filter_sublist].
  apply filter_sublist_mono. intros a. unfold link_unseen.
  destruct (link a) as [l|]; [|done].
  rewrite !bool_decide_eq_true. intros Hnot Hin. apply Hnot.
  apply Hseen'. apply Hseen in Hin as (i & Hi & Hl).
  exists i. split; [lia | done].
Qed.

Lemma dedupe_articles_window_mono_witness :
  ∃ kept kept',
    dedupe_articles sample_posts
      [sample_linked "A" "https://a.example/1";
       sample_linked "C" "https://c.example/3"] 101 1 = inr kept
    ∧ dedupe_articles sample_posts
        [sample_linked "A" "https://a.example/1";
         sample_linked "C" "https://c.example/3"] 101 3 = inr kept'
    ∧ kept' `sublist_of` kept
    ∧ kept `sublist_of` [sample_linked "A" "https://a.example/1";
                         sample_linked "C" "https://c.example/3"].
Proof. apply dedupe_articles_window_mono; lia. Defined.

(** X13.  Publishing feeds deduplication.  When a post rendered from a list
    of articles (under the conditions of the round trip) is the post of one
    of the [days] dates before the current date, the filter keeps no
    candidate that has the link of one of these articles. *)
Theorem published_articles_are_dropped
    (set_order : list string → list string) (hour minute : nat)
    (date : string) (articles : list article) (with_images : bool)
    (doc : string) (posts : Z → option string) (pool : list article)
    (base days i : Z) :
  set_order_sound set_order →
  inert date = true →
  Forall (λ a, well_formed_item a = true) articles →
  create_post_content set_order hour minute date articles with_images
  = inr doc →
  (0 < days → days < base) →
  1 ≤ i ≤ days →
  posts (base - i) = Some doc →
  ∃ kept,
    dedupe_articles posts pool base days = inr kept
    ∧ ∀ a u b, a ∈ articles → link a = Some u → b ∈ kept →
               link b ≠ Some u.
Proof.
  intros Hset Hdate Hwf Hdoc Hrange Hi Hpost.
  destruct (rendered_links_round_trip_lemma set_order hour minute date
              articles with_images doc Hset Hdate Hwf Hdoc) as [_ Hperm].
  destruct (dedupe_articles_inr posts base pool days Hrange)
    as (seen & Hrun & Hseen).
  eexists. split; [done|].
  intros a u b Ha Hu Hb Hbu.
  apply list_elem_of_In, filter_In in Hb as [_ Hb].
  unfold link_unseen in Hb. rewrite Hbu in Hb.
  apply bool_decide_eq_true in Hb. apply Hb, Hseen.
  exists i. split; [done|]. exists doc. split; [done|].
  rewrite Hperm. apply list_elem_of_omap. eauto.
Qed.


Lemma published_articles_are_dropped_witness :
  ∃ doc kept,
    create_post_content sample_set_order 9 5 "2026-01-02" sample_selection
      true = inr doc
    ∧ dedupe_articles (λ d, if d =? 99 then Some doc else None)
        [sample_linked "Again" "https://a.example/1";
         sample_linked "Fresh" "https://c.example/3"] 100 3
      = inr kept
    ∧ ∀ a u b, a ∈ sample_selection → link a = Some u → b ∈ kept →
               link b ≠ Some u.
Proof.
  destruct (create_post_content sample_set_order 9 5 "2026-01-02"
              sample_selection true) as [e|doc] eqn:E.
  { vm_compute in E. discriminate. }
  destruct (published_articles_are_dropped sample_set_order 9 5
              "2026-01-02" sample_selection true doc
              (λ d, if d =? 99 then Some doc else None)
              [sample_linked "Again" "https://a.example/1";
               sample_linked "Fresh" "https://c.example/3"] 100 3 1)
    as (kept & Hrun & Hkept).
  - intros l x Hx. exact Hx.
  - reflexivity.
  - repeat constructor.
  - exact E.
  - lia.
  - lia.
  - reflexivity.
  - exists doc, kept. split; [reflexivity | split; [exact Hrun | exact Hkept]].
Defined.

(** ** Publication renderer: when it raises *)

Section renderer_errors.
Variable set_order : list string → list string.
Variables hour minute : nat.
Implicit Types (articles items : list article) (a item : article).
Implicit Types (grouped : gmap string (list article)).

Lemma render_item_ok with_images item :
  complete_item item → ∃ lines, render_item with_images item = inr lines.
Proof.
  intros (Ht & Hl & Hs). unfold render_item, lacks_summary in *.
  destruct (title item) as [t|]; [|done].
  destruct (link item) as [u|]; [|done].
  destruct (Py.truthy (zh_summary item)) as [s|]; [|done].
  destruct (Py.truthy (zh_title item)); by eexists.
Qed.

Lemma render_item_inv with_images item lines :
  render_item with_images item = inr lines →
  link item ≠ None ∧ ¬ lacks_summary item.
Proof.
  unfold render_item, lacks_summary.
  destruct (match Py.truthy (zh_title item) with
            | Some t => inr t
            | None => _ end) as [e|t]; [discriminate|].
  destruct (Py.truthy (zh_summary item)) as [s|]; [|discriminate].
  destruct (link item) as [u|]; [|discriminate]. done.
Qed.

Lemma render_item_NameError with_images item :
  title item ≠ None → lacks_summary item →
  render_item with_images item = inl NameError_generate_summary.
Proof.
  intros Ht Hs. unfold render_item, lacks_summary in *.
  destruct (title item) as [t|]; [|done]. rewrite Hs.
  by destruct (Py.truthy (zh_title item)).
Qed.

Lemma render_items_ok with_images items :
  Forall complete_item items →
  ∃ lines, render_items with_images items = inr lines.
Proof.
  induction 1 as [|item items Hitem _ [more IH]]; [by eexists|].
  destruct (render_item_ok with_images item Hitem) as [lines Hlines].
  cbn [render_items]. rewrite Hlines, IH. by eexists.
Qed.

Lemma render_items_inv with_images items lines :
  render_items with_images items = inr lines →
  Forall (λ a, link a ≠ None ∧ ¬ lacks_summary a) items.
Proof.
  revert lines. induction items as [|item items IH]; intros lines;
    [constructor|].
  cbn [render_items].
  destruct (render_item with_images item) as [e|l1] eqn:E1; [discriminate|].
  destruct (render_items with_images items) as [e|l2]; [discriminate|].
  intros _. constructor; [by eapply render_item_inv | by eapply IH].
Qed.

(** With titles and, where a summary is there, links in place, the only
    failure of the item loop is the missing summary. *)
Lemma render_items_NameError with_images items :
  Forall (λ a, title a ≠ None ∧ (lacks_summary a ∨ link a ≠ None)) items →
  Exists lacks_summary items →
  render_items with_images items = inl NameError_generate_summary.
Proof.
  induction 1 as [|item items [Ht Hl] Hitems IH]; intros Hex;
    [by inversion Hex|].
  cbn [render_items]. destruct (decide (lacks_summary item)) as [Hs|Hs].
  - by rewrite render_item_NameError.
  - destruct (render_item_ok with_images item) as [lines ->].
    { split; [done|]. split; [|done]. by destruct Hl. }
    rewrite IH; [done|]. by inversion Hex.
Qed.

Lemma render_items_cases with_images items :
  Forall (λ a, title a ≠ None ∧ (lacks_summary a ∨ link a ≠ None)) items →
  (∃ lines, render_items with_images items = inr lines)
  ∨ render_items with_images items = inl NameError_generate_summary.
Proof.
  intros H. destruct (decide (Exists lacks_summary items)) as [Hex|Hno].
  - right. by apply render_items_NameError.
  - left. apply render_items_ok. apply not_Exists_Forall in Hno; [|apply _].
    rewrite Forall_forall in *. intros a Ha.
    destruct (H a Ha) as [Ht [Hl|Hl]]; [by destruct (Hno a Ha)|].
    split; [done|]. split; [done|]. by apply Hno.
Qed.

Lemma render_categories_ok with_images grouped cats :
  (∀ cat, cat ∈ cats → ∃ items, grouped !! cat = Some items
                                 ∧ Forall complete_item items) →
  ∃ body, render_categories with_images grouped cats = inr body.
Proof.
  induction cats as [|cat cats IH]; intros H; [by eexists|].
  destruct (H cat ltac:(left)) as (items & Hg & Hitems).
  destruct IH as [more IH]. { intros c Hc. apply H. by right. }
  cbn [render_categories]. rewrite Hg, IH.
  destruct items as [|item items]; [by eexists|].
  destruct (render_items_ok with_images _ Hitems) as [lines ->]. by eexists.
Qed.

Lemma render_categories_inv with_images grouped cats body :
  render_categories with_images grouped cats = inr body →
  ∀ cat items, cat ∈ cats → grouped !! cat = Some items →
    Forall (λ a, link a ≠ None ∧ ¬ lacks_summary a) items.
Proof.
  revert body. induction cats as [|c cats IH]; intros body Hr cat items Hcat;
    [inversion Hcat|].
  cbn [render_categories] in Hr.
  destruct (grouped !! c) as [its|] eqn:Eg; [|discriminate].
  assert (∃ body', render_categories with_images grouped cats = inr body'
                   ∧ Forall (λ a, link a ≠ None ∧ ¬ lacks_summary a) its)
    as (body' & Hrest & Hits).
  { destruct its as [|it its]; [by eexists|].
    destruct (render_items with_images (it :: its)) as [e|l1] eqn:E1;
      [discriminate|].
    destruct (render_categories with_images grouped cats) as [e|l2];
      [discriminate|].
    eexists. split; [done|]. by eapply render_items_inv. }
  apply elem_of_cons in Hcat as [->|Hcat].
  - rewrite Eg. by intros [= <-].
  - by eapply IH.
Qed.

Lemma render_categories_NameError with_images grouped cats :
  (∀ cat, cat ∈ cats →
     ∃ items, grouped !! cat = Some items
              ∧ Forall (λ a, title a ≠ None
                             ∧ (lacks_summary a ∨ link a ≠ None)) items) →
  (∃ cat items, cat ∈ cats ∧ grouped !! cat = Some items
                ∧ Exists lacks_summary items) →
  render_categories with_images grouped cats
  = inl NameError_generate_summary.
Proof.
  induction cats as [|cat cats IH]; intros H (c & its & Hc & Hg & Hex);
    [inversion Hc|].
  destruct (H cat ltac:(left)) as (items & Hgc & Hitems).
  cbn [render_categories]. rewrite Hgc.
  destruct (decide (Exists lacks_summary items)) as [Hhere|Hnot].
  - destruct items as [|item items]; [by inversion Hhere|].
    by rewrite render_items_NameError.
  - assert (render_categories with_images grouped cats
            = inl NameError_generate_summary) as Hrest.
    { apply IH; [intros c' Hc'; apply H; by right|].
      apply elem_of_cons in Hc as [->|Hc]; [|by eauto].
      rewrite Hgc in Hg. injection Hg as <-. done. }
    destruct items as [|item items]; [done|].
    destruct (render_items_cases with_images _ Hitems) as [[lines ->] | ->];
      [by rewrite Hrest | done].
Qed.

Lemma group_articles_ok articles :
  ∀ grouped,
    (∀ cat, cat ∈ CATEGORIES → is_Some (grouped !! cat)) →
    Forall (λ a, title a ≠ None) articles →
    ∃ grouped', group_articles grouped articles = inr grouped'.
Proof.
  induction articles as [|a articles IH]; intros grouped Hkeys Ht;
    [by eexists|].
  apply Forall_cons in Ht as [Ha Ht]. cbn [group_articles]. unfold group_add.
  destruct (title a) as [t|]; [|done].
  destruct (Hkeys _ (categorize_in_CATEGORIES t)) as [items ->].
  apply IH; [|done]. intros cat Hcat.
  destruct (decide (categorize t = cat)) as [<-|Hne].
  - rewrite lookup_insert_eq. by eexists.
  - rewrite lookup_insert_ne by done. by apply Hkeys.
Qed.

Lemma empty_groups_keys cat :
  cat ∈ CATEGORIES → is_Some (empty_groups !! cat).
Proof. intros H. rewrite empty_groups_lookup by done. by eexists. Qed.

Lemma create_post_content_inr_iff date articles with_images :
  (∃ doc, create_post_content set_order hour minute date articles
            with_images = inr doc)
  ↔ Forall complete_item articles.
Proof.
  unfold create_post_content, post_lines. split.
  - intros [doc Hdoc].
    destruct (group_articles empty_groups articles) as [e|grouped] eqn:Eg;
      [discriminate|].
    destruct (render_categories with_images grouped CATEGORIES)
      as [e|body] eqn:Eb; [discriminate|].
    pose proof (group_articles_titles _ _ _ Eg) as Ht.
    apply Forall_forall. intros a Ha.
    rewrite Forall_forall in Ht. split; [by apply Ht|].
    pose proof (categorize_in_CATEGORIES (default "" (title a))) as Hcat.
    pose proof (render_categories_inv _ _ _ _ Eb _ _ Hcat
                  (grouped_lookup _ _ _ Eg Hcat)) as Hitems.
    rewrite Forall_forall in Hitems. apply Hitems.
    by apply list_elem_of_filter.
  - intros Hall.
    destruct (group_articles_ok articles empty_groups empty_groups_keys)
      as [grouped Eg].
    { eapply Forall_impl; [exact Hall|]. by intros a (? & _). }
    rewrite Eg.
    destruct (render_categories_ok with_images grouped CATEGORIES)
      as [body ->]; [|by eexists].
    intros cat Hcat. eexists. split; [by apply grouped_lookup|].
    apply Forall_forall. intros a [_ Ha]%list_elem_of_filter.
    rewrite Forall_forall in Hall. by apply Hall.
Qed.

Lemma create_post_content_NameError date articles with_images a :
  Forall (λ a, title a ≠ None ∧ (lacks_summary a ∨ link a ≠ None))
    articles →
  a ∈ articles → lacks_summary a →
  create_post_content set_order hour minute date articles with_images
  = inl NameError_generate_summary.
Proof.
  intros Hall Ha Hs. unfold create_post_content, post_lines.
  destruct (group_articles_ok articles empty_groups empty_groups_keys)
    as [grouped Eg].
  { eapply Forall_impl; [exact Hall|]. by intros b (? & _). }
  rewrite Eg. rewrite render_categories_NameError; [done | |].
  - intros cat Hcat. eexists. split; [by apply grouped_lookup|].
    apply Forall_forall. intros b [_ Hb]%list_elem_of_filter.
    rewrite Forall_forall in Hall. by apply Hall.
  - pose proof (categorize_in_CATEGORIES (default "" (title a))) as Hcat.
    eexists _, _. split; [exact Hcat|].
    split; [by apply grouped_lookup|].
    apply Exists_exists. exists a. split; [|done].
    by apply list_elem_of_filter.
Qed.

End renderer_errors.

(** X14.  Rendering returns a document exactly when every article has a
    title, a link and a translated summary that is not empty; whatever the
    date, the time and the image flag are. *)
Theorem create_post_content_returns_iff
    (set_order : list string → list string) (hour minute : nat)
    (date : string) (articles : list article) (with_images : bool) :
  (∃ doc, create_post_content set_order hour minute date articles
            with_images = inr doc)
  ↔ Forall complete_item articles.
Proof. apply create_post_content_inr_iff. Qed.

(** X15.  An article without translated summary (the field absent or empty,
    as for an article the translation loop skipped) makes rendering raise
    [NameError]: the renderer falls back on [generate_summary], which the
    module does not define.  This holds when every article has a title and
    every article that has a summary has a link. *)
Theorem missing_summary_raises_NameError
    (set_order : list string → list string) (hour minute : nat)
    (date : string) (articles : list article) (with_images : bool)
    (a : article) :
  Forall (λ a, title a ≠ None ∧ (lacks_summary a ∨ link a ≠ None))
    articles →
  a ∈ articles → lacks_summary a →
  create_post_content set_order hour minute date articles with_images
  = inl NameError_generate_summary.
Proof. apply create_post_content_NameError. Qed.

Lemma missing_summary_raises_NameError_witness :
  create_post_content sample_set_order 9 5 "2026-01-02"
    (sample_selection ++ [sample_linked "Untranslated" "https://c.example/3"])
    false
  = inl NameError_generate_summary.
Proof.
  apply (missing_summary_raises_NameError sample_set_order 9 5 "2026-01-02"
           _ false (sample_linked "Untranslated" "https://c.example/3")).
  - repeat constructor; (by right) || (by left) || done.
  - apply (bool_decide_unpack _). by vm_compute.
  - reflexivity.
Defined.

(** ** Command line *)

Lemma parse_args_deploy cl : ns_deploy (parse_args cl) = true.
Proof. unfold parse_args, store_true. cbn. by destruct (flag_deploy cl). Qed.

(** X16.  Deployment does not depend on the command line: whenever
    [create_blog_post] returns and no deployment command fails, [main]
    runs the three deployment commands and reports the deployment, also
    when [--no-deploy] was given. *)
Theorem main_deploys_regardless
    (blog_post : post_call → option exn) (run : list string → option exn)
    (cl : command_line) :
  blog_post (main_call (parse_args cl)) = None →
  (∀ cmd, cmd ∈ DEPLOY_COMMANDS → run cmd = None) →
  main blog_post run cl
  = (None, [CreateBlogPost (main_call (parse_args cl));
            Run ["hexo"; "clean"]; Run ["hexo"; "g"]; Run ["hexo"; "d"];
            Print "Deployed!"]).
Proof.
  intros Hpost Hrun. unfold main. rewrite Hpost, parse_args_deploy.
  cbn [run_all DEPLOY_COMMANDS].
  rewrite !Hrun; [done|unfold DEPLOY_COMMANDS; set_solver..].
Qed.

Lemma main_deploys_regardless_witness :
  main (λ _, None) (λ _, None)
    (mkCommandLine (Some "2026-01-02") None None false false false false
       true None None)
  = (None,
     [CreateBlogPost (mkPostCall (Some "2026-01-02") 15 true true None 15 10);
      Run ["hexo"; "clean"]; Run ["hexo"; "g"]; Run ["hexo"; "d"];
      Print "Deployed!"]).
Proof.
  apply (main_deploys_regardless (λ _, None) (λ _, None)
           (mkCommandLine (Some "2026-01-02") None None false false false
              false true None None)); [reflexivity|].
  intros cmd _. reflexivity.
Defined.

(** X17.  The first deployment command is attempted on every command
    line on which [create_blog_post] returns: what [main] did starts
    with the blog post and [hexo clean]. *)
Theorem main_always_attempts_deploy
    (blog_post : post_call → option exn) (run : list string → option exn)
    (cl : command_line) :
  blog_post (main_call (parse_args cl)) = None →
  ∃ r rest, main blog_post run cl
            = (r, CreateBlogPost (main_call (parse_args cl))
                  :: Run ["hexo"; "clean"] :: rest).
Proof.
  intros Hpost. unfold main. rewrite Hpost, parse_args_deploy.
  cbn [run_all DEPLOY_COMMANDS].
  destruct (run ["hexo"; "clean"]); [by eexists _, _|].
  destruct (run ["hexo"; "g"]); [by eexists _, _|].
  destruct (run ["hexo"; "d"]); by eexists _, _.
Qed.

Lemma main_always_attempts_deploy_witness :
  ∃ r rest,
    main (λ _, None) (λ _, Some (Exn "CalledProcessError" "hexo"))
      (mkCommandLine None None None false false false false true None None)
    = (r, CreateBlogPost (mkPostCall None 15 true true None 15 10)
          :: Run ["hexo"; "clean"] :: rest).
Proof.
  apply (main_always_attempts_deploy (λ _, None)
           (λ _, Some (Exn "CalledProcessError" "hexo"))
           (mkCommandLine None None None false false false false true None
              None)).
  reflexivity.
Defined.

(** X18.  Images are fetched exactly when [--no-images] is absent:
    [--with-images] changes nothing, given or not. *)
Theorem with_images_flag_is_idle (cl : command_line) :
  call_with_images (main_call (parse_args cl)) = negb (flag_no_images cl).
Proof.
  unfold main_call, parse_args, store_true. cbn.
  by destruct (flag_with_images cl), (flag_no_images cl).
Qed.

(** ** The Minimax response *)

Lemma pad_bullets_spec fuel l :
  (3 - length l ≤ fuel)%nat →
  pad_bullets fuel l = l ++ replicate (3 - length l) PLACEHOLDER.
Proof.
  revert l. induction fuel as [|fuel IH]; intros l Hl; cbn [pad_bullets].
  - replace (3 - length l)%nat with 0%nat by lia. by rewrite app_nil_r.
  - destruct (Nat.ltb_spec (length l) 3) as [Hlt|Hge].
    + rewrite IH by (rewrite length_app; cbn; lia).
      rewrite length_app. cbn [length].
      replace (3 - length l)%nat with (S (3 - (length l + 1)))%nat by lia.
      cbn [replicate]. by rewrite <- app_assoc.
    + replace (3 - length l)%nat with 0%nat by lia. by rewrite app_nil_r.
Qed.

Lemma pad_bullets_length l : (3 ≤ length (pad_bullets 3 l))%nat.
Proof.
  rewrite pad_bullets_spec by lia. rewrite length_app, length_replicate. lia.
Qed.

Lemma split_lines_one_line s : one_line s = true → split_lines s = [s].
Proof.
  induction s as [|c s IH]; [done|]. cbn [one_line split_lines].
  intros [Hc Hs]%andb_true_iff. apply negb_true_iff in Hc. rewrite Hc.
  by rewrite (IH Hs).
Qed.

Lemma split_lines_app s t :
  one_line s = true → split_lines (s +:+ nl +:+ t) = s :: split_lines t.
Proof.
  induction s as [|c s IH].
  - intros _. reflexivity.
  - cbn [one_line]. intros [Hc Hs]%andb_true_iff. apply negb_true_iff in Hc.
    rewrite append_cons. cbn [split_lines]. rewrite Hc.
    by rewrite (IH Hs).
Qed.

Lemma split_lines_concat l ls :
  Forall (λ s, one_line s = true) (l :: ls) →
  split_lines (String.concat nl (l :: ls)) = l :: ls.
Proof.
  revert l. induction ls as [|l' ls IH]; intros l Hall.
  - cbn [String.concat]. apply split_lines_one_line. by inversion Hall.
  - change (String.concat nl (l :: l' :: ls))
      with (l +:+ nl +:+ String.concat nl (l' :: ls)).
    inversion Hall; subst. rewrite split_lines_app by done.
    by rewrite IH.
Qed.

Lemma prefix_dash b : String.prefix "- " ("- " +:+ b) = true.
Proof. by destruct b. Qed.

Section minimax_facts.
Variable strip : string → string.

Lemma find_text_block_first pre b post :
  Forall (λ b', block_type b' ≠ Some "text") pre →
  block_type b = Some "text" →
  find_text_block (pre ++ b :: post) = default "" (block_text b).
Proof.
  intros Hpre Hb. induction Hpre as [|b' pre Hb' _ IH]; cbn [app find_text_block].
  - by rewrite bool_decide_eq_true_2.
  - by rewrite bool_decide_eq_false_2.
Qed.

Lemma parse_line_unmarked st raw :
  p_section st = NoSection → unmarked (strip raw) = true →
  parse_line strip st raw = st.
Proof.
  intros Hsec Hun. unfold unmarked in Hun.
  apply andb_true_iff in Hun as [[H1 H2]%andb_true_iff H3].
  apply negb_true_iff in H1, H2, H3.
  unfold parse_line. rewrite H1, H2, H3, Hsec.
  by destruct (String.prefix "- " (strip raw)).
Qed.

Lemma fold_parse_line_unmarked st lines :
  p_section st = NoSection →
  Forall (λ raw, unmarked (strip raw) = true) lines →
  fold_left (parse_line strip) lines st = st.
Proof.
  intros Hsec Hall. induction Hall as [|raw lines Hraw _ IH]; [done|].
  cbn [fold_left]. by rewrite parse_line_unmarked.
Qed.

Lemma fold_parse_line_bullets st bs :
  p_section st = InBullets →
  Forall (λ b, strip ("- " +:+ b) = "- " +:+ b ∧ strip b = b) bs →
  fold_left (parse_line strip) (map (λ b, "- " +:+ b) bs) st
  = mkParseState (p_title st) InBullets (p_summary_parts st)
      (p_bullet_parts st ++ bs).
Proof.
  intros Hsec Hall. revert st Hsec.
  induction Hall as [|b bs [Hline Hb] _ IH]; intros st Hsec.
  - cbn. rewrite app_nil_r. destruct st; cbn in *; by subst.
  - cbn [map fold_left]. rewrite IH.
    + unfold parse_line. rewrite Hline, Hsec.
      change (String.prefix TITLE_MARK ("- " +:+ b)) with false.
      change (String.prefix SUMMARY_MARK ("- " +:+ b)) with false.
      change (String.prefix BULLETS_MARK ("- " +:+ b)) with false.
      rewrite prefix_dash.
      change (string_drop 2 ("- " +:+ b)) with b.
      cbn [p_title p_section p_summary_parts p_bullet_parts].
      by rewrite Hb, <- app_assoc.
    + unfold parse_line. rewrite Hline, Hsec.
      change (String.prefix TITLE_MARK ("- " +:+ b)) with false.
      change (String.prefix SUMMARY_MARK ("- " +:+ b)) with false.
      change (String.prefix BULLETS_MARK ("- " +:+ b)) with false.
      rewrite prefix_dash.
      reflexivity.
Qed.

End minimax_facts.

Lemma one_line_app s t : one_line (s +:+ t) = one_line s && one_line t.
Proof.
  induction s as [|c s IH]; [done|].
  rewrite append_cons. cbn [one_line]. by rewrite IH, andb_assoc.
Qed.

Lemma parse_minimax_no_text strip content :
  find_text_block (default [] content) = "" →
  parse_minimax strip content = inl ValueError_no_text_block.
Proof. intros Hfind. unfold parse_minimax. by rewrite Hfind. Qed.

(** X19.  The first block of type ["text"] decides: when it has no text,
    or an empty one, the response is refused with [ValueError], whatever
    blocks follow it. *)
Theorem minimax_first_text_block_decides
    (strip : string → string) (pre post : list block) (b : block) :
  Forall (λ b', block_type b' ≠ Some "text") pre →
  block_type b = Some "text" →
  default "" (block_text b) = "" →
  parse_minimax strip (Some (pre ++ b :: post))
  = inl ValueError_no_text_block.
Proof.
  intros Hpre Hb Htext. apply parse_minimax_no_text.
  cbn [default]. unfold id. by rewrite find_text_block_first.
Qed.

Lemma minimax_first_text_block_decides_witness :
  parse_minimax strip_spaces
    (Some ([mkBlock (Some "thinking") (Some "...")]
           ++ mkBlock (Some "text") None
              :: [mkBlock (Some "text") (Some "标题：甲")]))
  = inl ValueError_no_text_block.
Proof.
  apply (minimax_first_text_block_decides strip_spaces
           [mkBlock (Some "thinking") (Some "...")]
           [mkBlock (Some "text") (Some "标题：甲")]
           (mkBlock (Some "text") None)).
  - repeat constructor. discriminate.
  - reflexivity.
  - reflexivity.
Defined.

(** X20.  Every summary parsed from a Minimax response ends with the
    bullet heading and at least three bullets. *)
Theorem minimax_summary_ends_in_bullets
    (strip : string → string) (content : option (list block))
    (zh_title zh_summary : string) :
  parse_minimax strip content = inr (zh_title, zh_summary) →
  ∃ head bullets,
    zh_summary = head +:+ nl +:+ nl +:+ BULLETS_HEADING +:+ nl
                 +:+ String.concat nl (map (λ b, "- " +:+ b) bullets)
    ∧ (3 ≤ length bullets)%nat.
Proof.
  unfold parse_minimax.
  destruct (String.eqb _ ""); [discriminate|].
  unfold parse_text.
  pose proof (pad_bullets_length
    (p_bullet_parts (fold_left (parse_line strip)
       (split_lines (strip (find_text_block (default [] content))))
       parse_start))) as Hlen.
  destruct (pad_bullets 3 _) as [|b bullets]; [cbn in Hlen; lia|].
  intros [= _ <-].
  eexists _, (b :: bullets). split; [reflexivity|done].
Qed.

Lemma minimax_summary_ends_in_bullets_witness :
  ∃ head bullets,
    "甲" +:+ nl +:+ nl +:+ "要点：" +:+ nl
      +:+ "- 乙" +:+ nl +:+ "- 细节待补充" +:+ nl +:+ "- 细节待补充"
    = head +:+ nl +:+ nl +:+ BULLETS_HEADING +:+ nl
      +:+ String.concat nl (map (λ b, "- " +:+ b) bullets)
    ∧ (3 ≤ length bullets)%nat.
Proof.
  apply (minimax_summary_ends_in_bullets strip_spaces
           (Some [mkBlock (Some "text")
                    (Some ("摘要： 甲 " +:+ nl +:+ "要点：" +:+ nl +:+ "- 乙"))])
           "").
  reflexivity.
Defined.

(** X21.  A reply that opens none of the three sections is not an error:
    it is parsed to an empty title and a summary of the heading and three
    placeholder bullets. *)
Theorem minimax_unformatted_reply
    (strip : string → string) (content : option (list block)) :
  find_text_block (default [] content) ≠ "" →
  Forall (λ raw, unmarked (strip raw) = true)
    (split_lines (strip (find_text_block (default [] content)))) →
  parse_minimax strip content
  = inr ("", nl +:+ nl +:+ "要点：" +:+ nl
             +:+ "- 细节待补充" +:+ nl +:+ "- 细节待补充" +:+ nl
             +:+ "- 细节待补充").
Proof.
  intros Hne Hall. unfold parse_minimax.
  destruct (String.eqb_spec (find_text_block (default [] content)) "");
    [done|].
  unfold parse_text. by rewrite fold_parse_line_unmarked.
Qed.

Lemma minimax_unformatted_reply_witness :
  parse_minimax strip_spaces
    (Some [mkBlock (Some "text")
             (Some ("Sorry, I cannot help." +:+ nl +:+ "- really"))])
  = inr ("", nl +:+ nl +:+ "要点：" +:+ nl
             +:+ "- 细节待补充" +:+ nl +:+ "- 细节待补充" +:+ nl
             +:+ "- 细节待补充").
Proof.
  apply (minimax_unformatted_reply strip_spaces).
  - discriminate.
  - repeat constructor.
Defined.

Lemma parse_formatted strip text T S bs :
  text ≠ "" →
  strip text = String.concat nl (formatted_lines T S bs) →
  Forall (λ s, one_line s = true) (T :: S :: bs) →
  Forall (kept strip) (formatted_lines T S bs) →
  Forall (kept strip) (T :: S :: bs) →
  parse_text strip text
  = (T, S +:+ nl +:+ nl +:+ "要点：" +:+ nl
        +:+ String.concat nl
              (map (λ b, "- " +:+ b)
                 (bs ++ replicate (3 - length bs) PLACEHOLDER))).
Proof.
  intros Hne Htext Hone Hlines Hfields.
  apply Forall_cons in Hone as [HT Hone]. apply Forall_cons in Hone as [HS Hbs].
  apply Forall_cons in Hfields as [HkT Hfields].
  apply Forall_cons in Hfields as [HkS Hkbs].
  unfold formatted_lines in Hlines.
  apply Forall_app in Hlines as [Hhead Hblines].
  apply Forall_cons in Hhead as [HlT Hhead].
  apply Forall_cons in Hhead as [HlS Hhead].
  apply Forall_cons in Hhead as [HlB _].
  unfold kept in *.
  unfold parse_text. rewrite Htext. unfold formatted_lines.
  cbn [app]. rewrite split_lines_concat.
  2:{ repeat apply Forall_cons_2.
      - by rewrite one_line_app, HT.
      - by rewrite one_line_app, HS.
      - done.
      - apply Forall_map. eapply Forall_impl; [exact Hbs|].
        intros b Hb. cbn beta. by rewrite one_line_app, Hb. }
  cbn [fold_left].
  assert (parse_line strip parse_start (TITLE_MARK +:+ T)
          = mkParseState T NoSection [] []) as ->.
  { unfold parse_line. rewrite HlT.
    change (String.prefix TITLE_MARK (TITLE_MARK +:+ T))
      with (String.prefix "" T).
    replace (String.prefix "" T) with true by (by destruct T).
    change (string_drop 9 (TITLE_MARK +:+ T)) with T. by rewrite HkT. }
  assert (parse_line strip (mkParseState T NoSection [] [])
            (SUMMARY_MARK +:+ S)
          = mkParseState T InSummary [S] []) as ->.
  { unfold parse_line. rewrite HlS.
    change (String.prefix TITLE_MARK (SUMMARY_MARK +:+ S)) with false.
    change (String.prefix SUMMARY_MARK (SUMMARY_MARK +:+ S))
      with (String.prefix "" S).
    replace (String.prefix "" S) with true by (by destruct S).
    change (string_drop 9 (SUMMARY_MARK +:+ S)) with S. by rewrite HkS. }
  assert (parse_line strip (mkParseState T InSummary [S] []) BULLETS_MARK
          = mkParseState T InBullets [S] []) as ->.
  { unfold parse_line. by rewrite HlB. }
  rewrite fold_parse_line_bullets; [|done|].
  2:{ apply Forall_map in Hblines. rewrite Forall_forall in Hblines, Hkbs.
      apply Forall_forall. intros b Hb. split; [by apply Hblines|].
      by apply Hkbs. }
  cbn [p_title p_summary_parts p_bullet_parts app].
  rewrite pad_bullets_spec by lia.
  destruct (bs ++ replicate (3 - length bs) PLACEHOLDER) as [|b rest] eqn:Hpad.
  { apply (f_equal length) in Hpad.
    rewrite length_app, length_replicate in Hpad. cbn in Hpad. lia. }
  reflexivity.
Qed.

(** X22.  A reply in the format that the system prompt asks for, with
    fields of one line each that [strip] leaves alone, is read back
    exactly: the title, and the summary followed by the heading and the
    bullets, padded with placeholders to three and never cut. *)
Theorem minimax_formatted_reply
    (strip : string → string) (content : option (list block))
    (T S : string) (bs : list string) :
  find_text_block (default [] content) ≠ "" →
  strip (find_text_block (default [] content))
  = String.concat nl (formatted_lines T S bs) →
  Forall (λ s, one_line s = true) (T :: S :: bs) →
  Forall (kept strip) (formatted_lines T S bs) →
  Forall (kept strip) (T :: S :: bs) →
  parse_minimax strip content
  = inr (T, S +:+ nl +:+ nl +:+ "要点：" +:+ nl
            +:+ String.concat nl
                  (map (λ b, "- " +:+ b)
                     (bs ++ replicate (3 - length bs) PLACEHOLDER))).
Proof.
  intros Hne Htext Hone Hlines Hfields. unfold parse_minimax.
  destruct (String.eqb_spec (find_text_block (default [] content)) "");
    [done|].
  f_equal. by apply parse_formatted.
Qed.

Lemma minimax_formatted_reply_witness :
  parse_minimax strip_spaces
    (Some [mkBlock (Some "thinking") None;
           mkBlock (Some "text")
             (Some ("  标题：甲" +:+ nl +:+ "摘要：乙 丙" +:+ nl +:+ "要点："
                    +:+ nl +:+ "- 丁" +:+ nl +:+ "- 戊" +:+ nl +:+ "- 己"
                    +:+ nl +:+ "- 庚 "))])
  = inr ("甲", "乙 丙" +:+ nl +:+ nl +:+ "要点：" +:+ nl +:+ "- 丁" +:+ nl
               +:+ "- 戊" +:+ nl +:+ "- 己" +:+ nl +:+ "- 庚").
Proof.
  apply (minimax_formatted_reply strip_spaces _ "甲" "乙 丙"
           ["丁"; "戊"; "己"; "庚"]).
  - discriminate.
  - reflexivity.
  - repeat constructor.
  - repeat constructor.
  - repeat constructor.
Defined.

(** X23.  With Minimax configured, a response without usable text block
    costs one call and is not an error for [translate_with_llm]: it
    reports the failure on standard error and returns the original title
    with the placeholder summary. *)
Theorem minimax_without_text_falls_back
    (strip : string → string)
    (post_json : list request → request → exn + option (list block))
    (openai : list request → request → reply)
    (env : environ) (title : string) (description source_name : option string)
    (w : world) (content : option (list block)) :
  ANTHROPIC_API_KEY env ≠ "" →
  post_json (calls w)
    (mkRequest Minimax title (Some (Py.or_else description "")) source_name)
  = inr content →
  find_text_block (default [] content) = "" →
  translate_with_llm (parsed_service strip post_json openai) env title
    description source_name w
  = (inr (title, fallback_summary (Py.or_else source_name DEFAULT_SOURCE)),
     {| calls := calls w
                 ++ [mkRequest Minimax title
                       (Some (Py.or_else description "")) source_name];
        stderr := stderr w
                  ++ ["[DEBUG] Translation failed: Minimax translation failed: No text block in response"] |}).
Proof.
  intros Hkey Hpost Hfind.
  apply String.eqb_neq in Hkey.
  unfold translate_with_llm, translate_attempt, has_api_key,
    translate_title_and_summary, bind, try_except, call_backend, raise,
    print_stderr, ret, parsed_service.
  rewrite Hkey. cbn [negb orb req_backend]. rewrite Hpost.
  by rewrite parse_minimax_no_text.
Qed.

Lemma minimax_without_text_falls_back_witness :
  translate_with_llm
    (parsed_service strip_spaces
       (λ _ _, inr (Some [mkBlock (Some "thinking") (Some "hm")]))
       (λ _ _, Replied "" ""))
    (mkEnviron "key" "") "Title" None (Some "HN") (mkWorld [] [])
  = (inr ("Title", fallback_summary "HN"),
     {| calls := [mkRequest Minimax "Title" (Some "") (Some "HN")];
        stderr := ["[DEBUG] Translation failed: Minimax translation failed: No text block in response"] |}).
Proof.
  apply (minimax_without_text_falls_back strip_spaces
           (λ _ _, inr (Some [mkBlock (Some "thinking") (Some "hm")]))
           (λ _ _, Replied "" "")
           (mkEnviron "key" "") "Title" None (Some "HN") (mkWorld [] [])
           (Some [mkBlock (Some "thinking") (Some "hm")])).
  - discriminate.
  - reflexivity.
  - reflexivity.
Defined.

(** ** From the fetched articles to the post *)

Lemma selection_sequence_elem_of articles per_source source_order a :
  a ∈ selection_sequence articles per_source source_order → a ∈ articles.
Proof.
  rewrite selection_sequence_Permutation. unfold taken_all.
  rewrite (flat_map_ext_elem_of _ (bucket_of articles))
    by (intros src _; apply bucket_get_make_buckets).
  intros Hin. apply list_elem_of_In, in_flat_map in Hin as (src & _ & Hin).
  by apply list_elem_of_In, bucket_of_elem_of in Hin as [? _].
Qed.

(** X24.  The filter and the selector together: on a date with three
    earlier dates in the calendar and for a limit that is not negative,
    the selection returns at most [limit] of the fetched articles, none
    of them with a link that one of the posts of the three dates before
    holds. *)
Theorem select_articles_unpublished
    (posts : Z → option string) (fetched : list article) (base : Z)
    (sources : option (list string)) (limit : Z) :
  DEDUPE_DAYS < base → 0 ≤ limit →
  ∃ r, select_articles posts fetched base true sources limit = Return r
       ∧ Py.len r ≤ limit
       ∧ Forall (λ a, a ∈ fetched
                      ∧ ∀ l, link a = Some l →
                             ¬ published_before posts base DEDUPE_DAYS l) r.
Proof.
  intros Hbase Hlimit. unfold select_articles.
  destruct (dedupe_articles_inr posts base fetched DEDUPE_DAYS)
    as (seen & -> & Hseen); [done|].
  rewrite pick_articles_balanced_take by lia.
  eexists. split; [done|]. split.
  - unfold Py.len. rewrite length_take. lia.
  - apply Forall_forall. intros a Ha.
    apply (subseteq_take _ _ a) in Ha.
    apply selection_sequence_elem_of, list_elem_of_In, filter_In in Ha
      as [Ha%list_elem_of_In Hun].
    split; [done|]. intros l Hl Hpub. apply Hseen in Hpub.
    unfold link_unseen in Hun. rewrite Hl in Hun.
    by apply bool_decide_eq_true in Hun.
Qed.

Lemma select_articles_unpublished_witness :
  ∃ r, select_articles sample_posts
         [sample_linked "A" "https://a.example/1";
          sample_linked "C" "https://c.example/3"] 100 true None 10
       = Return r
       ∧ Py.len r ≤ 10
       ∧ Forall (λ a, a ∈ [sample_linked "A" "https://a.example/1";
                           sample_linked "C" "https://c.example/3"]
                      ∧ ∀ l, link a = Some l →
                             ¬ published_before sample_posts 100 DEDUPE_DAYS l)
           r.
Proof.
  apply (select_articles_unpublished sample_posts
           [sample_linked "A" "https://a.example/1";
            sample_linked "C" "https://c.example/3"] 100 None 10).
  - reflexivity.
  - lia.
Defined.

Section blog_post_facts.
Variable service : list request → request → reply.
Variable env : environ.




End blog_post_facts.




Section empty_summaries.
Variable service : list request → request → reply.
Variable env : environ.
Hypothesis Hkey : has_api_key env = true.
Hypothesis Hreply : ∀ past rq, ∃ t, service past rq = Replied t "".




End empty_summaries.


